(** * pi-messenger: the coordination fabric and the crew store, embedded in Rocq

    The development follows the TypeScript sources:
    - [Lib]   : pure utilities of [lib.ts] (status derivation, reservations);
    - [Swarm] : claims and completions of [store.ts];
    - [Crew]  : task store of [crew/store.ts], autonomous state of
                [crew/state.ts], the wave epilogue of [crew/handlers/work.ts]
                and the [agent_end] hook of [index.ts].

    - [Registry], [Reservations], [Presence] : names and registrations of
                [store.ts], the reservation handlers of [lib.ts], the
                [tool_call] hook of [index.ts].

    JavaScript objects used as dictionaries are finite maps ([gmap]) with
    string keys, which hold their own properties; a read with a key that
    the caller chooses also finds the members that every object inherits
    ([getProperty]).  Numbers that hold milliseconds, PIDs and counters
    are integers ([Z]); [undefined]/absent fields are [option]s. *)

From Stdlib Require Import Ascii.
From stdpp Require Import gmap strings list fin_maps sorting pretty.

Local Open Scope Z_scope.

(* ===================================================================== *)
(** * lib.ts *)
(* ===================================================================== *)

Module Lib.

(** ** String primitives of the JavaScript runtime used by [lib.ts] *)

(** [s.startsWith(p)] *)
Fixpoint startsWith (s p : string) : bool :=
  match p, s with
  | EmptyString, _ => true
  | String _ _, EmptyString => false
  | String b p', String a s' => bool_decide (a = b) && startsWith s' p'
  end.

(** [s.endsWith(suffix)] *)
Fixpoint endsWith (s suffix : string) : bool :=
  bool_decide (s = suffix) ||
  match s with
  | EmptyString => false
  | String _ s' => endsWith s' suffix
  end.

(** White space removed by [String.prototype.trim], on the code units an
    8-bit character can hold: TAB, LF, VT, FF, CR, SPACE and NBSP. *)
Definition isWhiteSpace (c : ascii) : bool :=
  Ascii.is_space c || bool_decide (c = "160"%char).

Fixpoint dropWhileEnd (f : ascii → bool) (s : string) : string :=
  match s with
  | EmptyString => EmptyString
  | String c s' =>
      let t := dropWhileEnd f s' in
      if f c && bool_decide (t = EmptyString) then EmptyString else String c t
  end.

Fixpoint dropWhileStart (f : ascii → bool) (s : string) : string :=
  match s with
  | EmptyString => EmptyString
  | String c s' => if f c then dropWhileStart f s' else s
  end.

(** [s.trim()] *)
Definition trim (s : string) : string :=
  dropWhileEnd isWhiteSpace (dropWhileStart isWhiteSpace s).

Definition isSlash (c : ascii) : bool :=
  bool_decide (c = "/"%char) || bool_decide (c = "092"%char).

(** [s.replace(re, empty)] where [re] matches a trailing run of slashes
    and backslashes. *)
Definition stripTrailingSlashes (s : string) : string :=
  dropWhileEnd isSlash s.

(** [s.replace(re, slash)] for the global pattern of one backslash. *)
Fixpoint backslashesToSlashes (s : string) : string :=
  match s with
  | EmptyString => EmptyString
  | String c s' =>
      String (if bool_decide (c = "092"%char) then "/"%char else c)
             (backslashesToSlashes s')
  end.

(** ** Status derivation *)

Inductive AgentStatus := active | idle | away | stuck.

Global Instance AgentStatus_eq_dec : EqDecision AgentStatus.
Proof. solve_decision. Defined.

Record ComputedStatus := {
  status : AgentStatus;
  idleFor : option string;
}.

(** [formatDuration(ms)]: [Math.floor] of a quotient by a positive constant
    is [Z.div]; [%] is [Z.rem].  The arithmetic is that of the integers,
    which numbers follow for whole values below 2^53 in size (the time
    elapsed since a date is one). *)
Definition formatDuration (ms : Z) : string :=
  let seconds := ms `div` 1000 in
  let minutes := seconds `div` 60 in
  let hours := minutes `div` 60 in
  if bool_decide (hours > 0) then
    pretty hours +:+ "h " +:+ pretty (minutes `rem` 60) +:+ "m"
  else if bool_decide (minutes > 0) then
    pretty minutes +:+ "m " +:+ pretty (seconds `rem` 60) +:+ "s"
  else pretty seconds +:+ "s".

Definition ACTIVE_MS : Z := 30000.
Definition IDLE_MS : Z := 5 * 60000.

Section Status.
(** [new Date(s).getTime()] of the runtime: [None] is NaN (the string is
    not a date), otherwise milliseconds since the epoch. *)
Variable getTime : string → option Z.

(** [Date.now() - new Date(lastActivityAt).getTime()]; [None] is NaN. *)
Definition elapsedSince (now : Z) (lastActivityAt : string) : option Z :=
  t ← getTime lastActivityAt; Some (now - t).

(** [computeStatus]; [now] is the value of [Date.now()]. *)
Definition computeStatus (now : Z) (lastActivityAt : string)
    (hasTask hasReservation : bool) (thresholdMs : Z) : ComputedStatus :=
  match elapsedSince now lastActivityAt with
  | None => {| status := active; idleFor := None |}
  | Some elapsed =>
      if bool_decide (elapsed < 0) then {| status := active; idleFor := None |}
      else if bool_decide (elapsed < ACTIVE_MS) then
        {| status := active; idleFor := None |}
      else if bool_decide (elapsed < IDLE_MS) then
        {| status := idle; idleFor := Some (formatDuration elapsed) |}
      else if negb hasTask && negb hasReservation then
        {| status := away; idleFor := Some (formatDuration elapsed) |}
      else if bool_decide (elapsed >= thresholdMs) then
        {| status := stuck; idleFor := Some (formatDuration elapsed) |}
      else {| status := idle; idleFor := Some (formatDuration elapsed) |}
  end.
End Status.

(** The status table of the specification, one row per line, tried from
    the top: a row applies when its elapsed-time condition and its
    claim/reservation column both hold. *)
Inductive FlagColumn := AnyFlag | YesFlag | NoFlag.

Definition flagMatches (col : FlagColumn) (hasClaimOrReservation : bool) : bool :=
  match col with
  | AnyFlag => true
  | YesFlag => hasClaimOrReservation
  | NoFlag => negb hasClaimOrReservation
  end.

Definition statusTable (thresholdMs : Z) : list ((Z → bool) * FlagColumn * AgentStatus) :=
  [ (λ e, bool_decide (e < 30 * 1000), AnyFlag, active);
    (λ e, bool_decide (e < 5 * 60 * 1000), AnyFlag, idle);
    (λ e, bool_decide (5 * 60 * 1000 ≤ e) && bool_decide (e < thresholdMs), YesFlag, idle);
    (λ e, bool_decide (5 * 60 * 1000 ≤ e) && bool_decide (e < thresholdMs), NoFlag, away);
    (λ e, bool_decide (thresholdMs ≤ e), YesFlag, stuck) ].

Fixpoint firstRow (rows : list ((Z → bool) * FlagColumn * AgentStatus))
    (elapsed : Z) (flag : bool) : option AgentStatus :=
  match rows with
  | [] => None
  | (cond, col, st) :: rows' =>
      if cond elapsed && flagMatches col flag then Some st
      else firstRow rows' elapsed flag
  end.

(** ** Paths and reservations *)

Record FileReservation := {
  path : string;
  isDir : bool;
  reason : option string;
  since : string;
}.

Section Paths.
(** [isAbsolute], [resolve], [normalize] and [sep] of [node:path]. *)
Variable isAbsolute : string → bool.
Variable resolve : string → string → string.
Variable normalize : string → string.
Variable sep : string.

Definition normalizeFsPath (inputPath cwd : string) : string :=
  let resolved := if isAbsolute inputPath then inputPath else resolve cwd inputPath in
  let normalized := normalize resolved in
  backslashesToSlashes normalized.

Definition normalizeReservationPath (input cwd : string) : string * bool :=
  let trimmed := trim input in
  let isDir := endsWith trimmed "/" || endsWith trimmed sep in
  let withoutTrailing := stripTrailingSlashes trimmed in
  (normalizeFsPath withoutTrailing cwd, isDir).
End Paths.

Definition reservationMatches (fileAbsPath : string) (reservation : FileReservation) : bool :=
  if bool_decide (fileAbsPath = EmptyString) then false
  else if isDir reservation then
    let prefix := if endsWith (path reservation) "/" then path reservation
                  else path reservation +:+ "/" in
    bool_decide (fileAbsPath = path reservation) || startsWith fileAbsPath prefix
  else bool_decide (fileAbsPath = path reservation).

(** ** Agent names *)

(** The class [[a-zA-Z0-9_]]. *)
Definition isWordChar (c : ascii) : bool :=
  let n := N_of_ascii c in
  bool_decide (48 ≤ n ≤ 57)%N || bool_decide (65 ≤ n ≤ 90)%N ||
  bool_decide (97 ≤ n ≤ 122)%N || bool_decide (n = 95)%N.

(** The class [[a-zA-Z0-9_-]]. *)
Definition isNameChar (c : ascii) : bool :=
  isWordChar c || bool_decide (c = "-"%char).

Fixpoint allChars (f : ascii → bool) (s : string) : bool :=
  match s with
  | EmptyString => true
  | String c s' => f c && allChars f s'
  end.

(** [isValidAgentName]: not empty, at most 50 characters, and a match of
    the pattern: one word character, then word characters and hyphens up
    to the end. *)
Definition isValidAgentName (name : string) : bool :=
  if bool_decide (name = EmptyString) || bool_decide (50 < String.length name)%nat
  then false
  else match name with
       | EmptyString => false
       | String c rest => isWordChar c && allChars isNameChar rest
       end.

(** ** Display of paths *)

Section Display.
(** [isAbsolute] and [relative] of [node:path]; [relative] is [None] when
    it throws. *)
Variable isAbsolute : string → bool.
Variable relative : string → string → option string.

Definition displaySpecPath (absPath cwd : string) : string :=
  match relative cwd absPath with
  | Some rel =>
      if bool_decide (rel = EmptyString) then "."
      else if negb (startsWith rel "..") && negb (isAbsolute rel) then "./" +:+ rel
      else absPath
  | None => absPath
  end.
End Display.

End Lib.

(* ===================================================================== *)
(** * Enumeration order of the runtime *)
(* ===================================================================== *)

(** [Object.entries(o)] (and a directory listing) enumerates a dictionary in
    an order the model leaves open: JavaScript lists integer-like keys first
    and the others in insertion order.  All that is assumed is that the
    enumeration lists exactly the bindings of the dictionary. *)
Class Enumerate := entries : ∀ {A : Type}, gmap string A → list (string * A).

Class EnumerateSpec `{Enumerate} : Prop :=
  elem_of_entries : ∀ (A : Type) (m : gmap string A) (k : string) (v : A),
    (k, v) ∈ entries m ↔ m !! k = Some v.

(** [Object.keys(o)] *)
Definition keys `{Enumerate} {A : Type} (m : gmap string A) : list string :=
  (entries m).*1.

(** ** Property reads and writes on a dictionary

    A dictionary of the program is a plain object ([{}] or the result of
    [JSON.parse]); a finite map holds its own properties, the ones that
    [Object.entries] lists and [JSON.stringify] writes.  A read [o[key]]
    with a key chosen by the caller also finds the members that every
    plain object inherits from [Object.prototype]: those that the
    language defines, the program adding none. *)
Definition objectPrototypeKeys : list string :=
  [ "constructor"; "__defineGetter__"; "__defineSetter__"; "hasOwnProperty";
    "__lookupGetter__"; "__lookupSetter__"; "isPrototypeOf";
    "propertyIsEnumerable"; "toString"; "valueOf"; "__proto__";
    "toLocaleString" ].

Definition inherited (key : string) : bool :=
  bool_decide (key ∈ objectPrototypeKeys).

(** What [o[key]] evaluates to when it is not [undefined]: an own entry, or
    the inherited member of that name (a function, or the prototype object
    itself for [__proto__]); both are truthy. *)
Inductive Found (A : Type) :=
  | Own (entry : A)
  | Member (name : string).
Arguments Own {A} entry.
Arguments Member {A} name.

(** [o[key]]; [None] is [undefined]. *)
Definition getProperty {A : Type} (o : gmap string A) (key : string) : option (Found A) :=
  match o !! key with
  | Some entry => Some (Own entry)
  | None => if inherited key then Some (Member key) else None
  end.

(** [o[key] = value] for a [value] that is an object.  The inherited
    [__proto__] is an accessor: assigning to it replaces the prototype of
    [o] and adds no own property; every other key, and [__proto__] when
    [o] has it as an own property, is stored. *)
Definition setProperty {A : Type} (o : gmap string A) (key : string) (value : A)
    : gmap string A :=
  if bool_decide (key = "__proto__") && bool_decide (o !! key = None) then o
  else <[key := value]> o.

(* ===================================================================== *)
(** * store.ts: swarm coordination *)
(* ===================================================================== *)

Module Swarm.

Record ClaimEntry := {
  agent : string;
  sessionId : string;
  pid : Z;
  claimedAt : string;
  reason : option string;
}.

Record CompletionEntry := {
  completedBy : string;
  completedAt : string;
  notes : option string;
}.

Global Instance ClaimEntry_eq_dec : EqDecision ClaimEntry.
Proof. solve_decision. Defined.

Global Instance CompletionEntry_eq_dec : EqDecision CompletionEntry.
Proof. solve_decision. Defined.

Abbreviation SpecClaims := (gmap string ClaimEntry).
Abbreviation SpecCompletions := (gmap string CompletionEntry).
Abbreviation AllClaims := (gmap string (gmap string ClaimEntry)).
Abbreviation AllCompletions := (gmap string (gmap string CompletionEntry)).

(** The two fields of an [AgentRegistration] that the swarm code reads. *)
Record AgentRegistration := {
  reg_pid : Z;
  reg_sessionId : string;
}.

(** A file [registry/<name>.json] that exists: either [JSON.parse] (or the
    read) throws, or it yields a registration. *)
Inductive RegistryFile :=
  | Corrupt
  | Parsed (reg : AgentRegistration).

(** What the swarm code observes of the machine besides its two files:
    [process.kill(pid, 0)] and the registry directory. *)
Record World := {
  isProcessAlive : Z → bool;
  registry : gmap string RegistryFile;
}.

(** ** The base directory: [claims.json] and [completions.json]

    [None] is a file that is missing or does not parse to an object; the
    journal lists every replacement of a file (write to a temporary name,
    then rename), oldest first. *)
Inductive Write :=
  | WriteClaims (claims : AllClaims)
  | WriteCompletions (completions : AllCompletions).

Record Disk := {
  claimsFile : option AllClaims;
  completionsFile : option AllCompletions;
  journal : list Write;
}.

(** State monad over the base directory. *)
Definition M (A : Type) : Type := Disk → A * Disk.

Global Instance M_ret : MRet M := λ A a d, (a, d).
Global Instance M_bind : MBind M := λ A B f m d, let '(a, d') := m d in f a d'.

Definition when (b : bool) (m : M ()) : M () := if b then m else mret ().

Definition readClaimsSync : M AllClaims :=
  λ d, (default ∅ (claimsFile d), d).

Definition readCompletionsSync : M AllCompletions :=
  λ d, (default ∅ (completionsFile d), d).

Definition writeClaimsSync (claims : AllClaims) : M () :=
  λ d, ((), {| claimsFile := Some claims;
               completionsFile := completionsFile d;
               journal := journal d ++ [WriteClaims claims] |}).

Definition writeCompletionsSync (completions : AllCompletions) : M () :=
  λ d, ((), {| claimsFile := claimsFile d;
               completionsFile := Some completions;
               journal := journal d ++ [WriteCompletions completions] |}).

(** [withSwarmLock(base, fn)]: the retry loop on [swarm.lock] is not
    modelled; a caller that obtains the lock runs [fn] alone, a caller that
    does not (50 failed attempts) throws before [fn] starts. *)
Definition withSwarmLock {T : Type} (fn : M T) : M T := fn.

Definition isClaimStale (w : World) (claim : ClaimEntry) : bool :=
  if negb (isProcessAlive w (pid claim)) then true
  else match registry w !! agent claim with
       | None => true
       | Some Corrupt => true
       | Some (Parsed reg) =>
           if negb (isProcessAlive w (reg_pid reg)) then true
           else if negb (bool_decide (reg_sessionId reg = sessionId claim)) then true
           else false
       end.

(** The entry stored under [(specPath, taskId)]: an own property of the
    mapping of the spec, as [Object.entries] lists it. *)
Definition claimAt (claims : AllClaims) (specPath taskId : string) : option ClaimEntry :=
  claims !! specPath ≫= λ tasks, tasks !! taskId.

Definition completionAt (completions : AllCompletions) (specPath taskId : string)
    : option CompletionEntry :=
  completions !! specPath ≫= λ tasks, tasks !! taskId.

(** [claims[specPath]?.[taskId]].  [specPath] is an absolute path (every
    caller passes the result of [resolveSpecPath]), so [claims[specPath]]
    is an own entry or [undefined]; [taskId] is the string that the caller
    of the tool gives, and the read of the inner mapping also finds the
    members that the mapping inherits. *)
Definition readClaim (claims : AllClaims) (specPath taskId : string)
    : option (Found ClaimEntry) :=
  claims !! specPath ≫= λ tasks, getProperty tasks taskId.

(** [completions[specPath]?.[taskId]] *)
Definition readCompletion (completions : AllCompletions) (specPath taskId : string)
    : option (Found CompletionEntry) :=
  completions !! specPath ≫= λ tasks, getProperty tasks taskId.

(** [claim.agent] for what a read has found; an inherited member has no
    such field ([None] is [undefined]). *)
Definition agentOf (claim : Found ClaimEntry) : option string :=
  match claim with
  | Own entry => Some (agent entry)
  | Member _ => None
  end.

Section Enumerated.
Context `{Enumerate}.

(** Inner loop of [cleanupStaleClaims]: [delete tasks[taskId]] for the
    stale entries of the snapshot [Object.entries(tasks)]. *)
Definition cleanupSpec (w : World) (tasks : SpecClaims) (removed : Z) : SpecClaims * Z :=
  foldl (λ (acc : SpecClaims * Z) (e : string * ClaimEntry),
           if isClaimStale w e.2 then (delete e.1 acc.1, acc.2 + 1) else acc)
        (tasks, removed) (entries tasks).

(** One iteration of the outer loop of [cleanupStaleClaims].  [tasks]
    aliases [claims[spec]], so the deletions of the inner loop are stored
    back before the test on [Object.keys(tasks)]. *)
Definition cleanupStep (w : World) (acc : AllClaims * Z) (e : string * SpecClaims)
    : AllClaims * Z :=
  let '(tasks, removed) := cleanupSpec w e.2 acc.2 in
  let claims := <[e.1 := tasks]> acc.1 in
  if bool_decide (length (keys tasks) = 0%nat)
  then (delete e.1 claims, removed)
  else (claims, removed).

(** [cleanupStaleClaims] mutates [claims] in place and returns the number
    of removed entries; here it returns both. *)
Definition cleanupStaleClaims (w : World) (claims : AllClaims) : AllClaims * Z :=
  foldl (cleanupStep w) (claims, 0) (entries claims).

(** Inner loop of [filterStaleClaims].  The keys copied are those that
    [Object.entries] lists for a mapping of [claims.json]; the operations
    below never store the key [__proto__], the one that an assignment to
    the fresh object would not copy. *)
Definition filterSpec (w : World) (tasks : SpecClaims) : SpecClaims :=
  foldl (λ (filteredTasks : SpecClaims) (e : string * ClaimEntry),
           if negb (isClaimStale w e.2) then <[e.1 := e.2]> filteredTasks
           else filteredTasks)
        ∅ (entries tasks).

Definition filterStaleClaims (w : World) (claims : AllClaims) : AllClaims :=
  foldl (λ (filtered : AllClaims) (e : string * SpecClaims),
           let filteredTasks := filterSpec w e.2 in
           if bool_decide (0 < length (keys filteredTasks))%nat
           then <[e.1 := filteredTasks]> filtered
           else filtered)
        ∅ (entries claims).

Fixpoint findInTasks (agentName spec : string) (l : list (string * ClaimEntry))
    : option (string * string) :=
  match l with
  | [] => None
  | (taskId, claim) :: l' =>
      if bool_decide (agent claim = agentName) then Some (spec, taskId)
      else findInTasks agentName spec l'
  end.

Fixpoint findInSpecs (agentName : string) (l : list (string * SpecClaims))
    : option (string * string) :=
  match l with
  | [] => None
  | (spec, tasks) :: l' =>
      match findInTasks agentName spec (entries tasks) with
      | Some found => Some found
      | None => findInSpecs agentName l'
      end
  end.

Definition findAgentClaim (claims : AllClaims) (agentName : string)
    : option (string * string) :=
  findInSpecs agentName (entries claims).

Definition getClaims (w : World) : M AllClaims :=
  claims ← readClaimsSync;
  mret (filterStaleClaims w claims).

Definition getCompletions : M AllCompletions := readCompletionsSync.

Inductive ClaimResult :=
  | ClaimSuccess (claimedAt : string)
  | AlreadyClaimed (conflict : Found ClaimEntry)
  | AlreadyHaveClaim (existing : string * string).

(** [now] is [new Date().toISOString()]. *)
Definition claimTask (w : World) (now : string)
    (specPath taskId agentName session : string) (processId : Z)
    (why : option string) : M ClaimResult :=
  withSwarmLock (
    claims0 ← readClaimsSync;
    let '(claims, removed) := cleanupStaleClaims w claims0 in
    match findAgentClaim claims agentName with
    | Some existing =>
        when (bool_decide (removed > 0)) (writeClaimsSync claims);;
        mret (AlreadyHaveClaim existing)
    | None =>
        match readClaim claims specPath taskId with
        | Some existingClaim =>
            when (bool_decide (removed > 0)) (writeClaimsSync claims);;
            mret (AlreadyClaimed existingClaim)
        | None =>
            let claims1 :=
              match claims !! specPath with
              | None => <[specPath := ∅]> claims
              | Some _ => claims
              end in
            let newClaim := {| agent := agentName; sessionId := session;
                               pid := processId; claimedAt := now;
                               reason := why |} in
            let claims2 :=
              <[specPath := setProperty (default ∅ (claims1 !! specPath)) taskId newClaim]>
                claims1 in
            writeClaimsSync claims2;;
            mret (ClaimSuccess (claimedAt newClaim))
        end
    end).

Inductive UnclaimResult :=
  | UnclaimSuccess
  | UnclaimNotClaimed
  | UnclaimNotYourClaim (claimedBy : option string).

(** [delete claims[specPath][taskId]], then drop the spec when it has no
    key left.  Both callers reach it after [claim.agent] was the name of
    the caller, that is for an own entry. *)
Definition removeClaim (claims : AllClaims) (specPath taskId : string) : AllClaims :=
  let tasks := delete taskId (default ∅ (claims !! specPath)) in
  let claims1 := <[specPath := tasks]> claims in
  if bool_decide (length (keys tasks) = 0%nat) then delete specPath claims1
  else claims1.

Definition unclaimTask (w : World) (specPath taskId agentName : string)
    : M UnclaimResult :=
  withSwarmLock (
    claims0 ← readClaimsSync;
    let '(claims, removed) := cleanupStaleClaims w claims0 in
    match readClaim claims specPath taskId with
    | None =>
        when (bool_decide (removed > 0)) (writeClaimsSync claims);;
        mret UnclaimNotClaimed
    | Some claim =>
        if negb (bool_decide (agentOf claim = Some agentName)) then
          when (bool_decide (removed > 0)) (writeClaimsSync claims);;
          mret (UnclaimNotYourClaim (agentOf claim))
        else
          writeClaimsSync (removeClaim claims specPath taskId);;
          mret UnclaimSuccess
    end).

Inductive CompleteResult :=
  | CompleteSuccess (completedAt : string)
  | CompleteNotClaimed
  | CompleteNotYourClaim (claimedBy : option string)
  | AlreadyCompleted (completion : Found CompletionEntry).

Definition completeTask (w : World) (now : string)
    (specPath taskId agentName : string) (remark : option string)
    : M CompleteResult :=
  withSwarmLock (
    claims0 ← readClaimsSync;
    completions ← readCompletionsSync;
    let '(claims, removed) := cleanupStaleClaims w claims0 in
    match readCompletion completions specPath taskId with
    | Some existingCompletion =>
        when (bool_decide (removed > 0)) (writeClaimsSync claims);;
        mret (AlreadyCompleted existingCompletion)
    | None =>
        match readClaim claims specPath taskId with
        | None =>
            when (bool_decide (removed > 0)) (writeClaimsSync claims);;
            mret CompleteNotClaimed
        | Some claim =>
            if negb (bool_decide (agentOf claim = Some agentName)) then
              when (bool_decide (removed > 0)) (writeClaimsSync claims);;
              mret (CompleteNotYourClaim (agentOf claim))
            else
              let claims1 := removeClaim claims specPath taskId in
              let completions1 :=
                match completions !! specPath with
                | None => <[specPath := ∅]> completions
                | Some _ => completions
                end in
              let completion := {| completedBy := agentName; completedAt := now;
                                   notes := remark |} in
              let completions2 :=
                <[specPath := setProperty (default ∅ (completions1 !! specPath))
                                taskId completion]> completions1 in
              writeCompletionsSync completions2;;
              writeClaimsSync claims1;;
              mret (CompleteSuccess (completedAt completion))
        end
    end).

Definition getClaimsForSpec (w : World) (specPath : string) : M SpecClaims :=
  claims ← getClaims w;
  mret (default ∅ (claims !! specPath)).

Definition getCompletionsForSpec (specPath : string) : M SpecCompletions :=
  completions ← getCompletions;
  mret (default ∅ (completions !! specPath)).

Fixpoint currentInTasks (agentName spec : string) (l : list (string * ClaimEntry))
    : option (string * string * option string) :=
  match l with
  | [] => None
  | (taskId, claim) :: l' =>
      if bool_decide (agent claim = agentName) then Some (spec, taskId, reason claim)
      else currentInTasks agentName spec l'
  end.

Fixpoint currentInSpecs (agentName : string) (l : list (string * SpecClaims))
    : option (string * string * option string) :=
  match l with
  | [] => None
  | (spec, tasks) :: l' =>
      match currentInTasks agentName spec (entries tasks) with
      | Some found => Some found
      | None => currentInSpecs agentName l'
      end
  end.

(** [getAgentCurrentClaim]: the (spec, task id, reason) of the first claim
    of the agent among the claims that [getClaims] returns. *)
Definition getAgentCurrentClaim (w : World) (agentName : string)
    : M (option (string * string * option string)) :=
  claims ← getClaims w;
  mret (currentInSpecs agentName (entries claims)).

End Enumerated.

End Swarm.

(* ===================================================================== *)
(** * crew/store.ts, crew/state.ts, crew/handlers, index.ts *)
(* ===================================================================== *)

Module Crew.

(** ** crew/types.ts *)

Inductive TaskStatus := todo | in_progress | done | blocked.

Global Instance TaskStatus_eq_dec : EqDecision TaskStatus.
Proof. solve_decision. Defined.

Record TaskEvidence := {
  commits : option (list string);
  tests : option (list string);
  prs : option (list string);
}.

Inductive ReviewVerdict := SHIP | NEEDS_WORK | MAJOR_RETHINK.

Record ReviewFeedback := {
  verdict : ReviewVerdict;
  review_summary : string;
  issues : list string;
  suggestions : list string;
  reviewed_at : string;
}.

Record Task := {
  id : string;
  title : string;
  status : TaskStatus;
  depends_on : list string;
  created_at : string;
  updated_at : string;
  started_at : option string;
  completed_at : option string;
  base_commit : option string;
  assigned_to : option string;
  summary : option string;
  evidence : option TaskEvidence;
  blocked_reason : option string;
  attempt_count : Z;
  last_review : option ReviewFeedback;
}.

Record Plan := {
  prd : string;
  plan_created_at : string;
  plan_updated_at : string;
  task_count : Z;
  completed_count : Z;
}.

(** The fields of an [AgentResult] that the work handler reads. *)
Record AgentResult := {
  exitCode : Z;
  error : option string;
}.

(** ** The project directory [<cwd>/.pi/messenger/crew]

    [planJson] is [plan.json]; [taskJson] maps [N] to the parsed content of
    [tasks/N.json] (files that do not parse are skipped by every reader);
    [blockMd] maps [N] to the text of [blocks/N.md]. *)
Record CrewDir := {
  planJson : option Plan;
  taskJson : gmap string Task;
  blockMd : gmap string string;
}.

(** [Array.prototype.sort] with the comparator of [getTasks] (numeric
    suffix of the id): some rearrangement of its argument. *)
Class TaskSort := sortTasks : list Task → list Task.


Definition nl : string := String (ascii_of_nat 10) EmptyString.

(** ** crew/store.ts *)

Definition getPlan (d : CrewDir) : option Plan := planJson d.

(** [updatePlan(cwd, { completed_count })] *)
Definition updatePlanCompleted (now : string) (d : CrewDir) (n : Z) : option Plan * CrewDir :=
  match getPlan d with
  | None => (None, d)
  | Some plan =>
      let updated := {| prd := prd plan; plan_created_at := plan_created_at plan;
                        plan_updated_at := now; task_count := task_count plan;
                        completed_count := n |} in
      (Some updated, {| planJson := Some updated; taskJson := taskJson d;
                        blockMd := blockMd d |})
  end.

(** [getTask] reads [path.join(tasksDir, taskId + ".json")].  For a task
    id that is one file name (no path separator, no dot segment: the ids
    that [allocateTaskId] makes, and every name that a listing of the
    directory gives) this is the file that the key [taskId] of [taskJson]
    stands for; the properties of the calls that take a task id from
    their caller are stated for such ids. *)
Definition getTask (d : CrewDir) (taskId : string) : option Task := taskJson d !! taskId.

(** [updateTask]: [updates] is the effect of spreading the partial record
    over the stored task; [updated_at] is set last. *)
Definition updateTask (now : string) (d : CrewDir) (taskId : string)
    (updates : Task → Task) : option Task * CrewDir :=
  match getTask d taskId with
  | None => (None, d)
  | Some task =>
      let u := updates task in
      let updated :=
        {| id := id u; title := title u; status := status u;
           depends_on := depends_on u; created_at := created_at u;
           updated_at := now; started_at := started_at u;
           completed_at := completed_at u; base_commit := base_commit u;
           assigned_to := assigned_to u; summary := summary u;
           evidence := evidence u; blocked_reason := blocked_reason u;
           attempt_count := attempt_count u; last_review := last_review u |} in
      (Some updated, {| planJson := planJson d;
                        taskJson := <[taskId := updated]> (taskJson d);
                        blockMd := blockMd d |})
  end.

Section Store.
Context `{Enumerate} `{TaskSort}.

Definition getTasks (d : CrewDir) : list Task :=
  sortTasks (entries (taskJson d)).*2.

(** [gitHead] is the trimmed output of [git rev-parse HEAD], [None] when
    the command fails. *)
Definition startTask (now : string) (gitHead : option string) (d : CrewDir)
    (taskId agentName : string) : option Task * CrewDir :=
  match getTask d taskId with
  | None => (None, d)
  | Some task =>
      if negb (bool_decide (status task = todo)) then (None, d)
      else updateTask now d taskId (λ t,
        {| id := id t; title := title t; status := in_progress;
           depends_on := depends_on t; created_at := created_at t;
           updated_at := updated_at t; started_at := Some now;
           completed_at := completed_at t; base_commit := gitHead;
           assigned_to := Some agentName; summary := summary t;
           evidence := evidence t; blocked_reason := blocked_reason t;
           attempt_count := attempt_count task + 1;
           last_review := last_review t |})
  end.

Definition completeTask (now : string) (d : CrewDir) (taskId : string)
    (done_summary : string) (done_evidence : option TaskEvidence)
    : option Task * CrewDir :=
  match getTask d taskId with
  | None => (None, d)
  | Some task =>
      if negb (bool_decide (status task = in_progress)) then (None, d)
      else
        let '(updated, d1) := updateTask now d taskId (λ t,
          {| id := id t; title := title t; status := done;
             depends_on := depends_on t; created_at := created_at t;
             updated_at := updated_at t; started_at := started_at t;
             completed_at := Some now; base_commit := base_commit t;
             assigned_to := None; summary := Some done_summary;
             evidence := done_evidence; blocked_reason := blocked_reason t;
             attempt_count := attempt_count t;
             last_review := last_review t |}) in
        match updated, getPlan d1 with
        | Some _, Some plan =>
            (updated, (updatePlanCompleted now d1 (completed_count plan + 1)).2)
        | _, _ => (updated, d1)
        end
  end.

Definition blockTask (now : string) (d : CrewDir) (taskId why : string)
    : option Task * CrewDir :=
  match getTask d taskId with
  | None => (None, d)
  | Some task =>
      let text := "# Blocked: " +:+ title task +:+ nl +:+ nl +:+
                  "**Reason:** " +:+ why +:+ nl +:+ nl +:+
                  "**Blocked at:** " +:+ now +:+ nl in
      let d1 := {| planJson := planJson d; taskJson := taskJson d;
                   blockMd := <[taskId := text]> (blockMd d) |} in
      updateTask now d1 taskId (λ t,
        {| id := id t; title := title t; status := blocked;
           depends_on := depends_on t; created_at := created_at t;
           updated_at := updated_at t; started_at := started_at t;
           completed_at := completed_at t; base_commit := base_commit t;
           assigned_to := None; summary := summary t;
           evidence := evidence t; blocked_reason := Some why;
           attempt_count := attempt_count t;
           last_review := last_review t |})
  end.


(** [getReadyTasks]; [doneIds] is the [Set] of the ids of the done tasks. *)
Definition getReadyTasks (d : CrewDir) : list Task :=
  let tasks := getTasks d in
  let doneIds : gset string :=
    list_to_set (id <$> filter (λ t, status t = done) tasks) in
  filter (λ task, status task = todo ∧
                  Forall (λ depId, depId ∈ doneIds) (depends_on task)) tasks.
End Store.

(** ** crew/handlers/task.ts: [task.block] *)

(** The [details] of the result of [task.block]; the [text] is a rendering
    of the same data. *)
Inductive TaskBlockDetails :=
  | BlockError (error_code : string) (error_id : option string)
  | BlockDone (blocked_id blocked_title : string) (blocked_status : TaskStatus)
              (reason_recorded : option string).

(** [!s] for an optional string parameter: absent or empty. *)
Definition falsy (s : option string) : bool :=
  match s with
  | None => true
  | Some v => bool_decide (v = EmptyString)
  end.

Section TaskHandlers.
Context `{Enumerate} `{TaskSort}.

Definition taskBlock (now : string) (d : CrewDir)
    (param_id param_reason : option string) : TaskBlockDetails * CrewDir :=
  if falsy param_id then (BlockError "missing_id" None, d)
  else if falsy param_reason then (BlockError "missing_reason" None, d)
  else
    let taskId := default EmptyString param_id in
    let why := default EmptyString param_reason in
    match getTask d taskId with
    | None => (BlockError "not_found" (Some taskId), d)
    | Some _ =>
        match blockTask now d taskId why with
        | (None, d1) => (BlockError "block_failed" (Some taskId), d1)
        | (Some b, d1) =>
            (BlockDone (id b) (title b) (status b) (blocked_reason b), d1)
        end
    end.
End TaskHandlers.

(** ** crew/state.ts *)

Inductive StopReason := StopCompleted | StopBlocked | StopManual.

Global Instance StopReason_eq_dec : EqDecision StopReason.
Proof. solve_decision. Defined.

(** Fields [waveNumber], [succeeded], [failed], [blocked] of the source
    carry the prefix [wave_] here. *)
Record WaveResult := {
  wave_waveNumber : Z;
  tasksAttempted : list string;
  wave_succeeded : list string;
  wave_failed : list string;
  wave_blocked : list string;
  timestamp : string;
}.

Record AutonomousState := {
  active : bool;
  cwd : option string;
  waveNumber : Z;
  attemptsPerTask : gmap string Z;
  waveHistory : list WaveResult;
  startedAt : option string;
  stoppedAt : option string;
  stopReason : option StopReason;
}.

(** The module-level [autonomousState] object, initially. *)
Definition initialAutonomousState : AutonomousState :=
  {| active := false; cwd := None; waveNumber := 0; attemptsPerTask := ∅;
     waveHistory := []; startedAt := None; stoppedAt := None;
     stopReason := None |}.

Definition startAutonomous (now : string) (dir : string) (_ : AutonomousState)
    : AutonomousState :=
  {| active := true; cwd := Some dir; waveNumber := 1; attemptsPerTask := ∅;
     waveHistory := []; startedAt := Some now; stoppedAt := None;
     stopReason := None |}.

Definition stopAutonomous (now : string) (why : StopReason) (s : AutonomousState)
    : AutonomousState :=
  {| active := false; cwd := cwd s; waveNumber := waveNumber s;
     attemptsPerTask := attemptsPerTask s; waveHistory := waveHistory s;
     startedAt := startedAt s; stoppedAt := Some now;
     stopReason := Some why |}.

Definition addWaveResult (r : WaveResult) (s : AutonomousState) : AutonomousState :=
  {| active := active s; cwd := cwd s; waveNumber := waveNumber s + 1;
     attemptsPerTask := attemptsPerTask s;
     waveHistory := waveHistory s ++ [r];
     startedAt := startedAt s; stoppedAt := stoppedAt s;
     stopReason := stopReason s |}.

(** ** crew/handlers/work.ts *)

(** Session entries written with [appendEntry(type, data)]; a
    ["crew-state"] entry holds the autonomous state as it is when the entry
    is appended. *)
Inductive Entry :=
  | CrewState (s : AutonomousState)
  | CrewWaveComplete (e_prd : string) (totalWaves : Z) (totalTasks : nat)
  | CrewWaveBlocked (e_prd : string) (blockedTasks : list string)
  | CrewWaveContinue (e_prd : string) (nextWave : Z) (readyTasks : list string).

Record WorkParams := {
  autonomous : bool;
  concurrencyOverride : option Z;
}.

(** Why [work] found nothing to run. *)
Inductive IdleReason :=
  | AllTasksDone
  | TasksInProgress
  | TasksBlocked
  | UnmetDependencies.

Inductive WorkDetails :=
  | WorkNoPlan
  | WorkNoWorker
  | WorkNoReady (why : IdleReason) (inProgressIds blockedIds : list string)
  | WorkWave (wave : Z) (attempted succeeded failed blockedIds nextReady : list string)
             (was_autonomous : bool).

(** [a.slice(0, n)] for an integer [n]. *)
Definition slice0 {A : Type} (l : list A) (n : Z) : list A :=
  if bool_decide (n < 0) then take (Z.to_nat (Z.of_nat (length l) + n)) l
  else take (Z.to_nat n) l.

Record WaveLists := {
  succeeded : list string;
  failed : list string;
  blockedIds : list string;
}.

Section Work.
Context `{Enumerate} `{TaskSort}.

(** The children of one wave: given the tasks handed to them, the
    concurrency and the project directory at spawn time, the results they
    return and the directory they leave behind. *)
Variable spawnAgents : list Task → Z → CrewDir → list AgentResult * CrewDir.

(** The loop over [workerResults]; [tasksToRun[i]] is paired with
    [workerResults[i]]. *)
Fixpoint processResults (now : string) (auto : bool)
    (pairs : list (AgentResult * Task)) (d : CrewDir) (acc : WaveLists)
    : WaveLists * CrewDir :=
  match pairs with
  | [] => (acc, d)
  | (r, t) :: rest =>
      let taskId := id t in
      let task := getTask d taskId in
      if bool_decide (exitCode r = 0) then
        if bool_decide (status <$> task = Some done) then
          processResults now auto rest d
            {| succeeded := succeeded acc ++ [taskId]; failed := failed acc;
               blockedIds := blockedIds acc |}
        else if bool_decide (status <$> task = Some blocked) then
          processResults now auto rest d
            {| succeeded := succeeded acc; failed := failed acc;
               blockedIds := blockedIds acc ++ [taskId] |}
        else
          processResults now auto rest d
            {| succeeded := succeeded acc; failed := failed acc ++ [taskId];
               blockedIds := blockedIds acc |}
      else if auto && bool_decide (status <$> task = Some in_progress) then
        let d1 := (blockTask now d taskId
                     ("Worker failed: " +:+ default "Unknown error" (error r))).2 in
        processResults now auto rest d1
          {| succeeded := succeeded acc; failed := failed acc;
             blockedIds := blockedIds acc ++ [taskId] |}
      else
        processResults now auto rest d
          {| succeeded := succeeded acc; failed := failed acc ++ [taskId];
             blockedIds := blockedIds acc |}
  end.

(** The part of [execute] after the results are classified (the block
    [if (autonomous) { addWaveResult ... }]): the new autonomous state and
    the session entries appended. *)
Definition waveEpilogue (now : string) (plan : Plan) (d : CrewDir)
    (currentWave : Z) (tasksToRun : list Task) (lists : WaveLists)
    (s : AutonomousState) : AutonomousState * list Entry :=
  let s1 := addWaveResult
    {| wave_waveNumber := currentWave; tasksAttempted := id <$> tasksToRun;
       wave_succeeded := succeeded lists; wave_failed := failed lists;
       wave_blocked := blockedIds lists; timestamp := now |} s in
  let nextReady := getReadyTasks d in
  let allTasks := getTasks d in
  let allDone := forallb (λ t, bool_decide (status t = done)) allTasks in
  let allBlockedOrDone :=
    forallb (λ t, bool_decide (status t = done) || bool_decide (status t = blocked))
            allTasks in
  if allDone then
    let s2 := stopAutonomous now StopCompleted s1 in
    (s2, [CrewState s2; CrewWaveComplete (prd plan) currentWave (length allTasks)])
  else if allBlockedOrDone || bool_decide (length nextReady = 0%nat) then
    let s2 := stopAutonomous now StopBlocked s1 in
    (s2, [CrewState s2;
          CrewWaveBlocked (prd plan)
            (id <$> filter (λ t, status t = blocked) allTasks)])
  else
    (s1, [CrewState s1;
          CrewWaveContinue (prd plan) (waveNumber s1) (id <$> nextReady)]).

(** [execute] of the work handler.  [dir] is [ctx.cwd ?? process.cwd()],
    [d] the crew directory under it, [hasWorker] whether the
    [crew-worker] agent is discovered, [configWorkers] the configured
    [concurrency.workers]. *)
Definition execute (now : string) (params : WorkParams) (dir : string)
    (hasWorker : bool) (configWorkers : Z) (d : CrewDir) (s : AutonomousState)
    : WorkDetails * CrewDir * AutonomousState * list Entry :=
  match getPlan d with
  | None => (WorkNoPlan, d, s, [])
  | Some plan =>
    if negb hasWorker then (WorkNoWorker, d, s, [])
    else
      let readyTasks := getReadyTasks d in
      if bool_decide (length readyTasks = 0%nat) then
        let tasks := getTasks d in
        let inProgress := filter (λ t, status t = in_progress) tasks in
        let blockedTasks := filter (λ t, status t = blocked) tasks in
        let doneTasks := filter (λ t, status t = done) tasks in
        let why :=
          if bool_decide (length doneTasks = length tasks) then AllTasksDone
          else if bool_decide (0 < length inProgress)%nat then TasksInProgress
          else if bool_decide (0 < length blockedTasks)%nat then TasksBlocked
          else UnmetDependencies in
        (WorkNoReady why (id <$> inProgress) (id <$> blockedTasks), d, s, [])
      else
        let concurrency := default configWorkers (concurrencyOverride params) in
        let tasksToRun := slice0 readyTasks concurrency in
        let '(s1, log1) :=
          if autonomous params &&
             (negb (active s) || negb (bool_decide (cwd s = Some dir)))
          then let s' := startAutonomous now dir s in (s', [CrewState s'])
          else (s, []) in
        let '(workerResults, d1) := spawnAgents tasksToRun concurrency d in
        let '(lists, d2) :=
          processResults now (autonomous params) (zip workerResults tasksToRun) d1
            {| succeeded := []; failed := []; blockedIds := [] |} in
        let currentWave := if autonomous params then waveNumber s1 else 1 in
        let '(s2, log2) :=
          if autonomous params
          then waveEpilogue now plan d2 currentWave tasksToRun lists s1
          else (s1, []) in
        let nextReady := getReadyTasks d2 in
        (WorkWave currentWave (id <$> tasksToRun) (succeeded lists) (failed lists)
                  (blockedIds lists) (id <$> nextReady) (autonomous params),
         d2, s2, log1 ++ log2)
  end.
End Work.

(** ** index.ts: the [agent_end] hook *)

Inductive HostEffect :=
  | NotifyMaxWaves (limit : Z)
  | NotifyAllComplete
  | NotifyBlocked (count : nat)
  | SteerContinue (wave : Z) (ready : nat).

Section AgentEnd.
Context `{Enumerate} `{TaskSort}.

(** [maxWaves] is [crewConfig.work.maxWaves], [hasUI] is [ctx.hasUI], [d]
    the crew directory of [autonomousState.cwd ?? ctx.cwd ?? process.cwd()]. *)
Definition onAgentEnd (now : string) (maxWaves : Z) (hasUI : bool)
    (d : CrewDir) (s : AutonomousState) : AutonomousState * list HostEffect :=
  if negb (active s) then (s, [])
  else if bool_decide (waveNumber s >= maxWaves) then
    (stopAutonomous now StopManual s,
     if hasUI then [NotifyMaxWaves maxWaves] else [])
  else
    let readyTasks := getReadyTasks d in
    if bool_decide (length readyTasks = 0%nat) then
      let allTasks := getTasks d in
      let allDone := forallb (λ t, bool_decide (status t = done)) allTasks in
      (stopAutonomous now (if allDone then StopCompleted else StopBlocked) s,
       if hasUI then
         if allDone then [NotifyAllComplete]
         else [NotifyBlocked (length (filter (λ t, status t = blocked) allTasks))]
       else [])
    else
      (s, [SteerContinue (waveNumber s) (length readyTasks)]).
End AgentEnd.

(** ** crew/id-allocator.ts and [createTask] *)








Section Creation.
Context `{Enumerate}.




End Creation.

(** ** crew/handlers/task.ts: [task.start] *)


Section TaskStart.
Context `{Enumerate} `{TaskSort}.


End TaskStart.

(** ** crew/store.ts: [resetTask] *)



Section Reset.
Context `{Enumerate} `{TaskSort}.


End Reset.

(** ** crew/state.ts: restoration *)

(** [Partial<AutonomousState>]: a field is [None] when its key is absent
    (or [undefined]); the nullable fields keep their own [option] inside. *)
Record PartialAutonomousState := {
  data_active : option bool;
  data_cwd : option (option string);
  data_waveNumber : option Z;
  data_attemptsPerTask : option (gmap string Z);
  data_waveHistory : option (list WaveResult);
  data_startedAt : option (option string);
  data_stoppedAt : option (option string);
  data_stopReason : option (option StopReason);
}.

Definition restoreAutonomousState (data : PartialAutonomousState) (s : AutonomousState)
    : AutonomousState :=
  {| active := default (active s) (data_active data);
     cwd := default (cwd s) (data_cwd data);
     waveNumber := default (waveNumber s) (data_waveNumber data);
     attemptsPerTask := default (attemptsPerTask s) (data_attemptsPerTask data);
     waveHistory := default (waveHistory s) (data_waveHistory data);
     startedAt := default (startedAt s) (data_startedAt data);
     stoppedAt := default (stoppedAt s) (data_stoppedAt data);
     stopReason := default (stopReason s) (data_stopReason data) |}.

(** ** index.ts: the [session_start] hook

    The data of a [crew-state] entry: the state object as [appendEntry]
    receives it, every field present ([null] is not [undefined]). *)
Definition entryData (s : AutonomousState) : PartialAutonomousState :=
  {| data_active := Some (active s); data_cwd := Some (cwd s);
     data_waveNumber := Some (waveNumber s);
     data_attemptsPerTask := Some (attemptsPerTask s);
     data_waveHistory := Some (waveHistory s);
     data_startedAt := Some (startedAt s); data_stoppedAt := Some (stoppedAt s);
     data_stopReason := Some (stopReason s) |}.

(** The loop of the hook over the session entries: every [crew-state]
    entry is restored in turn, the other entries are skipped. *)
Definition restoreFromSession (entries : list Entry) (s : AutonomousState)
    : AutonomousState :=
  foldl (λ (s : AutonomousState) (entry : Entry),
           match entry with
           | CrewState saved => restoreAutonomousState (entryData saved) s
           | _ => s
           end) s entries.
End Crew.


(* ===================================================================== *)
(** * store.ts: names in the registry *)
(* ===================================================================== *)

Module Registry.
Import Swarm.

(** The loop [for (i = 2; i <= 99; i++)] of [findAvailableName], over the
    values of [i] still to try. *)
Fixpoint findAlternative (w : World) (baseName : string) (candidates : list nat)
    : option string :=
  match candidates with
  | [] => None
  | i :: rest =>
      let altName := baseName +:+ pretty i in
      match registry w !! altName with
      | None => Some altName
      | Some Corrupt => Some altName
      | Some (Parsed altReg) =>
          if negb (isProcessAlive w (reg_pid altReg)) then Some altName
          else findAlternative w baseName rest
      end
  end.

(** [findAvailableName]; [processPid] is [process.pid]. *)
Definition findAvailableName (w : World) (processPid : Z) (baseName : string)
    : option string :=
  match registry w !! baseName with
  | None => Some baseName
  | Some Corrupt => Some baseName
  | Some (Parsed existing) =>
      if negb (isProcessAlive w (reg_pid existing)) ||
         bool_decide (reg_pid existing = processPid)
      then Some baseName
      else findAlternative w baseName (seq 2 98)
  end.






End Registry.

(* ===================================================================== *)
(** * Reservations: handlers of lib.ts, enforcement of store.ts and index.ts *)
(* ===================================================================== *)

Module Reservations.
Import Lib.

(** The fields of [MessengerState] that the reservation handlers use. *)
Record HandlerState := {
  registered : bool;
  agentName : string;
  reservations : list FileReservation;
}.

(** Calls of [logFeedEvent] made by the handlers. *)
Inductive FeedEvent :=
  | ReserveEvent (who target : string) (why : option string)
  | ReleaseEvent (who target : string).

Inductive ReserveDetails :=
  | ReserveNotRegistered
  | ReserveEmptyPatterns
  | Reserved (paths : list string) (why : option string).

Inductive ReleaseDetails :=
  | ReleaseNotRegistered
  | Released (released : list string).

(** The parameter [release]: [true] or a list of paths. *)
Inductive ReleaseParam :=
  | ReleaseAll
  | ReleasePaths (inputs : list string).

(** The fields of a peer's [AgentRegistration] that enforcement reads. *)
Record Peer := {
  name : string;
  peer_cwd : string;
  gitBranch : option string;
  peer_reservations : option (list FileReservation);
}.

Record ReservationConflict := {
  conflict_path : string;
  conflict_agent : string;
  reservationPath : string;
  conflict_isDir : bool;
  conflict_reason : option string;
  registration : Peer;
}.

Definition quote : string := String (ascii_of_nat 34) EmptyString.
Definition newline : string := String (ascii_of_nat 10) EmptyString.

(** [lines.join] with a newline. *)
Fixpoint joinLines (lines : list string) : string :=
  match lines with
  | [] => EmptyString
  | [line] => line
  | line :: rest => line +:+ newline +:+ joinLines rest
  end.

(** [r.path === norm.path && r.isDir === norm.isDir] *)
Definition sameEntry (r : FileReservation) (norm : string * bool) : Prop :=
  path r = norm.1 ∧ isDir r = norm.2.

Global Instance sameEntry_dec r norm : Decision (sameEntry r norm).
Proof. unfold sameEntry. apply _. Defined.

Section Handlers.
Variable isAbsolute : string → bool.
Variable resolve : string → string → string.
Variable normalize : string → string.
Variable sep : string.
Variable relative : string → string → option string.
Variable basename : string → string.

Definition displayOf (dir : string) (p : string) (dirFlag : bool) : string :=
  displaySpecPath isAbsolute relative p dir +:+ (if dirFlag then "/" else EmptyString).

(** One iteration of the loop of [executeReserve] over [patterns]: the
    reservations, the displayed paths and the feed events so far. *)
Definition reserveOne (now dir who : string) (why : option string)
    (acc : list FileReservation * list string * list FeedEvent) (input : string)
    : list FileReservation * list string * list FeedEvent :=
  let norm := normalizeReservationPath isAbsolute resolve normalize sep input dir in
  let kept := filter (λ r, ¬ sameEntry r norm) acc.1.1 in
  let pushed := kept ++ [{| path := norm.1; isDir := norm.2; reason := why; since := now |}] in
  let disp := displayOf dir norm.1 norm.2 in
  (pushed, acc.1.2 ++ [disp], acc.2 ++ [ReserveEvent who disp why]).

(** [executeReserve]; [dir] is [ctx.cwd ?? process.cwd()].  The call of
    [store.updateRegistration] that publishes the new state is left out. *)
Definition executeReserve (now dir : string) (state : HandlerState)
    (patterns : list string) (why : option string)
    : ReserveDetails * HandlerState * list FeedEvent :=
  if negb (registered state) then (ReserveNotRegistered, state, [])
  else if bool_decide (length patterns = 0%nat) then (ReserveEmptyPatterns, state, [])
  else
    let '(rs, shown, events) :=
      foldl (reserveOne now dir (agentName state) why)
            (reservations state, [], []) patterns in
    (Reserved shown why,
     {| registered := registered state; agentName := agentName state;
        reservations := rs |},
     events).

Definition executeRelease (dir : string) (state : HandlerState) (release : ReleaseParam)
    : ReleaseDetails * HandlerState * list FeedEvent :=
  if negb (registered state) then (ReleaseNotRegistered, state, [])
  else
    match release with
    | ReleaseAll =>
        let released := (λ r, displayOf dir (path r) (isDir r)) <$> reservations state in
        (Released released,
         {| registered := registered state; agentName := agentName state;
            reservations := [] |},
         ReleaseEvent (agentName state) <$> released)
    | ReleasePaths inputs =>
        let normalized :=
          (λ p, normalizeReservationPath isAbsolute resolve normalize sep p dir) <$> inputs in
        let matched := λ r : FileReservation, Exists (sameEntry r) normalized in
        let released :=
          (λ r, displayOf dir (path r) (isDir r)) <$> filter matched (reservations state) in
        (Released released,
         {| registered := registered state; agentName := agentName state;
            reservations := filter (λ r, ¬ matched r) (reservations state) |},
         ReleaseEvent (agentName state) <$> released)
    end.

(** [getConflictsWithOtherAgents]; [agents] is what [getActiveAgents]
    returns (the live peers, the caller excluded), [processCwd] is
    [process.cwd()]. *)
Definition getConflictsWithOtherAgents (filePath : string) (agents : list Peer)
    (processCwd : string) : list ReservationConflict :=
  let fileAbs := normalizeFsPath isAbsolute resolve normalize filePath processCwd in
  agent ← agents;
  match peer_reservations agent with
  | None => []
  | Some rs =>
      res ← rs;
      if reservationMatches fileAbs res
      then [{| conflict_path := fileAbs; conflict_agent := name agent;
               reservationPath := path res; conflict_isDir := isDir res;
               conflict_reason := reason res; registration := agent |}]
      else []
  end.

(** [extractFolder] *)
Definition extractFolder (dir : string) : string :=
  if bool_decide (basename dir = EmptyString) then dir else basename dir.

(** The [tool_call] hook of [index.ts]: [None] lets the call through,
    [Some reason] blocks it.  [inputPath] is [event.input.path]. *)
Definition onToolCall (toolName : string) (inputPath : option string)
    (agents : list Peer) (processCwd : string) : option string :=
  if negb (bool_decide (toolName = "edit") || bool_decide (toolName = "write")) then None
  else
    match inputPath with
    | None => None
    | Some p =>
        if bool_decide (p = EmptyString) then None
        else
          match getConflictsWithOtherAgents p agents processCwd with
          | [] => None
          | c :: _ =>
              let folder := extractFolder (peer_cwd (registration c)) in
              let locationPart :=
                match gitBranch (registration c) with
                | Some branch =>
                    if bool_decide (branch = EmptyString)
                    then " (in " +:+ folder +:+ ")"
                    else " (in " +:+ folder +:+ " on " +:+ branch +:+ ")"
                | None => " (in " +:+ folder +:+ ")"
                end in
              let lines :=
                [p; "Reserved by: " +:+ conflict_agent c +:+ locationPart] ++
                match conflict_reason c with
                | Some why =>
                    if bool_decide (why = EmptyString) then []
                    else ["Reason: " +:+ quote +:+ why +:+ quote]
                | None => []
                end ++
                [EmptyString;
                 "Coordinate via pi_messenger({ to: " +:+ quote +:+ conflict_agent c +:+
                 quote +:+ ", message: " +:+ quote +:+ "..." +:+ quote +:+ " })"] in
              Some (joinLines lines)
          end
    end.
End Handlers.

End Reservations.

(* ===================================================================== *)
(** * lib.ts: does an agent hold work *)
(* ===================================================================== *)

Module Presence.
Import Swarm.

(** [agentHasTask]; [Object.values] is the second components of the
    enumeration. *)
Definition agentHasTask `{Enumerate} (agentName : string) (allClaims : AllClaims)
    (crewTasks : list Crew.Task) : bool :=
  if existsb (λ tasks : SpecClaims,
                existsb (λ claim, bool_decide (agent claim = agentName))
                        (entries tasks).*2)
             (entries allClaims).*2
  then true
  else existsb (λ t, bool_decide (Crew.assigned_to t = Some agentName) &&
                     bool_decide (Crew.status t = Crew.in_progress)) crewTasks.

End Presence.

(* ===================================================================== *)
(** * Sample data of the path properties *)
(* ===================================================================== *)

Module PathExamples.

(** A POSIX rendering of [node:path] for relative inputs without [.] or
    [..] segments, used to run the reservation code on concrete paths. *)
Definition posixIsAbsolute (p : string) : bool := Lib.startsWith p "/".
Definition posixResolve (dir p : string) : string := dir +:+ "/" +:+ p.
Definition posixNormalize (p : string) : string := p.

End PathExamples.

Module StatusExamples.

(** [new Date(s).getTime()] on the strings of the sample runs: one ISO
    timestamp, every other text being no date. *)
Definition sampleGetTime (s : string) : option Z :=
  if bool_decide (s = "2024-05-01T10:00:00.000Z") then Some 1714557600000 else None.

End StatusExamples.

(* ===================================================================== *)
(** * Vocabulary of the swarm properties *)
(* ===================================================================== *)

Module SwarmSpec.
Import Swarm.

(** The enumeration used to run the model on concrete data. *)
Definition listingOrder : Enumerate := λ A, map_to_list.

Definition storedClaims (d : Disk) : AllClaims := default ∅ (claimsFile d).
Definition storedCompletions (d : Disk) : AllCompletions := default ∅ (completionsFile d).

(** The claim of a slot once stale claims are set aside. *)
Definition liveAt (w : World) (claims : AllClaims) (specPath taskId : string)
    : option ClaimEntry :=
  c ← claimAt claims specPath taskId;
  if isClaimStale w c then None else Some c.

(** The claims of one spec that are not stale. *)
Definition liveClaims (w : World) (tasks : SpecClaims) : SpecClaims :=
  filter (λ kv, isClaimStale w kv.2 = false) tasks.

(** All claims that are not stale; a spec left without claims is dropped. *)
Definition liveAll (w : World) (claims : AllClaims) : AllClaims :=
  omap (λ tasks, let t := liveClaims w tasks in
                 if bool_decide (t = ∅) then None else Some t) claims.

Definition owns (claims : AllClaims) (agentName specPath taskId : string) : Prop :=
  ∃ c, claimAt claims specPath taskId = Some c ∧ agent c = agentName.

Definition singleClaimPerAgent (claims : AllClaims) : Prop :=
  ∀ agentName s1 t1 s2 t2,
    owns claims agentName s1 t1 → owns claims agentName s2 t2 →
    s1 = s2 ∧ t1 = t2.


(** The entries written by a successful claim and a successful completion. *)
Definition newClaimOf (now agentName session : string) (processId : Z)
    (why : option string) : ClaimEntry :=
  {| agent := agentName; sessionId := session; pid := processId;
     claimedAt := now; reason := why |}.

Definition newCompletionOf (now agentName : string) (remark : option string)
    : CompletionEntry :=
  {| completedBy := agentName; completedAt := now; notes := remark |}.

(** One call of the swarm API, with what it observes while it runs. *)
Inductive Call :=
  | CallClaim (w : World) (now specPath taskId agentName session : string)
              (processId : Z) (why : option string)
  | CallUnclaim (w : World) (specPath taskId agentName : string)
  | CallComplete (w : World) (now specPath taskId agentName : string)
                 (remark : option string).

Definition perform `{Enumerate} (c : Call) (d : Disk) : Disk :=
  match c with
  | CallClaim w now specPath taskId agentName session processId why =>
      (claimTask w now specPath taskId agentName session processId why d).2
  | CallUnclaim w specPath taskId agentName =>
      (unclaimTask w specPath taskId agentName d).2
  | CallComplete w now specPath taskId agentName remark =>
      (completeTask w now specPath taskId agentName remark d).2
  end.

Definition performAll `{Enumerate} (calls : list Call) (d : Disk) : Disk :=
  foldl (λ d c, perform c d) d calls.

Definition worldOf (c : Call) : World :=
  match c with
  | CallClaim w _ _ _ _ _ _ _ => w
  | CallUnclaim w _ _ _ => w
  | CallComplete w _ _ _ _ _ => w
  end.

Definition specOf (c : Call) : string :=
  match c with
  | CallClaim _ _ specPath _ _ _ _ _ => specPath
  | CallUnclaim _ specPath _ _ => specPath
  | CallComplete _ _ specPath _ _ _ => specPath
  end.

Definition taskOf (c : Call) : string :=
  match c with
  | CallClaim _ _ _ taskId _ _ _ _ => taskId
  | CallUnclaim _ _ taskId _ => taskId
  | CallComplete _ _ _ taskId _ _ => taskId
  end.

(** A call whose spec path is no member name. *)
Definition plainSpec (c : Call) : Prop := inherited (specOf c) = false.

(** A call whose task id is not [__proto__], the one key that an
    assignment does not store. *)
Definition storingCall (c : Call) : Prop := taskOf c ≠ "__proto__".

(** [c] is the claim that the call writes under [(specPath, taskId)] when
    it succeeds. *)
Definition claimWritten (call : Call) (specPath taskId : string) (c : ClaimEntry) : Prop :=
  match call with
  | CallClaim _ now sp tk agentName session processId why =>
      specPath = sp ∧ taskId = tk ∧ c = newClaimOf now agentName session processId why
  | _ => False
  end.

Definition freshDisk : Disk :=
  {| claimsFile := None; completionsFile := None; journal := [] |}.

(** The states of the base directory between calls, starting from a
    directory without [claims.json] and [completions.json]. *)
Inductive reachable `{Enumerate} : Disk → Prop :=
  | reachable_fresh : reachable freshDisk
  | reachable_step (c : Call) (d : Disk) : reachable d → reachable (perform c d).

End SwarmSpec.

(** ** Sample runs of the swarm *)

Module SwarmExamples.
Import Swarm SwarmSpec.

Definition specX : string := "/work/specX.md".

(** Alice (pid 100) and Bob (pid 200) are registered and alive. *)
Definition bothAlive : World :=
  {| isProcessAlive := λ p, bool_decide (p = 100) || bool_decide (p = 200);
     registry := {[ "Alice" := Parsed {| reg_pid := 100; reg_sessionId := "sess-a" |};
                    "Bob" := Parsed {| reg_pid := 200; reg_sessionId := "sess-b" |} ]} |}.

Definition aliceClaims : Call :=
  CallClaim bothAlive "2024-05-01T10:00:00.000Z" specX "TASK-1" "Alice" "sess-a" 100 None.

Definition aliceCompletes : Call :=
  CallComplete bothAlive "2024-05-01T11:00:00.000Z" specX "TASK-1" "Alice" (Some "done").

Definition afterClaim : Disk := @perform listingOrder aliceClaims freshDisk.

Definition afterCompletion : Disk :=
  @performAll listingOrder [aliceClaims; aliceCompletes] freshDisk.


Definition bobClaims : Call :=
  CallClaim bothAlive "2024-05-01T12:00:00.000Z" specX "TASK-1" "Bob" "sess-b" 200 None.

Definition aliceCompletion : CompletionEntry :=
  newCompletionOf "2024-05-01T11:00:00.000Z" "Alice" (Some "done").

Definition aliceClaim : ClaimEntry :=
  newClaimOf "2024-05-01T10:00:00.000Z" "Alice" "sess-a" 100 None.

(** Alice, free again after her completion, claims the task id
    [constructor] under the same spec. *)
Definition aliceClaimsConstructor : Call :=
  CallClaim bothAlive "2024-05-01T12:00:00.000Z" specX "constructor" "Alice" "sess-a"
            100 None.

Definition constructorClaimed : Disk :=
  @performAll listingOrder [aliceClaims; aliceCompletes; aliceClaimsConstructor] freshDisk.
End SwarmExamples.

(* ===================================================================== *)
(** * Vocabulary and sample data of the crew properties *)
(* ===================================================================== *)

Module CrewSpec.
Import Crew.

(** A sort by the decimal number that follows [task-] in the id (0 when
    there is none), used to run the model on concrete data. *)
Fixpoint digitsValue (s : string) (acc : Z) : Z :=
  match s with
  | EmptyString => acc
  | String c s' =>
      match Ascii.is_nat c with
      | Some n => digitsValue s' (10 * acc + Z.of_nat n)
      | None => acc
      end
  end.

Fixpoint dropChars (n : nat) (s : string) : string :=
  match n, s with
  | O, _ => s
  | S _, EmptyString => EmptyString
  | S n', String _ s' => dropChars n' s'
  end.

Definition taskNumber (taskId : string) : Z :=
  digitsValue (if Lib.startsWith taskId "task-" then dropChars 5 taskId else taskId) 0.

Definition idLe (a b : Task) : Prop := taskNumber (id a) ≤ taskNumber (id b).

Global Instance idLe_dec : RelDecision idLe.
Proof. intros a b. unfold idLe. apply _. Defined.

Definition numericOrder : TaskSort := merge_sort idLe.

Definition allDone `{Enumerate} `{TaskSort} (d : CrewDir) : Prop :=
  Forall (λ t, status t = done) (getTasks d).


(** *** Sample project: three tasks, the last two depend on the first *)

Definition sampleTask (taskId name : string) (st : TaskStatus) (deps : list string)
    (who : option string) : Task :=
  {| id := taskId; title := name; status := st; depends_on := deps;
     created_at := "2024-05-01T09:00:00.000Z";
     updated_at := "2024-05-01T09:00:00.000Z";
     started_at := None; completed_at := None; base_commit := None;
     assigned_to := who; summary := None; evidence := None;
     blocked_reason := None; attempt_count := 0; last_review := None |}.

Definition samplePlan : Plan :=
  {| prd := "PRD.md"; plan_created_at := "2024-05-01T09:00:00.000Z";
     plan_updated_at := "2024-05-01T09:00:00.000Z";
     task_count := 3; completed_count := 0 |}.

Definition sampleDir : CrewDir :=
  {| planJson := Some samplePlan;
     taskJson := {[ "task-1" := sampleTask "task-1" "Parser" todo [] None;
                    "task-2" := sampleTask "task-2" "Printer" todo ["task-1"] None;
                    "task-3" := sampleTask "task-3" "Tests" todo ["task-1"] None ]};
     blockMd := ∅ |}.

(** The children of the sample wave: every task handed over is started and
    completed, every child exits with code 0. *)
Definition completeAll (tasks : list Task) (_ : Z) (d : CrewDir)
    : list AgentResult * CrewDir :=
  ((λ _, {| exitCode := 0; error := None |}) <$> tasks,
   foldl (λ d t,
            let d1 := (startTask "2024-05-01T10:00:00.000Z" None d (id t) "worker").2 in
            (completeTask "2024-05-01T10:05:00.000Z" d1 (id t) "ok" None).2)
         d tasks).

(** The sample project once the first wave has run [task-1]. *)
Definition sampleAfterWave : CrewDir :=
  (completeAll [sampleTask "task-1" "Parser" todo [] None] 2 sampleDir).2.

Definition autonomousParams : WorkParams :=
  {| autonomous := true; concurrencyOverride := None |}.

End CrewSpec.


(* ===================================================================== *)
(** * Vocabulary of the reservation and registry properties *)
(* ===================================================================== *)

Module ReservationSpec.
Import Lib.

(** The entry that [executeReserve] pushes for a normalised pattern. *)
Definition reservationOf (now : string) (why : option string) (norm : string * bool)
    : FileReservation :=
  {| path := norm.1; isDir := norm.2; reason := why; since := now |}.

End ReservationSpec.

Module RegistrySpec.
Import Swarm.

(** A registration file that parses and whose process is alive. *)
Definition heldByLive (w : World) (agentName : string) : Prop :=
  ∃ reg, registry w !! agentName = Some (Parsed reg) ∧
         isProcessAlive w (reg_pid reg) = true.

(** The same, with a process other than the caller's. *)
Definition heldByOther (w : World) (processPid : Z) (agentName : string) : Prop :=
  ∃ reg, registry w !! agentName = Some (Parsed reg) ∧
         isProcessAlive w (reg_pid reg) = true ∧ reg_pid reg ≠ processPid.



End RegistrySpec.

(* ===================================================================== *)
(** * Vocabulary of the further swarm properties *)
(* ===================================================================== *)

Module SwarmShape.
Import Swarm.

(** No spec is stored with an empty mapping of tasks. *)
Definition noEmptySpec {A : Type} (m : gmap string (gmap string A)) : Prop :=
  ∀ specPath tasks, m !! specPath = Some tasks → tasks ≠ ∅.

(** No mapping of tasks has the key [__proto__] among its own. *)
Definition noProtoKey {A : Type} (m : gmap string (gmap string A)) : Prop :=
  ∀ specPath, (m !! specPath ≫= λ tasks, tasks !! "__proto__") = None.

End SwarmShape.

(* ===================================================================== *)
(** * Vocabulary of the further crew properties *)
(* ===================================================================== *)

Module CrewShape.
Import Crew.












(** [d'] has the plan of [d], and its tasks are those of [d] but for
    tasks in progress in [d] that are blocked in [d']. *)
Definition onlyBlocks (d d' : CrewDir) : Prop :=
  planJson d' = planJson d ∧
  ∀ k, getTask d' k = getTask d k ∨
       ∃ t t', getTask d k = Some t ∧ status t = in_progress ∧
               getTask d' k = Some t' ∧ status t' = blocked.





End CrewShape.

(* ===================================================================== *)
(** * Sample data of the further properties *)
(* ===================================================================== *)

Module MoreExamples.
Import Crew CrewSpec.

(** [path.relative] on the sample paths: the target as it is. *)
Definition plainRelative (_ target : string) : option string := Some target.

(** A registered agent without reservations. *)
Definition aliceState : Reservations.HandlerState :=
  {| Reservations.registered := true; Reservations.agentName := "Alice";
     Reservations.reservations := [] |}.


End MoreExamples.

(* ===================================================================== *)
(** * Properties of lib.ts *)
(* ===================================================================== *)

Section StatusFacts.
Import Lib.
Variable getTime : string → option Z.

Lemma computeStatus_elapsed now last hasTask hasReservation thresholdMs e :
  elapsedSince getTime now last = Some e →
  status (computeStatus getTime now last hasTask hasReservation thresholdMs) =
    if bool_decide (e < 30000) then active
    else if bool_decide (e < 300000) then idle
    else if negb hasTask && negb hasReservation then away
    else if bool_decide (thresholdMs ≤ e) then stuck else idle.
Proof.
  intros He. unfold computeStatus, ACTIVE_MS, IDLE_MS. rewrite He.
  repeat case_bool_decide; try lia; try done;
    destruct hasTask, hasReservation; simpl; try done;
    repeat case_bool_decide; try lia; done.
Qed.

(** C7: status derivation.  The elapsed time is the current time less
    the time of the last activity.  The rows of the status table are read
    from the top, as the table lists them (a row speaks for the inputs
    that no earlier row covers): under 30 s active; under 5 min idle; from
    5 min and below the threshold idle with a claim or reservation and
    away with neither; from the threshold on, with a claim or
    reservation, stuck.  Whatever row applies first to the elapsed time
    gives the status that [computeStatus] returns.  For a threshold of at
    least 5 minutes the last row holds as written, without reference to
    the rows above it. *)
Theorem computeStatus_table now last hasTask hasReservation thresholdMs t :
  getTime last = Some t →
  let elapsed := now - t in
  let result := computeStatus getTime now last hasTask hasReservation thresholdMs in
  (∀ st, firstRow (statusTable thresholdMs) elapsed (hasTask || hasReservation) = Some st →
         status result = st) ∧
  (IDLE_MS ≤ thresholdMs → thresholdMs ≤ elapsed → hasTask || hasReservation = true →
     status result = stuck).
Proof.
  intros Ht. cbv zeta.
  assert (elapsedSince getTime now last = Some (now - t)) as He
    by (unfold elapsedSince; by rewrite Ht).
  rewrite (computeStatus_elapsed _ _ _ _ _ _ He). split.
  - intros st Hrow. revert Hrow. unfold statusTable, firstRow, flagMatches.
    destruct hasTask, hasReservation; simpl;
      repeat (case_bool_decide; simpl); intros; simplify_eq; try done; lia.
  - unfold IDLE_MS. intros Hthr Hel Hflag.
    destruct hasTask, hasReservation; simpl in *; try done;
      repeat (case_bool_decide; simpl); try done; lia.
Qed.

(** C10: a last-activity timestamp that does not parse as a date (elapsed
    time NaN) or lies in the future (elapsed time negative) gives status
    active without an [idleFor] value, whatever the claim and reservation
    flags and the threshold are. *)
Theorem computeStatus_unparsed_or_future now last hasTask hasReservation thresholdMs :
  (getTime last = None ∨ ∃ t, getTime last = Some t ∧ now - t < 0) →
  computeStatus getTime now last hasTask hasReservation thresholdMs =
    {| status := active; idleFor := None |}.
Proof.
  unfold computeStatus, elapsedSince.
  intros [-> | (t & -> & Hneg)]; simpl; [done|].
  by rewrite bool_decide_eq_true_2.
Qed.
End StatusFacts.


Section StringFacts.
Import Lib.
Local Arguments String.append !_ _ /.

Lemma startsWith_spec s p : startsWith s p = true ↔ ∃ rest, s = p +:+ rest.
Proof.
  revert s. induction p as [|b p IH]; intros s.
  - split; [intros _; exists s; reflexivity | by destruct s].
  - destruct s as [|a s]; simpl.
    + split; [done | intros [rest Hrest]; discriminate].
    + rewrite andb_true_iff, bool_decide_eq_true, IH. split.
      * intros [-> [rest ->]]. by exists rest.
      * intros [rest Hrest]. injection Hrest as -> ->. eauto.
Qed.

Lemma endsWith_spec s x : endsWith s x = true ↔ ∃ front, s = front +:+ x.
Proof.
  induction s as [|a s IH]; simpl.
  - rewrite orb_false_r, bool_decide_eq_true. split.
    + intros <-. by exists EmptyString.
    + intros [[|c front] Hf]; simpl in Hf; [done | discriminate].
  - rewrite orb_true_iff, bool_decide_eq_true, IH. split.
    + intros [<- | [front ->]]; [by exists EmptyString | by exists (String a front)].
    + intros [[|c front] Hf]; simpl in Hf; [by left | right].
      injection Hf as -> ->. eauto.
Qed.

Lemma endsWith_nonempty s x : x ≠ EmptyString → endsWith s x = true → s ≠ EmptyString.
Proof.
  intros Hx [front ->]%endsWith_spec. destruct front; simpl; [done | discriminate].
Qed.

Lemma dropWhileEnd_last f s c :
  f c = false → endsWith s (String c EmptyString) = true →
  endsWith (dropWhileEnd f s) (String c EmptyString) = true.
Proof.
  intros Hc. induction s as [|a s IH]; simpl.
  - done.
  - rewrite orb_true_iff, bool_decide_eq_true. intros [Heq | Hs].
    + injection Heq as -> ->. rewrite Hc. simpl. by rewrite bool_decide_eq_true_2.
    + specialize (IH Hs).
      assert (dropWhileEnd f s ≠ EmptyString) as Hne
        by (eapply endsWith_nonempty; [|exact IH]; done).
      rewrite (bool_decide_eq_false_2 _ Hne), andb_false_r.
      simpl. by rewrite IH, orb_true_r.
Qed.

Lemma dropWhileStart_last f s c :
  f c = false → endsWith s (String c EmptyString) = true →
  endsWith (dropWhileStart f s) (String c EmptyString) = true.
Proof.
  intros Hc. induction s as [|a s IH]; simpl; [done|].
  intros Hs. destruct (f a) eqn:Hfa; [|done].
  apply IH. apply orb_true_iff in Hs as [Heq%bool_decide_eq_true | Hs]; [|done].
  injection Heq as -> ->. congruence.
Qed.

Lemma trim_keeps_slash input :
  endsWith input "/" = true → endsWith (trim input) "/" = true.
Proof.
  intros Hin. unfold trim.
  apply dropWhileEnd_last; [done|]. by apply dropWhileStart_last.
Qed.
End StringFacts.

Section ReservationFacts.
Import Lib.
Local Arguments String.append !_ _ /.

Lemma reservationMatches_dir (P : string) (r : FileReservation) :
  isDir r = true →
  reservationMatches P r = true ↔
    P ≠ EmptyString ∧ (P = path r ∨
              ∃ rest, P = (if endsWith (path r) "/" then path r
                           else path r +:+ "/") +:+ rest).
Proof.
  intros Hdir. unfold reservationMatches. rewrite Hdir.
  case_bool_decide as HP.
  - split; [done | by intros [? _]].
  - rewrite orb_true_iff, bool_decide_eq_true, startsWith_spec. tauto.
Qed.

Lemma reservationMatches_file (P : string) (r : FileReservation) :
  isDir r = false →
  reservationMatches P r = true ↔ P ≠ EmptyString ∧ P = path r.
Proof.
  intros Hdir. unfold reservationMatches. rewrite Hdir.
  case_bool_decide as HP.
  - split; [done | by intros [? _]].
  - rewrite bool_decide_eq_true. tauto.
Qed.

Variable isAbsolute : string → bool.
Variable resolve : string → string → string.
Variable normalize : string → string.
Variable sep : string.

(** C5 (amended): reservation nesting.  A non-empty target path [P]
    matches a directory reservation with stored path [D] iff [P = D] or
    [P] starts with [D] followed by a slash, where the slash is not added
    when [D] already ends in one (the root directory); it matches a file
    reservation iff [P] equals the path; the empty target matches
    nothing; an input that ends in a slash yields a directory
    reservation. *)
Theorem reservation_nesting :
  (∀ (P : string) (r : FileReservation),
     isDir r = true → P ≠ EmptyString → endsWith (path r) "/" = false →
     reservationMatches P r = true ↔
       P = path r ∨ ∃ rest, P = (path r +:+ "/") +:+ rest) ∧
  (∀ (P : string) (r : FileReservation),
     isDir r = true → P ≠ EmptyString → endsWith (path r) "/" = true →
     reservationMatches P r = true ↔ ∃ rest, P = path r +:+ rest) ∧
  (∀ (P : string) (r : FileReservation),
     isDir r = false → P ≠ EmptyString →
     reservationMatches P r = true ↔ P = path r) ∧
  (∀ r : FileReservation, reservationMatches EmptyString r = false) ∧
  (∀ input dir : string,
     endsWith input "/" = true →
     (normalizeReservationPath isAbsolute resolve normalize sep input dir).2 = true).
Proof.
  split_and!.
  - intros P r Hdir HP Hend. rewrite reservationMatches_dir, Hend by done. tauto.
  - intros P r Hdir HP Hend. rewrite reservationMatches_dir, Hend by done. split.
    + intros [_ [-> | Hrest]]; [|done]. exists EmptyString.
      clear. induction (path r) as [|a s IH]; simpl; [done|]. by rewrite <- IH.
    + intros Hrest. split; [done|]. by right.
  - intros P r Hdir HP. rewrite reservationMatches_file by done. tauto.
  - done.
  - intros input dir Hin. unfold normalizeReservationPath. simpl.
    by rewrite (trim_keeps_slash _ Hin).
Qed.
End ReservationFacts.

(** C5: a directory reservation on the root directory matches [/a], which
    neither equals the stored path nor starts with it followed by a slash. *)
Lemma reservation_nesting_counterexample :
  let r := {| Lib.path := "/"; Lib.isDir := true; Lib.reason := None;
              Lib.since := "2024-01-01T00:00:00.000Z" |} in
  Lib.reservationMatches "/a" r = true ∧
  ¬ ("/a" = Lib.path r ∨ ∃ rest, "/a" = (Lib.path r +:+ "/") +:+ rest).
Proof.
  simpl. split; [reflexivity|].
  intros [Heq | [rest Heq]]; discriminate.
Qed.


(* ===================================================================== *)
(** * Properties of the swarm store *)
(* ===================================================================== *)

Lemma listingOrder_spec : @EnumerateSpec SwarmSpec.listingOrder.
Proof. intros A m k v. apply elem_of_map_to_list. Qed.

Section EnumerationFacts.
Context `{Enumerate} `{!EnumerateSpec}.

Lemma keys_empty_iff {A : Type} (m : gmap string A) :
  length (keys m) = 0%nat ↔ m = ∅.
Proof.
  unfold keys. rewrite length_fmap. split.
  - intros Hlen. apply length_zero_iff_nil in Hlen.
    apply map_eq. intros k. rewrite lookup_empty.
    destruct (m !! k) as [v|] eqn:Hk; [|done].
    apply elem_of_entries in Hk. rewrite Hlen in Hk. by apply elem_of_nil in Hk.
  - intros ->. apply length_zero_iff_nil.
    destruct (entries (∅ : gmap string A)) as [|[k v] l] eqn:Hl; [done|].
    assert ((k, v) ∈ entries (∅ : gmap string A)) as Hin
      by (rewrite Hl; left).
    apply elem_of_entries in Hin. by rewrite lookup_empty in Hin.
Qed.

End EnumerationFacts.

Section CleanupFacts.
Import Swarm SwarmSpec.
Context `{Enumerate} `{!EnumerateSpec}.
Variable w : World.

Lemma cleanupSpec_fold (l : list (string * ClaimEntry)) (acc : SpecClaims) (r : Z) :
  let res := foldl (λ (acc : SpecClaims * Z) (e : string * ClaimEntry),
                      if isClaimStale w e.2 then (delete e.1 acc.1, acc.2 + 1) else acc)
                   (acc, r) l in
  (∀ k v, res.1 !! k = Some v ↔
          acc !! k = Some v ∧ ∀ c, (k, c) ∈ l → isClaimStale w c = false) ∧
  r ≤ res.2 ∧
  (r < res.2 ↔ ∃ k c, (k, c) ∈ l ∧ isClaimStale w c = true).
Proof.
  revert acc r. induction l as [|[k0 c0] l IH]; intros acc r; simpl.
  - split_and!; [|lia|].
    + intros k v. split; [|by intros [? _]].
      intros Hk. split; [done|]. intros c Hin. by apply elem_of_nil in Hin.
    + split; [lia|]. intros (k & c & Hin & _). by apply elem_of_nil in Hin.
  - destruct (isClaimStale w c0) eqn:Hst; simpl.
    + destruct (IH (delete k0 acc) (r + 1)) as (Hlk & Hle & Hlt).
      split_and!; [|lia|].
      * intros k v. rewrite Hlk.
        destruct (decide (k = k0)) as [->|Hne].
        -- rewrite lookup_delete_eq. split; [by intros [? _]|].
           intros [_ Hall]. specialize (Hall c0 ltac:(left)). congruence.
        -- rewrite lookup_delete_ne by done. split.
           ++ intros [Hk Hall]. split; [done|]. intros c Hin.
              apply elem_of_cons in Hin as [Heq|Hin]; [congruence|by apply Hall].
           ++ intros [Hk Hall]. split; [done|]. intros c Hin.
              apply Hall. by right.
      * split; [|lia]. intros _. exists k0, c0. split; [left|done].
    + destruct (IH acc r) as (Hlk & Hle & Hlt).
      split_and!; [|lia|].
      * intros k v. rewrite Hlk. split.
        -- intros [Hk Hall]. split; [done|]. intros c Hin.
           apply elem_of_cons in Hin as [Heq|Hin]; [|by apply Hall].
           by injection Heq as -> ->.
        -- intros [Hk Hall]. split; [done|]. intros c Hin.
           apply Hall. by right.
      * rewrite Hlt. split.
        -- intros (k & c & Hin & Hc). exists k, c. split; [by right|done].
        -- intros (k & c & Hin & Hc). exists k, c. split; [|done].
           apply elem_of_cons in Hin as [Heq|Hin]; [|done].
           injection Heq as -> ->. congruence.
Qed.

Lemma cleanupSpec_spec (tasks : SpecClaims) (r : Z) :
  (cleanupSpec w tasks r).1 = liveClaims w tasks ∧
  r ≤ (cleanupSpec w tasks r).2 ∧
  (r < (cleanupSpec w tasks r).2 ↔
     ∃ k c, tasks !! k = Some c ∧ isClaimStale w c = true).
Proof.
  unfold cleanupSpec.
  destruct (cleanupSpec_fold (entries tasks) tasks r) as (Hlk & Hle & Hlt).
  split_and!; [|done|].
  - apply map_eq. intros k. unfold liveClaims.
    apply option_eq. intros c. rewrite Hlk, map_lookup_filter_Some. simpl.
    split.
    + intros [Hk Hall]. split; [done|]. apply Hall. by apply elem_of_entries.
    + intros [Hk Hc]. split; [done|]. intros c' Hin.
      apply elem_of_entries in Hin. congruence.
  - rewrite Hlt. by setoid_rewrite elem_of_entries.
Qed.

Lemma cleanupStep_spec (claims0 a : AllClaims) (r : Z) (s : string) (tk : SpecClaims) :
  claims0 !! s = Some tk →
  let res := cleanupStep w (a, r) (s, tk) in
  res.1 !! s = liveAll w claims0 !! s ∧
  (∀ s', s' ≠ s → res.1 !! s' = a !! s') ∧
  r ≤ res.2 ∧
  (r < res.2 ↔ ∃ k c, tk !! k = Some c ∧ isClaimStale w c = true).
Proof.
  intros Hs. unfold cleanupStep. simpl.
  destruct (cleanupSpec_spec tk r) as (Hlive & Hle & Hlt).
  destruct (cleanupSpec w tk r) as [tasks removed]. simpl in *. subst tasks.
  unfold liveAll. rewrite lookup_omap, Hs. simpl.
  case_bool_decide as Hlen; simpl.
  - apply keys_empty_iff in Hlen.
    rewrite (bool_decide_eq_true_2 _ Hlen).
    split_and!; [by rewrite lookup_delete_eq| |done|done].
    intros s' Hne. by rewrite lookup_delete_ne, lookup_insert_ne.
  - rewrite keys_empty_iff in Hlen.
    rewrite (bool_decide_eq_false_2 _ Hlen).
    split_and!; [by rewrite lookup_insert_eq| |done|done].
    intros s' Hne. by rewrite lookup_insert_ne.
Qed.

Lemma cleanup_fold (claims0 : AllClaims) (l : list (string * SpecClaims))
    (a : AllClaims) (r : Z) :
  (∀ s tk, (s, tk) ∈ l → claims0 !! s = Some tk) →
  let res := foldl (cleanupStep w) (a, r) l in
  (∀ s, (a !! s = liveAll w claims0 !! s ∨ ∃ tk, (s, tk) ∈ l) →
        res.1 !! s = liveAll w claims0 !! s) ∧
  (∀ s, (∀ tk, (s, tk) ∉ l) → res.1 !! s = a !! s) ∧
  r ≤ res.2 ∧
  (r < res.2 ↔
     ∃ s tk k c, (s, tk) ∈ l ∧ tk !! k = Some c ∧ isClaimStale w c = true).
Proof.
  revert a r. induction l as [|[s0 tk0] l IH]; intros a r Hl; simpl.
  - split_and!; [| done | lia |].
    + intros s [Ha | [tk Hin]]; [done | by apply elem_of_nil in Hin].
    + split; [lia|]. intros (s & tk & k & c & Hin & _). by apply elem_of_nil in Hin.
  - assert (claims0 !! s0 = Some tk0) as Hs0 by (apply Hl; left).
    destruct (cleanupStep_spec claims0 a r s0 tk0 Hs0) as (Hsame & Hother & Hle & Hlt).
    destruct (cleanupStep w (a, r) (s0, tk0)) as [a1 r1] eqn:Hstep. simpl in *.
    destruct (IH a1 r1) as (Hlive & Hkeep & Hle' & Hlt').
    { intros s tk Hin. apply Hl. by right. }
    split_and!; [| | lia |].
    + intros s Hs. apply Hlive.
      destruct (decide (s = s0)) as [->|Hne]; [by left|].
      rewrite (Hother s Hne).
      destruct Hs as [Ha | [tk Hin]]; [by left | right].
      exists tk. apply elem_of_cons in Hin as [Heq|Hin]; [congruence|done].
    + intros s Hnot. rewrite Hkeep.
      * apply Hother. intros ->. apply (Hnot tk0). left.
      * intros tk Hin. apply (Hnot tk). by right.
    + split.
      * intros Hr.
        destruct (decide (r < r1)) as [Hr1|Hr1].
        -- apply Hlt in Hr1 as (k & c & Hk & Hc).
           exists s0, tk0, k, c. split_and!; [left|done|done].
        -- assert (r1 < (foldl (cleanupStep w) (a1, r1) l).2) as Hr2 by lia.
           apply Hlt' in Hr2 as (s & tk & k & c & Hin & Hk & Hc).
           exists s, tk, k, c. split_and!; [by right|done|done].
      * intros (s & tk & k & c & Hin & Hk & Hc).
        apply elem_of_cons in Hin as [Heq|Hin].
        -- injection Heq as -> ->.
           assert (r < r1) by (apply Hlt; eauto). lia.
        -- assert (r1 < (foldl (cleanupStep w) (a1, r1) l).2)
             by (apply Hlt'; eauto 10). lia.
Qed.

Lemma cleanupStaleClaims_spec (claims : AllClaims) :
  (cleanupStaleClaims w claims).1 = liveAll w claims ∧
  0 ≤ (cleanupStaleClaims w claims).2 ∧
  (0 < (cleanupStaleClaims w claims).2 ↔
     ∃ s t c, claimAt claims s t = Some c ∧ isClaimStale w c = true).
Proof.
  change (cleanupStaleClaims w claims) with (foldl (cleanupStep w) (claims, 0) (entries claims)).
  destruct (cleanup_fold claims (entries claims) claims 0) as (Hlive & Hkeep & Hle & Hlt).
  { intros s tk Hin. by apply elem_of_entries. }
  split_and!; [|done|].
  - apply map_eq. intros s.
    destruct (claims !! s) as [tk|] eqn:Hs.
    + apply Hlive. right. exists tk. by apply elem_of_entries.
    + rewrite Hkeep.
      * unfold liveAll. by rewrite lookup_omap, Hs.
      * intros tk Hin. apply elem_of_entries in Hin. congruence.
  - rewrite Hlt. unfold claimAt. split.
    + intros (s & tk & k & c & Hin & Hk & Hc). exists s, k, c.
      apply elem_of_entries in Hin. rewrite Hin. simpl. done.
    + intros (s & t & c & Hat & Hc).
      destruct (claims !! s) as [tk|] eqn:Hs; simpl in Hat; [|done].
      exists s, tk, t, c. by rewrite elem_of_entries.
Qed.

Lemma claimAt_liveAll (claims : AllClaims) (s t : string) :
  claimAt (liveAll w claims) s t = liveAt w claims s t.
Proof.
  unfold claimAt, liveAt, claimAt, liveAll. rewrite lookup_omap.
  destruct (claims !! s) as [tk|] eqn:Hs; simpl; [|done].
  case_bool_decide as Hempty; simpl.
  - destruct (tk !! t) as [c|] eqn:Ht; simpl; [|done].
    destruct (isClaimStale w c) eqn:Hc; [done|].
    assert (liveClaims w tk !! t = Some c) as Hlive
      by (unfold liveClaims; by rewrite map_lookup_filter_Some).
    by rewrite Hempty, lookup_empty in Hlive.
  - unfold liveClaims. apply option_eq. intros c.
    rewrite map_lookup_filter_Some. simpl.
    destruct (tk !! t) as [c'|] eqn:Ht; simpl.
    + destruct (isClaimStale w c') eqn:Hc'.
      * split; [|done]. intros [Heq Hst]. congruence.
      * split; [by intros [-> _]|]. by intros [= <-].
    + split; [by intros [? _]|done].
Qed.

Lemma liveAt_Some (claims : AllClaims) (s t : string) (c : ClaimEntry) :
  liveAt w claims s t = Some c ↔
  claimAt claims s t = Some c ∧ isClaimStale w c = false.
Proof.
  unfold liveAt. destruct (claimAt claims s t) as [c'|]; simpl.
  - destruct (isClaimStale w c') eqn:Hc'.
    + split; [done|]. intros [[= ->] ?]. congruence.
    + split; [by intros [= <-]|]. by intros [-> _].
  - split; [done|]. by intros [? _].
Qed.

(** When nothing is removed the mapping keeps every claim. *)
Lemma cleanup_none_removed (claims : AllClaims) (s t : string) :
  ¬ (0 < (cleanupStaleClaims w claims).2) →
  liveAt w claims s t = claimAt claims s t.
Proof.
  intros Hzero. destruct (cleanupStaleClaims_spec claims) as (_ & _ & Hlt).
  unfold liveAt. destruct (claimAt claims s t) as [c|] eqn:Hat; simpl; [|done].
  destruct (isClaimStale w c) eqn:Hc; [|done].
  exfalso. apply Hzero, Hlt. eauto.
Qed.
End CleanupFacts.


Section FilterFacts.
Import Swarm SwarmSpec.
Context `{Enumerate} `{!EnumerateSpec}.
Variable w : World.




End FilterFacts.

Section FindFacts.
Import Swarm SwarmSpec.
Context `{Enumerate} `{!EnumerateSpec}.

Lemma findInTasks_Some ag spec l s t :
  findInTasks ag spec l = Some (s, t) →
  s = spec ∧ ∃ c, (t, c) ∈ l ∧ agent c = ag.
Proof.
  induction l as [|[t0 c0] l IH]; simpl; [done|].
  case_bool_decide as Hag.
  - intros [= <- <-]. split; [done|]. exists c0. split; [left|done].
  - intros Hf. destruct (IH Hf) as (-> & c & Hin & Hc).
    split; [done|]. exists c. split; [by right|done].
Qed.

Lemma findInTasks_None ag spec l :
  findInTasks ag spec l = None → ∀ t c, (t, c) ∈ l → agent c ≠ ag.
Proof.
  induction l as [|[t0 c0] l IH]; simpl.
  - intros _ t c Hin. by apply elem_of_nil in Hin.
  - case_bool_decide as Hag; [done|]. intros Hf t c Hin.
    apply elem_of_cons in Hin as [Heq|Hin]; [|by eapply IH].
    by injection Heq as -> ->.
Qed.

Lemma findInSpecs_Some ag l s t :
  findInSpecs ag l = Some (s, t) →
  ∃ tk c, (s, tk) ∈ l ∧ tk !! t = Some c ∧ agent c = ag.
Proof.
  induction l as [|[s0 tk0] l IH]; simpl; [done|].
  destruct (findInTasks ag s0 (entries tk0)) as [[s' t']|] eqn:Hf.
  - intros [= -> ->]. apply findInTasks_Some in Hf as (-> & c & Hin & Hc).
    exists tk0, c. split_and!; [left| by apply elem_of_entries |done].
  - intros Hr. destruct (IH Hr) as (tk & c & Hin & Ht & Hc).
    exists tk, c. split_and!; [by right|done|done].
Qed.

Lemma findInSpecs_None ag l :
  findInSpecs ag l = None →
  ∀ s tk t c, (s, tk) ∈ l → tk !! t = Some c → agent c ≠ ag.
Proof.
  induction l as [|[s0 tk0] l IH]; simpl.
  - intros _ s tk t c Hin. by apply elem_of_nil in Hin.
  - destruct (findInTasks ag s0 (entries tk0)) as [found|] eqn:Hf; [done|].
    intros Hr s tk t c Hin Ht.
    apply elem_of_cons in Hin as [Heq|Hin]; [|by eapply IH].
    injection Heq as -> ->.
    eapply findInTasks_None; [done|]. by apply elem_of_entries.
Qed.

Lemma findAgentClaim_Some claims ag s t :
  findAgentClaim claims ag = Some (s, t) → owns claims ag s t.
Proof.
  intros (tk & c & Hin & Ht & Hc)%findInSpecs_Some.
  apply elem_of_entries in Hin. exists c. unfold claimAt.
  by rewrite Hin.
Qed.

Lemma findAgentClaim_None claims ag :
  findAgentClaim claims ag = None → ∀ s t, ¬ owns claims ag s t.
Proof.
  intros Hf s t (c & Hat & Hc). unfold claimAt in Hat.
  destruct (claims !! s) as [tk|] eqn:Hs; simpl in Hat; [|done].
  eapply findInSpecs_None; [done| |done|done]. by apply elem_of_entries.
Qed.

Lemma findAgentClaim_is_Some claims ag s t :
  owns claims ag s t → ∃ s' t', findAgentClaim claims ag = Some (s', t').
Proof.
  intros Hown. destruct (findAgentClaim claims ag) as [[s' t']|] eqn:Hf; [eauto|].
  exfalso. by eapply findAgentClaim_None.
Qed.
End FindFacts.

Section UpdateFacts.
Import Swarm SwarmSpec.
Context `{Enumerate} `{!EnumerateSpec}.

Lemma claimAt_removeClaim (claims : AllClaims) (s t s' t' : string) :
  claimAt (removeClaim claims s t) s' t' =
  if bool_decide (s' = s ∧ t' = t) then None else claimAt claims s' t'.
Proof.
  unfold removeClaim, claimAt.
  destruct (decide (s' = s)) as [->|Hs].
  - case_bool_decide as Hlen.
    + rewrite lookup_delete_eq. simpl.
      apply keys_empty_iff in Hlen.
      case_bool_decide as Hst; [done|].
      assert (t' ≠ t) as Ht by (intros ->; by apply Hst).
      assert (delete t (default ∅ (claims !! s)) !! t' = None) as Hnone
        by (rewrite Hlen; apply lookup_empty).
      rewrite lookup_delete_ne in Hnone by done.
      destruct (claims !! s) as [tk|]; simpl in *; done.
    + rewrite lookup_insert_eq. simpl.
      case_bool_decide as Hst.
      * destruct Hst as [_ ->]. apply lookup_delete_eq.
      * assert (t' ≠ t) as Ht by (intros ->; by apply Hst).
        rewrite lookup_delete_ne by done.
        destruct (claims !! s) as [tk|]; simpl; [done|apply lookup_empty].
  - rewrite (bool_decide_eq_false_2 (s' = s ∧ t' = t)) by (intros [? _]; done).
    case_bool_decide; by rewrite ?lookup_delete_ne, lookup_insert_ne.
Qed.

(** Storing a value under [m[s][t]], creating [m[s]] when it is absent. *)
Lemma lookup_store2 {A : Type} (m : gmap string (gmap string A)) (s t s' t' : string) (x : A) :
  let m1 := match m !! s with None => <[s := ∅]> m | Some _ => m end in
  (<[s := <[t := x]> (default ∅ (m1 !! s))]> m1 !! s' ≫= λ tasks, tasks !! t') =
  if bool_decide (s' = s ∧ t' = t) then Some x else m !! s' ≫= λ tasks, tasks !! t'.
Proof.
  simpl. destruct (decide (s' = s)) as [->|Hs].
  - rewrite lookup_insert_eq. simpl.
    case_bool_decide as Hst.
    + destruct Hst as [_ ->]. apply lookup_insert_eq.
    + assert (t' ≠ t) as Ht by (intros ->; by apply Hst).
      rewrite lookup_insert_ne by done.
      destruct (m !! s) as [tk|] eqn:Hm; simpl.
      * by rewrite Hm.
      * rewrite lookup_insert_eq. simpl. apply lookup_empty.
  - rewrite (bool_decide_eq_false_2 (s' = s ∧ t' = t)) by (intros [? _]; done).
    rewrite lookup_insert_ne by done.
    destruct (m !! s); [done|]. by rewrite lookup_insert_ne.
Qed.

(** The same store through an assignment [m[s][t] = x], on a slot that has
    no own entry: nothing is stored under [__proto__]. *)
Lemma lookup_assign2 {A : Type} (m : gmap string (gmap string A)) (s t s' t' : string) (x : A) :
  (m !! s ≫= λ tasks, tasks !! t) = None →
  let m1 := match m !! s with None => <[s := ∅]> m | Some _ => m end in
  (<[s := setProperty (default ∅ (m1 !! s)) t x]> m1 !! s' ≫= λ tasks, tasks !! t') =
  if bool_decide (s' = s ∧ t' = t) && negb (bool_decide (t = "__proto__")) then Some x
  else m !! s' ≫= λ tasks, tasks !! t'.
Proof.
  intros Hfree. unfold setProperty.
  destruct (decide (t = "__proto__")) as [Hp|Hp].
  - rewrite (bool_decide_eq_true_2 _ Hp). rewrite andb_false_r.
    assert (default ∅ ((match m !! s with None => <[s := ∅]> m | Some _ => m end) !! s)
              !! t = None) as Hown.
    { destruct (m !! s) as [tk|] eqn:Hm; simpl in *.
      - by rewrite Hm.
      - rewrite lookup_insert_eq. simpl. apply lookup_empty. }
    simpl. rewrite (bool_decide_eq_true_2 _ Hown). simpl.
    destruct (decide (s' = s)) as [->|Hs].
    + rewrite lookup_insert_eq. simpl.
      destruct (m !! s) as [tk|] eqn:Hm; simpl.
      * by rewrite Hm.
      * rewrite lookup_insert_eq. simpl. apply lookup_empty.
    + rewrite lookup_insert_ne by done.
      destruct (m !! s); [done|]. by rewrite lookup_insert_ne.
  - rewrite (bool_decide_eq_false_2 _ Hp). rewrite andb_true_r. simpl.
    apply lookup_store2.
Qed.
End UpdateFacts.

Section ReadFacts.
Import Swarm SwarmSpec.

Lemma getProperty_Own {A : Type} (o : gmap string A) (key : string) (a : A) :
  getProperty o key = Some (Own a) ↔ o !! key = Some a.
Proof.
  unfold getProperty. destruct (o !! key) as [a'|].
  - split; [by intros [= ->]|by intros [= ->]].
  - by destruct (inherited key).
Qed.

Lemma getProperty_plain {A : Type} (o : gmap string A) (key : string) :
  inherited key = false → getProperty o key = Own <$> o !! key.
Proof. intros Hkey. unfold getProperty. rewrite Hkey. by destruct (o !! key). Qed.

Lemma getProperty_Member {A : Type} (o : gmap string A) (key name : string) :
  getProperty o key = Some (Member name) ↔
  name = key ∧ inherited key = true ∧ o !! key = None.
Proof.
  unfold getProperty. destruct (o !! key) as [a|].
  - split; [done|by intros (_ & _ & ?)].
  - destruct (inherited key); [|split; [done|by intros (_ & ? & _)]].
    split; [by intros [= <-]|by intros (-> & _)].
Qed.

Lemma getProperty_None {A : Type} (o : gmap string A) (key : string) :
  getProperty o key = None ↔ o !! key = None ∧ inherited key = false.
Proof.
  unfold getProperty. destruct (o !! key) as [a|]; [split; [done|by intros [? _]]|].
  destruct (inherited key); [split; [done|by intros [_ ?]]|done].
Qed.

Lemma readClaim_Own (claims : AllClaims) (s t : string) (c : ClaimEntry) :
  readClaim claims s t = Some (Own c) ↔ claimAt claims s t = Some c.
Proof.
  unfold readClaim, claimAt. destruct (claims !! s) as [tasks|]; simpl; [|done].
  apply getProperty_Own.
Qed.

Lemma readClaim_None (claims : AllClaims) (s t : string) :
  readClaim claims s t = None → claimAt claims s t = None.
Proof.
  unfold readClaim, claimAt. destruct (claims !! s) as [tasks|]; simpl; [|done].
  by intros [? _]%getProperty_None.
Qed.

Lemma readClaim_plain (claims : AllClaims) (s t : string) :
  inherited t = false → readClaim claims s t = Own <$> claimAt claims s t.
Proof.
  intros Ht. unfold readClaim, claimAt. destruct (claims !! s) as [tasks|]; simpl; [|done].
  by apply getProperty_plain.
Qed.

(** A read finds an inherited member exactly under a spec that has
    entries, at a member name where none of them is stored. *)
Lemma readClaim_Member (claims : AllClaims) (s t name : string) :
  readClaim claims s t = Some (Member name) ↔
  name = t ∧ inherited t = true ∧ claimAt claims s t = None ∧ is_Some (claims !! s).
Proof.
  unfold readClaim, claimAt. destruct (claims !! s) as [tasks|]; simpl.
  - rewrite getProperty_Member. split; [intros (? & ? & ?); eauto|tauto].
  - split; [done|]. by intros (_ & _ & _ & [? ?]).
Qed.

Lemma readCompletion_Own (completions : AllCompletions) (s t : string)
    (c : CompletionEntry) :
  readCompletion completions s t = Some (Own c) ↔ completionAt completions s t = Some c.
Proof.
  unfold readCompletion, completionAt.
  destruct (completions !! s) as [tasks|]; simpl; [|done].
  apply getProperty_Own.
Qed.

Lemma readCompletion_None (completions : AllCompletions) (s t : string) :
  readCompletion completions s t = None → completionAt completions s t = None.
Proof.
  unfold readCompletion, completionAt.
  destruct (completions !! s) as [tasks|]; simpl; [|done].
  by intros [? _]%getProperty_None.
Qed.


Lemma readCompletion_Member (completions : AllCompletions) (s t name : string) :
  readCompletion completions s t = Some (Member name) ↔
  name = t ∧ inherited t = true ∧ completionAt completions s t = None ∧
  is_Some (completions !! s).
Proof.
  unfold readCompletion, completionAt. destruct (completions !! s) as [tasks|]; simpl.
  - rewrite getProperty_Member. split; [intros (? & ? & ?); eauto|tauto].
  - split; [done|]. by intros (_ & _ & _ & [? ?]).
Qed.

(** [claim.agent === agent] holds only for an own entry of the agent. *)
Lemma agentOf_Some (found : Found ClaimEntry) (ag : string) :
  agentOf found = Some ag ↔ ∃ c, found = Own c ∧ agent c = ag.
Proof.
  destruct found as [c|name]; simpl.
  - split; [intros [= <-]; by exists c|by intros (c' & [= <-] & ->)].
  - split; [done|by intros (c' & ? & _)].
Qed.
End ReadFacts.


Section OperationFacts.
Import Swarm SwarmSpec.
Context `{Enumerate} `{!EnumerateSpec}.

Ltac run_swarm :=
  unfold claimTask, unclaimTask, completeTask, getClaims, withSwarmLock, when,
    readClaimsSync, readCompletionsSync, writeClaimsSync, writeCompletionsSync,
    mbind, M_bind, mret, M_ret; simpl.

Lemma owns_liveAll w claims ag s t :
  owns (liveAll w claims) ag s t ↔
  ∃ c, claimAt claims s t = Some c ∧ isClaimStale w c = false ∧ agent c = ag.
Proof.
  unfold owns. setoid_rewrite claimAt_liveAll. setoid_rewrite liveAt_Some.
  split; intros (c & Hc); exists c; tauto.
Qed.

(** What a failing call leaves behind: the claims file is rewritten only
    when stale claims were removed, and then with the live claims. *)
Lemma failing_path {R : Type} (w : World) (d : Disk) (res : R) :
  let cleaned := cleanupStaleClaims w (storedClaims d) in
  let out := (when (bool_decide (cleaned.2 > 0)) (writeClaimsSync cleaned.1) ≫=
                λ _, mret res) d in
  out.1 = res ∧
  completionsFile out.2 = completionsFile d ∧
  (∀ s t, claimAt (storedClaims out.2) s t = liveAt w (storedClaims d) s t) ∧
  (out.2 = d ∨
   journal out.2 = journal d ++ [WriteClaims (liveAll w (storedClaims d))]).
Proof.
  simpl. destruct (cleanupStaleClaims_spec w (storedClaims d)) as (Hlive & Hle & Hlt).
  run_swarm. case_bool_decide as Hrem; simpl.
  - split_and!; [done|done| |right; by rewrite Hlive].
    intros s t. unfold storedClaims at 1. simpl. rewrite Hlive.
    apply claimAt_liveAll.
  - split_and!; [done|done| |by left].
    intros s t. symmetry. apply cleanup_none_removed. lia.
Qed.

(** [claimTask], outcome by outcome; the slot is read in the claims that
    are left once the stale ones are removed. *)
Lemma claimTask_spec w now sp tk ag se p why d :
  let out := claimTask w now sp tk ag se p why d in
  completionsFile out.2 = completionsFile d ∧
  match out.1 with
  | AlreadyHaveClaim (s1, t1) =>
      owns (liveAll w (storedClaims d)) ag s1 t1 ∧
      (∀ s t, claimAt (storedClaims out.2) s t = liveAt w (storedClaims d) s t)
  | AlreadyClaimed found =>
      (∀ s t, ¬ owns (liveAll w (storedClaims d)) ag s t) ∧
      readClaim (liveAll w (storedClaims d)) sp tk = Some found ∧
      (∀ s t, claimAt (storedClaims out.2) s t = liveAt w (storedClaims d) s t)
  | ClaimSuccess stamp =>
      stamp = now ∧
      (∀ s t, ¬ owns (liveAll w (storedClaims d)) ag s t) ∧
      readClaim (liveAll w (storedClaims d)) sp tk = None ∧
      (∀ s t, claimAt (storedClaims out.2) s t =
              if bool_decide (s = sp ∧ t = tk) && negb (bool_decide (tk = "__proto__"))
              then Some (newClaimOf now ag se p why)
              else liveAt w (storedClaims d) s t)
  end.
Proof.
  cbv zeta.
  change (claimTask w now sp tk ag se p why d) with
    ((let '(claims, removed) := cleanupStaleClaims w (storedClaims d) in
      match findAgentClaim claims ag with
      | Some existing =>
          when (bool_decide (removed > 0)) (writeClaimsSync claims);;
          mret (AlreadyHaveClaim existing)
      | None =>
          match readClaim claims sp tk with
          | Some existingClaim =>
              when (bool_decide (removed > 0)) (writeClaimsSync claims);;
              mret (AlreadyClaimed existingClaim)
          | None =>
              let claims1 := match claims !! sp with
                             | None => <[sp := ∅]> claims
                             | Some _ => claims
                             end in
              writeClaimsSync
                (<[sp := setProperty (default ∅ (claims1 !! sp)) tk
                                     (newClaimOf now ag se p why)]> claims1);;
              mret (ClaimSuccess now)
          end
      end) d).
  destruct (cleanupStaleClaims_spec w (storedClaims d)) as (Hlive & _).
  pose proof (λ res, failing_path (R:=ClaimResult) w d res) as Hfail. simpl in Hfail.
  destruct (cleanupStaleClaims w (storedClaims d)) as [claims removed].
  simpl in Hlive, Hfail. subst claims.
  destruct (findAgentClaim (liveAll w (storedClaims d)) ag) as [[s1 t1]|] eqn:Hfind.
  - destruct (Hfail (AlreadyHaveClaim (s1, t1))) as (-> & Hcomp & Hclaims & _).
    split; [done|]. split; [|done]. by apply findAgentClaim_Some.
  - pose proof (findAgentClaim_None _ _ Hfind) as Hnone.
    destruct (readClaim (liveAll w (storedClaims d)) sp tk) as [found|] eqn:Hat.
    + destruct (Hfail (AlreadyClaimed found)) as (-> & Hcomp & Hclaims & _).
      done.
    + run_swarm. split; [done|]. split_and!; [done|done|done|].
      intros s t. unfold storedClaims at 1. simpl.
      unfold claimAt at 1. rewrite lookup_assign2.
      * by rewrite <- claimAt_liveAll.
      * by apply readClaim_None in Hat.
Qed.

Lemma unclaimTask_spec w sp tk ag d :
  let out := unclaimTask w sp tk ag d in
  completionsFile out.2 = completionsFile d ∧
  match out.1 with
  | UnclaimNotClaimed =>
      readClaim (liveAll w (storedClaims d)) sp tk = None ∧
      (∀ s t, claimAt (storedClaims out.2) s t = liveAt w (storedClaims d) s t)
  | UnclaimNotYourClaim owner =>
      (∃ found, readClaim (liveAll w (storedClaims d)) sp tk = Some found ∧
                agentOf found = owner ∧ owner ≠ Some ag) ∧
      (∀ s t, claimAt (storedClaims out.2) s t = liveAt w (storedClaims d) s t)
  | UnclaimSuccess =>
      (∃ c, liveAt w (storedClaims d) sp tk = Some c ∧ agent c = ag) ∧
      (∀ s t, claimAt (storedClaims out.2) s t =
              if bool_decide (s = sp ∧ t = tk) then None
              else liveAt w (storedClaims d) s t)
  end.
Proof.
  cbv zeta.
  change (unclaimTask w sp tk ag d) with
    ((let '(claims, removed) := cleanupStaleClaims w (storedClaims d) in
      match readClaim claims sp tk with
      | None =>
          when (bool_decide (removed > 0)) (writeClaimsSync claims);;
          mret UnclaimNotClaimed
      | Some claim =>
          if negb (bool_decide (agentOf claim = Some ag)) then
            when (bool_decide (removed > 0)) (writeClaimsSync claims);;
            mret (UnclaimNotYourClaim (agentOf claim))
          else
            writeClaimsSync (removeClaim claims sp tk);;
            mret UnclaimSuccess
      end) d).
  destruct (cleanupStaleClaims_spec w (storedClaims d)) as (Hlive & _).
  pose proof (λ res, failing_path (R:=UnclaimResult) w d res) as Hfail. simpl in Hfail.
  destruct (cleanupStaleClaims w (storedClaims d)) as [claims removed].
  simpl in Hlive, Hfail. subst claims.
  destruct (readClaim (liveAll w (storedClaims d)) sp tk) as [found|] eqn:Hat.
  - destruct (decide (agentOf found = Some ag)) as [Hag|Hag];
      [rewrite (bool_decide_eq_true_2 _ Hag) | rewrite (bool_decide_eq_false_2 _ Hag)];
      simpl.
    + apply agentOf_Some in Hag as (c & -> & Hag).
      apply readClaim_Own in Hat. rewrite claimAt_liveAll in Hat.
      run_swarm. split; [done|]. split; [by exists c|].
      intros s t. unfold storedClaims at 1. simpl.
      rewrite claimAt_removeClaim. by rewrite claimAt_liveAll.
    + destruct (Hfail (UnclaimNotYourClaim (agentOf found))) as (-> & Hcomp & Hclaims & _).
      split; [done|]. split; [|done]. by exists found.
  - destruct (Hfail UnclaimNotClaimed) as (-> & Hcomp & Hclaims & _). done.
Qed.

Lemma completeTask_spec w now sp tk ag remark d :
  let out := completeTask w now sp tk ag remark d in
  match out.1 with
  | AlreadyCompleted found =>
      readCompletion (storedCompletions d) sp tk = Some found ∧
      completionsFile out.2 = completionsFile d ∧
      (∀ s t, claimAt (storedClaims out.2) s t = liveAt w (storedClaims d) s t) ∧
      (out.2 = d ∨
       journal out.2 = journal d ++ [WriteClaims (liveAll w (storedClaims d))])
  | CompleteNotClaimed =>
      readCompletion (storedCompletions d) sp tk = None ∧
      readClaim (liveAll w (storedClaims d)) sp tk = None ∧
      completionsFile out.2 = completionsFile d ∧
      (∀ s t, claimAt (storedClaims out.2) s t = liveAt w (storedClaims d) s t) ∧
      (out.2 = d ∨
       journal out.2 = journal d ++ [WriteClaims (liveAll w (storedClaims d))])
  | CompleteNotYourClaim owner =>
      readCompletion (storedCompletions d) sp tk = None ∧
      (∃ found, readClaim (liveAll w (storedClaims d)) sp tk = Some found ∧
                agentOf found = owner ∧ owner ≠ Some ag) ∧
      completionsFile out.2 = completionsFile d ∧
      (∀ s t, claimAt (storedClaims out.2) s t = liveAt w (storedClaims d) s t) ∧
      (out.2 = d ∨
       journal out.2 = journal d ++ [WriteClaims (liveAll w (storedClaims d))])
  | CompleteSuccess stamp =>
      stamp = now ∧
      readCompletion (storedCompletions d) sp tk = None ∧
      (∃ c, liveAt w (storedClaims d) sp tk = Some c ∧ agent c = ag) ∧
      (∀ s t, claimAt (storedClaims out.2) s t =
              if bool_decide (s = sp ∧ t = tk) then None
              else liveAt w (storedClaims d) s t) ∧
      (∀ s t, completionAt (storedCompletions out.2) s t =
              if bool_decide (s = sp ∧ t = tk) && negb (bool_decide (tk = "__proto__"))
              then Some (newCompletionOf now ag remark)
              else completionAt (storedCompletions d) s t) ∧
      journal out.2 = journal d ++ [WriteCompletions (storedCompletions out.2);
                                    WriteClaims (storedClaims out.2)]
  end.
Proof.
  cbv zeta.
  change (completeTask w now sp tk ag remark d) with
    ((let '(claims, removed) := cleanupStaleClaims w (storedClaims d) in
      match readCompletion (storedCompletions d) sp tk with
      | Some existingCompletion =>
          when (bool_decide (removed > 0)) (writeClaimsSync claims);;
          mret (AlreadyCompleted existingCompletion)
      | None =>
          match readClaim claims sp tk with
          | None =>
              when (bool_decide (removed > 0)) (writeClaimsSync claims);;
              mret CompleteNotClaimed
          | Some claim =>
              if negb (bool_decide (agentOf claim = Some ag)) then
                when (bool_decide (removed > 0)) (writeClaimsSync claims);;
                mret (CompleteNotYourClaim (agentOf claim))
              else
                let completions1 :=
                  match storedCompletions d !! sp with
                  | None => <[sp := ∅]> (storedCompletions d)
                  | Some _ => storedCompletions d
                  end in
                writeCompletionsSync
                  (<[sp := setProperty (default ∅ (completions1 !! sp)) tk
                                       (newCompletionOf now ag remark)]> completions1);;
                writeClaimsSync (removeClaim claims sp tk);;
                mret (CompleteSuccess now)
          end
      end) d).
  destruct (cleanupStaleClaims_spec w (storedClaims d)) as (Hlive & _).
  pose proof (λ res, failing_path (R:=CompleteResult) w d res) as Hfail. simpl in Hfail.
  destruct (cleanupStaleClaims w (storedClaims d)) as [claims removed].
  simpl in Hlive, Hfail. subst claims.
  destruct (readCompletion (storedCompletions d) sp tk) as [comp|] eqn:Hcomp.
  - destruct (Hfail (AlreadyCompleted comp)) as (-> & ? & ? & ?). done.
  - destruct (readClaim (liveAll w (storedClaims d)) sp tk) as [found|] eqn:Hat.
    + destruct (decide (agentOf found = Some ag)) as [Hag|Hag];
        [rewrite (bool_decide_eq_true_2 _ Hag) | rewrite (bool_decide_eq_false_2 _ Hag)];
        simpl.
      * apply agentOf_Some in Hag as (c & -> & Hag).
        apply readClaim_Own in Hat. rewrite claimAt_liveAll in Hat.
        run_swarm. split_and!; [done|done|by exists c| | |].
        -- intros s t. unfold storedClaims at 1. simpl.
           rewrite claimAt_removeClaim. by rewrite claimAt_liveAll.
        -- intros s t. unfold storedCompletions at 1. simpl.
           unfold completionAt at 1. rewrite lookup_assign2; [done|].
           by apply readCompletion_None in Hcomp.
        -- by rewrite <- app_assoc.
      * destruct (Hfail (CompleteNotYourClaim (agentOf found))) as (-> & ? & ? & ?).
        split_and!; [done| |done|done|done]. by exists found.
    + destruct (Hfail CompleteNotClaimed) as (-> & ? & ? & ?). done.
Qed.

End OperationFacts.


Section SwarmInvariants.
Import Swarm SwarmSpec.
Context `{Enumerate} `{!EnumerateSpec}.

Lemma single_of_subset (claims claims' : AllClaims) :
  (∀ s t c, claimAt claims' s t = Some c → claimAt claims s t = Some c) →
  singleClaimPerAgent claims → singleClaimPerAgent claims'.
Proof.
  intros Hsub Hsingle ag s1 t1 s2 t2 (c1 & H1 & Hc1) (c2 & H2 & Hc2).
  apply (Hsingle ag); [exists c1 | exists c2]; auto.
Qed.

Lemma liveAt_sub w claims s t c :
  liveAt w claims s t = Some c → claimAt claims s t = Some c.
Proof. by intros [? _]%liveAt_Some. Qed.

(** Every claim stored after a call is a live claim stored before it, or
    the claim the call has just written. *)
Lemma perform_claims (call : Call) (d : Disk) (s t : string) (c : ClaimEntry) :
  claimAt (storedClaims (perform call d)) s t = Some c →
  liveAt (worldOf call) (storedClaims d) s t = Some c ∨ claimWritten call s t c.
Proof.
  destruct call as [w now sp tk ag se p why | w sp tk ag | w now sp tk ag remark]; simpl.
  - destruct (claimTask_spec w now sp tk ag se p why d) as [_ Hspec].
    destruct (claimTask w now sp tk ag se p why d) as [[stamp|conflict|[s1 t1]] d'];
      simpl in *.
    + destruct Hspec as (_ & _ & _ & Hclaims). rewrite Hclaims.
      destruct (bool_decide (s = sp ∧ t = tk) && negb (bool_decide (tk = "__proto__")))
        eqn:Hst; [|by left].
      apply andb_true_iff in Hst as [Hst _].
      apply bool_decide_eq_true in Hst as [-> ->]. intros [= <-]. by right.
    + destruct Hspec as (_ & _ & Hclaims). rewrite Hclaims. by left.
    + destruct Hspec as (_ & Hclaims). rewrite Hclaims. by left.
  - destruct (unclaimTask_spec w sp tk ag d) as [_ Hspec].
    destruct (unclaimTask w sp tk ag d) as [[| |owner] d']; simpl in *.
    + destruct Hspec as (_ & Hclaims). rewrite Hclaims.
      case_bool_decide; [done|by left].
    + destruct Hspec as (_ & Hclaims). rewrite Hclaims. by left.
    + destruct Hspec as (_ & Hclaims). rewrite Hclaims. by left.
  - pose proof (completeTask_spec w now sp tk ag remark d) as Hspec.
    destruct (completeTask w now sp tk ag remark d) as [[stamp| |owner|comp] d'];
      simpl in *.
    + destruct Hspec as (_ & _ & _ & Hclaims & _). rewrite Hclaims.
      case_bool_decide; [done|by left].
    + destruct Hspec as (_ & _ & _ & Hclaims & _). rewrite Hclaims. by left.
    + destruct Hspec as (_ & _ & _ & Hclaims & _). rewrite Hclaims. by left.
    + destruct Hspec as (_ & _ & Hclaims & _). rewrite Hclaims. by left.
Qed.

Lemma perform_single (call : Call) (d : Disk) :
  singleClaimPerAgent (storedClaims d) →
  singleClaimPerAgent (storedClaims (perform call d)).
Proof.
  intros Hsingle.
  destruct call as [w now sp tk ag se p why | w sp tk ag | w now sp tk ag remark];
    try (eapply single_of_subset; [|exact Hsingle];
         intros s t c Hc; apply perform_claims in Hc as [Hc|[]];
         by eapply liveAt_sub).
  simpl. destruct (claimTask_spec w now sp tk ag se p why d) as [_ Hspec].
  destruct (claimTask w now sp tk ag se p why d) as [[stamp|conflict|[s1 t1]] d'];
    simpl in *.
  - destruct Hspec as (_ & Hnone & _ & Hclaims).
    assert (∀ a s t, owns (storedClaims d') a s t →
              (s = sp ∧ t = tk ∧ a = ag) ∨
              (owns (liveAll w (storedClaims d)) a s t)) as Hcase.
    { intros a s t (c & Hc & Ha). rewrite Hclaims in Hc.
      destruct (bool_decide (s = sp ∧ t = tk) && negb (bool_decide (tk = "__proto__")))
        eqn:Hst.
      - apply andb_true_iff in Hst as [Hst _].
        apply bool_decide_eq_true in Hst as [-> ->]. injection Hc as <-. by left.
      - right. exists c. by rewrite claimAt_liveAll. }
    intros a s1 t1 s2 t2 H1 H2.
    destruct (Hcase _ _ _ H1) as [(-> & -> & ->)|H1'];
      destruct (Hcase _ _ _ H2) as [(-> & -> & Ha)|H2']; subst; try done.
    + by apply Hnone in H2'.
    + by apply Hnone in H1'.
    + apply owns_liveAll in H1' as (c1 & ? & _ & ?).
      apply owns_liveAll in H2' as (c2 & ? & _ & ?).
      apply (Hsingle a); [by exists c1 | by exists c2].
  - destruct Hspec as (_ & _ & Hclaims).
    eapply single_of_subset; [|exact Hsingle].
    intros s t c. rewrite Hclaims. apply liveAt_sub.
  - destruct Hspec as (_ & Hclaims).
    eapply single_of_subset; [|exact Hsingle].
    intros s t c. rewrite Hclaims. apply liveAt_sub.
Qed.

Lemma reachable_single (d : Disk) :
  reachable d → singleClaimPerAgent (storedClaims d).
Proof.
  induction 1 as [|call d Hd IH].
  - intros ag s1 t1 s2 t2 (c & Hc & _). done.
  - by apply perform_single.
Qed.

(** C1: single claim per agent.  In every state of the claims file
    reached between calls, each agent owns at most one claim across all
    specs; and [claimTask], called by an agent that holds a claim that is
    not stale, returns [already_have_claim] carrying a (spec, task id) at
    which that agent holds a live claim (the one it holds, when the file
    satisfies the invariant), and the file it leaves holds no claim
    besides the live ones it held before. *)
Theorem single_claim_per_agent :
  (∀ d, reachable d → singleClaimPerAgent (storedClaims d)) ∧
  (∀ w now sp tk ag se p why d s0 t0 c0,
     claimAt (storedClaims d) s0 t0 = Some c0 →
     agent c0 = ag →
     isClaimStale w c0 = false →
     let out := claimTask w now sp tk ag se p why d in
     ∃ s1 t1 c1,
       out.1 = AlreadyHaveClaim (s1, t1) ∧
       claimAt (storedClaims d) s1 t1 = Some c1 ∧
       agent c1 = ag ∧
       isClaimStale w c1 = false ∧
       (singleClaimPerAgent (storedClaims d) → s1 = s0 ∧ t1 = t0) ∧
       (∀ s t c, claimAt (storedClaims out.2) s t = Some c →
                 claimAt (storedClaims d) s t = Some c ∧ isClaimStale w c = false)).
Proof.
  split; [apply reachable_single|].
  intros w now sp tk ag se p why d s0 t0 c0 Hc0 Hag Hlive0. simpl.
  assert (owns (liveAll w (storedClaims d)) ag s0 t0) as Hown
    by (apply owns_liveAll; eauto).
  destruct (claimTask_spec w now sp tk ag se p why d) as [_ Hspec].
  destruct (claimTask w now sp tk ag se p why d) as [[stamp|conflict|[s1 t1]] d'];
    simpl in *.
  - destruct Hspec as (_ & Hnone & _). by apply Hnone in Hown.
  - destruct Hspec as (Hnone & _). by apply Hnone in Hown.
  - destruct Hspec as (Hown1 & Hclaims).
    apply owns_liveAll in Hown1 as (c1 & Hc1 & Hlive1 & Hag1).
    exists s1, t1, c1. split_and!; try done.
    + intros Hsingle. apply (Hsingle ag); [by exists c1 | by exists c0].
    + intros s t c. rewrite Hclaims. apply liveAt_Some.
Qed.

(** C2 (amended): completions are terminal for completion, not for
    claiming.  Once (spec, task id) is in the completions mapping, its
    entry stays as it is through every later sequence of claim, unclaim
    and complete calls, and every later [completeTask] for it returns
    [already_completed] with that entry.  [claimTask] does not consult
    completions: for a spec path and a task id that are not names of
    members that every object inherits, a claim on it succeeds exactly
    when the caller holds no live claim anywhere and the slot has no live
    claim. *)
Theorem completion_is_terminal (d : Disk) (sp tk : string) (comp : CompletionEntry) :
  completionAt (storedCompletions d) sp tk = Some comp →
  (∀ calls,
     completionAt (storedCompletions (performAll calls d)) sp tk = Some comp ∧
     ∀ w now ag remark,
       (completeTask w now sp tk ag remark (performAll calls d)).1 =
         AlreadyCompleted (Own comp)) ∧
  (inherited sp = false → inherited tk = false →
   ∀ w now ag se p why,
     (claimTask w now sp tk ag se p why d).1 = ClaimSuccess now ↔
     (∀ s t, liveAt w (storedClaims d) s t = None ∨
             ∃ c, liveAt w (storedClaims d) s t = Some c ∧ agent c ≠ ag) ∧
     liveAt w (storedClaims d) sp tk = None).
Proof.
  intros Hcomp. split.
  - assert (∀ call d0, completionAt (storedCompletions d0) sp tk = Some comp →
              completionAt (storedCompletions (perform call d0)) sp tk = Some comp)
      as Hstep.
    { intros call d0 Hd0.
      destruct call as [w now sp' tk' ag se p why | w sp' tk' ag | w now sp' tk' ag remark];
        simpl.
      - destruct (claimTask_spec w now sp' tk' ag se p why d0) as [Hfile _].
        unfold storedCompletions in *. by rewrite Hfile.
      - destruct (unclaimTask_spec w sp' tk' ag d0) as [Hfile _].
        unfold storedCompletions in *. by rewrite Hfile.
      - pose proof (completeTask_spec w now sp' tk' ag remark d0) as Hspec.
        destruct (completeTask w now sp' tk' ag remark d0) as [[stamp| |owner|c'] d'];
          simpl in *.
        + destruct Hspec as (_ & Hfree & _ & _ & Hcompl & _). rewrite Hcompl.
          destruct (bool_decide (sp = sp' ∧ tk = tk') &&
                    negb (bool_decide (tk' = "__proto__"))) eqn:Hst; [|done].
          apply andb_true_iff in Hst as [Hst _].
          apply bool_decide_eq_true in Hst as [-> ->].
          apply readCompletion_None in Hfree. congruence.
        + destruct Hspec as (_ & _ & Hfile & _).
          unfold storedCompletions in *. by rewrite Hfile.
        + destruct Hspec as (_ & _ & Hfile & _).
          unfold storedCompletions in *. by rewrite Hfile.
        + destruct Hspec as (_ & Hfile & _).
          unfold storedCompletions in *. by rewrite Hfile. }
    assert (∀ calls d0, completionAt (storedCompletions d0) sp tk = Some comp →
              completionAt (storedCompletions (performAll calls d0)) sp tk = Some comp)
      as Hall.
    { induction calls as [|call calls IH]; intros d0 Hd0; simpl; [done|].
      apply IH. by apply Hstep. }
    intros calls. split; [by apply Hall|].
    intros w now ag remark.
    pose proof (Hall calls d Hcomp) as Hlater.
    apply readCompletion_Own in Hlater.
    pose proof (completeTask_spec w now sp tk ag remark (performAll calls d)) as Hspec.
    destruct (completeTask w now sp tk ag remark (performAll calls d))
      as [[stamp| |owner|c'] d']; simpl in *.
    + destruct Hspec as (_ & Hfree & _). congruence.
    + destruct Hspec as (Hfree & _). congruence.
    + destruct Hspec as (Hfree & _). congruence.
    + destruct Hspec as (Hthere & _). congruence.
  - intros _ Htk w now ag se p why.
    destruct (claimTask_spec w now sp tk ag se p why d) as [_ Hspec].
    rewrite (readClaim_plain _ _ _ Htk), claimAt_liveAll in Hspec.
    assert ((∀ s t, ¬ owns (liveAll w (storedClaims d)) ag s t) ↔
              (∀ s t, liveAt w (storedClaims d) s t = None ∨
                      ∃ c, liveAt w (storedClaims d) s t = Some c ∧ agent c ≠ ag))
      as Hnone.
    { split.
      - intros Hno s t. destruct (liveAt w (storedClaims d) s t) as [c|] eqn:Hc; [|by left].
        right. exists c. split; [done|]. intros Hag. apply (Hno s t).
        exists c. by rewrite claimAt_liveAll.
      - intros Hno s t (c & Hc & Hag). rewrite claimAt_liveAll in Hc.
        destruct (Hno s t) as [Hn | (c' & Hc' & Hag')]; congruence. }
    destruct (claimTask w now sp tk ag se p why d) as [[stamp|conflict|[s1 t1]] d'];
      simpl in *.
    + destruct Hspec as (-> & Hno & Hfree & _).
      destruct (liveAt w (storedClaims d) sp tk); [done|].
      split; [|done]. intros _. split; [by apply Hnone|done].
    + destruct Hspec as (_ & Hat & _). split; [done|]. intros [_ Hfree].
      rewrite Hfree in Hat. done.
    + destruct Hspec as (Hown & _). split; [done|].
      intros [Hno _]. destruct Hnone as [_ Hback]. by apply (Hback Hno) in Hown.
Qed.
End SwarmInvariants.


Section SwarmClaims.
Import Swarm SwarmSpec.
Context `{Enumerate} `{!EnumerateSpec}.



End SwarmClaims.



(* ===================================================================== *)
(** * Properties of the crew store and of the work loop *)
(* ===================================================================== *)


Section CrewFacts.
Import Crew CrewSpec.
Context `{Enumerate} `{TaskSort}.


(** C6: task readiness.  [getReadyTasks] returns exactly the tasks whose
    status is todo and whose every dependency is the id of a task with
    status done, in the order of [getTasks] and without repetition beyond
    it. *)
Theorem ready_tasks_exact (d : CrewDir) :
  (∀ t, t ∈ getReadyTasks d ↔
        t ∈ getTasks d ∧ status t = todo ∧
        ∀ depId, depId ∈ depends_on t →
                 ∃ t', t' ∈ getTasks d ∧ id t' = depId ∧ status t' = done) ∧
  sublist (getReadyTasks d) (getTasks d).
Proof.
  unfold getReadyTasks. split; [|apply sublist_filter].
  intros t. rewrite list_elem_of_filter, Forall_forall.
  setoid_rewrite elem_of_list_to_set.
  setoid_rewrite list_elem_of_fmap.
  setoid_rewrite list_elem_of_filter.
  split.
  - intros [[Htodo Hdeps] Hin]. split_and!; [done|done|].
    intros depId Hdep. destruct (Hdeps depId Hdep) as (t' & -> & Hdone & Hin').
    by exists t'.
  - intros (Hin & Htodo & Hdeps). split; [|done]. split; [done|].
    intros depId Hdep. destruct (Hdeps depId Hdep) as (t' & Hin' & <- & Hdone).
    by exists t'.
Qed.

Lemma blockTask_any_status (now : string) (d : CrewDir) (taskId why : string) (t : Task) :
  getTask d taskId = Some t →
  ∃ u, (blockTask now d taskId why).1 = Some u ∧
       status u = blocked ∧ assigned_to u = None ∧ blocked_reason u = Some why ∧
       id u = id t ∧ title u = title t ∧
       getTask (blockTask now d taskId why).2 taskId = Some u ∧
       blockMd (blockTask now d taskId why).2 !! taskId =
         Some ("# Blocked: " +:+ title t +:+ nl +:+ nl +:+
               "**Reason:** " +:+ why +:+ nl +:+ nl +:+
               "**Blocked at:** " +:+ now +:+ nl).
Proof.
  intros Ht. unfold blockTask, updateTask, getTask in *. rewrite Ht. simpl.
  rewrite Ht. simpl. eexists. split_and!; try reflexivity.
  - apply lookup_insert_eq.
  - apply lookup_insert_eq.
Qed.
End CrewFacts.


Section WorkFacts.
Import Crew CrewSpec.
Context `{Enumerate} `{TaskSort}.



End WorkFacts.

Section ExecuteFacts.
Import Crew CrewSpec.
Context `{Enumerate} `{TaskSort}.
Variable spawnAgents : list Task → Z → CrewDir → list AgentResult * CrewDir.

(** In autonomous mode, with a plan, a worker and ready tasks, the state
    and the entries that [execute] returns are those of the wave epilogue,
    run on the directory the children and the classification loop leave. *)
Lemma execute_autonomous (now : string) (params : WorkParams) (dir : string)
    (configWorkers : Z) (d : CrewDir) (s : AutonomousState) (plan : Plan) :
  getPlan d = Some plan →
  getReadyTasks d ≠ [] →
  autonomous params = true →
  let concurrency := default configWorkers (concurrencyOverride params) in
  let tasksToRun := slice0 (getReadyTasks d) concurrency in
  let restart := negb (active s) || negb (bool_decide (cwd s = Some dir)) in
  let s1 := if restart then startAutonomous now dir s else s in
  let spawned := spawnAgents tasksToRun concurrency d in
  let wave := processResults now true (zip spawned.1 tasksToRun) spawned.2
                {| succeeded := []; failed := []; blockedIds := [] |} in
  let epilogue := waveEpilogue now plan wave.2 (waveNumber s1) tasksToRun wave.1 s1 in
  let out := execute spawnAgents now params dir true configWorkers d s in
  out.1.2 = epilogue.1 ∧
  out.2 = (if restart then [CrewState s1] else []) ++ epilogue.2.
Proof.
  intros Hplan Hready Hauto. simpl. unfold execute. rewrite Hplan, Hauto. simpl.
  assert (length (getReadyTasks d) ≠ 0%nat) as Hlen
    by (by intros ?%length_zero_iff_nil).
  rewrite (bool_decide_eq_false_2 _ Hlen).
  destruct (negb (active s) || negb (bool_decide (cwd s = Some dir)));
    destruct (spawnAgents _ _ d) as [results d1]; simpl;
    destruct (processResults _ _ _ d1 _) as [lists d2]; simpl;
    destruct (waveEpilogue _ _ d2 _ _ lists _) as [s2 log2]; done.
Qed.
End ExecuteFacts.


(** C8: the block transition.  [task.block] on a task whose status is todo
    (it was never started) answers with a blocked task and stores it as
    blocked: neither [taskBlock] nor [blockTask] looks at the status. *)
Lemma taskBlock_blocks_todo_task :
  let out := Crew.taskBlock "2024-05-01T10:00:00.000Z" CrewSpec.sampleDir
               (Some "task-2") (Some "waiting for a decision") in
  Crew.status <$> Crew.getTask CrewSpec.sampleDir "task-2" = Some Crew.todo ∧
  out.1 = Crew.BlockDone "task-2" "Printer" Crew.blocked (Some "waiting for a decision") ∧
  Crew.status <$> Crew.getTask out.2 "task-2" = Some Crew.blocked.
Proof. vm_compute. split_and!; reflexivity. Qed.


(** C3: the completion of a held claim is refused.  Alice has completed
    [TASK-1] and holds the claim on the task id [constructor] of the same
    spec; no completion is stored for that id.  [completeTask] answers
    [already_completed] all the same, carrying the member that the
    mapping of the spec's completions inherits under that name, and
    changes nothing: the read [completions[specPath]?.[taskId]] is not
    confined to stored entries. *)
Lemma completeTask_refuses_held_claim :
  let d := SwarmExamples.constructorClaimed in
  let out := @Swarm.completeTask SwarmSpec.listingOrder SwarmExamples.bothAlive
               "2024-05-01T13:00:00.000Z" SwarmExamples.specX "constructor" "Alice"
               (Some "done") d in
  SwarmSpec.liveAt SwarmExamples.bothAlive (SwarmSpec.storedClaims d)
    SwarmExamples.specX "constructor" =
    Some (SwarmSpec.newClaimOf "2024-05-01T12:00:00.000Z" "Alice" "sess-a" 100 None) ∧
  Swarm.completionAt (SwarmSpec.storedCompletions d) SwarmExamples.specX "constructor" =
    None ∧
  out.1 = Swarm.AlreadyCompleted (Member "constructor") ∧
  out.2 = d.
Proof. vm_compute. split_and!; reflexivity. Qed.


(* ===================================================================== *)
(** * The properties on concrete runs *)
(* ===================================================================== *)

Section Runs.
Import Swarm SwarmSpec SwarmExamples Crew CrewSpec PathExamples.
#[local] Existing Instance listingOrder.
#[local] Existing Instance numericOrder.

(** C1 on a run: Alice holds [TASK-1] and asks for [TASK-2]. *)
Lemma single_claim_per_agent_witness :
  singleClaimPerAgent (storedClaims afterClaim) ∧
  ∃ s1 t1,
    (claimTask bothAlive "2024-05-01T12:00:00.000Z" specX "TASK-2" "Alice" "sess-a"
               100 None afterClaim).1 = AlreadyHaveClaim (s1, t1) ∧
    s1 = specX ∧ t1 = "TASK-1".
Proof.
  destruct (@single_claim_per_agent listingOrder listingOrder_spec) as [Hinv Hclaim].
  assert (reachable afterClaim) as Hreach by apply reachable_step, reachable_fresh.
  split; [apply Hinv, Hreach|].
  destruct (Hclaim bothAlive "2024-05-01T12:00:00.000Z" specX "TASK-2" "Alice" "sess-a"
              100 None afterClaim specX "TASK-1" aliceClaim)
    as (s1 & t1 & c1 & Hres & _ & _ & _ & Huniq & _);
    [vm_compute; reflexivity | reflexivity | vm_compute; reflexivity |].
  exists s1, t1. split; [exact Hres|]. apply Huniq, Hinv, Hreach.
Defined.

(** C2 on a run: [TASK-1] is completed, Bob claims it and then tries to
    complete it. *)
Lemma completion_is_terminal_witness :
  (Swarm.completeTask bothAlive "2024-05-01T13:00:00.000Z" specX "TASK-1" "Bob" None
                (performAll [bobClaims] afterCompletion)).1 =
    AlreadyCompleted (Own aliceCompletion).
Proof.
  destruct (@completion_is_terminal listingOrder listingOrder_spec afterCompletion
              specX "TASK-1" aliceCompletion) as [Hlater _];
    [vm_compute; reflexivity|].
  apply Hlater.
Defined.



(** C5 on a run: [src/auth/] reserved from [/proj]. *)
Lemma reservation_nesting_witness :
  (Lib.normalizeReservationPath posixIsAbsolute posixResolve posixNormalize "/"
     "src/auth/" "/proj").2 = true ∧
  Lib.reservationMatches "/proj/src/auth/login.ts"
    {| Lib.path := "/proj/src/auth"; Lib.isDir := true; Lib.reason := None;
       Lib.since := "2024-05-01T10:00:00.000Z" |} = true.
Proof.
  destruct (reservation_nesting posixIsAbsolute posixResolve posixNormalize "/")
    as (Hdir & _ & _ & _ & Hslash).
  split; [apply Hslash; vm_compute; reflexivity|].
  apply Hdir; [reflexivity | discriminate | vm_compute; reflexivity |].
  right. exists "login.ts". vm_compute. reflexivity.
Defined.

(** C6 on a run: [task-2] is ready once [task-1] is done. *)
Lemma ready_tasks_exact_witness :
  sampleTask "task-2" "Printer" todo ["task-1"] None ∈ getReadyTasks sampleAfterWave.
Proof.
  destruct (ready_tasks_exact sampleAfterWave) as [Hiff _].
  apply Hiff. split_and!.
  - vm_compute. apply list_elem_of_In. simpl. right. left. reflexivity.
  - reflexivity.
  - intros depId Hdep. apply list_elem_of_In in Hdep. simpl in Hdep.
    destruct Hdep as [<-|[]].
    eexists. split_and!;
      [vm_compute; apply list_elem_of_In; simpl; left; reflexivity
      | reflexivity | reflexivity].
Defined.

(** C7 on a run: 1000 s after the last activity, with a claim, threshold
    900 s. *)
Lemma computeStatus_table_witness :
  Lib.status (Lib.computeStatus StatusExamples.sampleGetTime 1714558600000
                "2024-05-01T10:00:00.000Z" true false 900000) = Lib.stuck.
Proof.
  destruct (computeStatus_table StatusExamples.sampleGetTime 1714558600000
              "2024-05-01T10:00:00.000Z" true false 900000 1714557600000)
    as [Hrows _]; [reflexivity|].
  apply Hrows. reflexivity.
Defined.

(** C10 on a run: a timestamp that is not a date. *)
Lemma computeStatus_unparsed_or_future_witness :
  Lib.computeStatus (λ _, None) 1000000 "not a date" true true 900000 =
    {| Lib.status := Lib.active; Lib.idleFor := None |}.
Proof.
  apply (computeStatus_unparsed_or_future (λ _, None) 1000000 "not a date"
           true true 900000).
  left. reflexivity.
Defined.

End Runs.

(** C2: Alice claims and completes [TASK-1]; Bob then claims it. *)
Lemma completed_task_claimed_again :
  Swarm.completionAt (SwarmSpec.storedCompletions SwarmExamples.afterCompletion)
    SwarmExamples.specX "TASK-1" = Some SwarmExamples.aliceCompletion ∧
  (@Swarm.claimTask SwarmSpec.listingOrder SwarmExamples.bothAlive
     "2024-05-01T12:00:00.000Z" SwarmExamples.specX "TASK-1" "Bob" "sess-b" 200 None
     SwarmExamples.afterCompletion).1 = Swarm.ClaimSuccess "2024-05-01T12:00:00.000Z".
Proof. vm_compute. split; reflexivity. Qed.


(* ===================================================================== *)
(** * Further properties of lib.ts *)
(* ===================================================================== *)

Section NameFacts.
Import Lib.

Lemma allChars_app f front c back :
  allChars f (front +:+ String c back) = true → f c = true.
Proof.
  induction front as [|a front IH]; simpl.
  - by intros [? _]%andb_true_iff.
  - intros [_ ?]%andb_true_iff. by apply IH.
Qed.

Lemma isWordChar_isNameChar c : isWordChar c = true → isNameChar c = true.
Proof. unfold isNameChar. by intros ->. Qed.

(** X1: a valid agent name has between 1 and 50 characters, none of which
    is a slash, a backslash, a dot or white space, and it does not start
    with a hyphen; so [registry/<name>.json] names a file directly inside
    the registry directory. *)
Theorem valid_name_is_plain (name : string) :
  isValidAgentName name = true →
  (1 ≤ String.length name ≤ 50)%nat ∧
  ∀ front back c,
    name = front +:+ String c back →
    c ≠ "/"%char ∧ c ≠ "092"%char ∧ c ≠ "."%char ∧ isWhiteSpace c = false ∧
    (front = EmptyString → c ≠ "-"%char).
Proof.
  unfold isValidAgentName.
  destruct name as [|a rest]; [done|].
  rewrite (bool_decide_eq_false_2 (String a rest = EmptyString)) by done. simpl.
  case_bool_decide as Hlen; [done|].
  intros [Ha Hrest]%andb_true_iff.
  split; [simpl in *; lia|].
  intros front back c Heq.
  assert (isNameChar c = true) as Hc.
  { apply (allChars_app isNameChar front c back). rewrite <- Heq. simpl.
    by rewrite (isWordChar_isNameChar _ Ha). }
  split_and!; try (intros ->; vm_compute in Hc; discriminate).
  - destruct (isWhiteSpace c) eqn:Hws; [|done].
    unfold isWhiteSpace in Hws. apply orb_true_iff in Hws as [Hws|Hws].
    + destruct c as [[] [] [] [] [] [] [] []]; vm_compute in Hws, Hc; congruence.
    + apply bool_decide_eq_true in Hws as ->. vm_compute in Hc. discriminate.
  - intros Hfront Hcm. subst front c. simpl in Heq. injection Heq as Hfirst _.
    subst a. vm_compute in Ha. discriminate.
Qed.
End NameFacts.

Section DurationFacts.
Import Lib.

(** X2: for a whole number of milliseconds from 0 up to the largest
    integer that a number holds exactly (below 2^53) [formatDuration]
    shows hours and minutes from one hour on, minutes and seconds from
    one minute on, and seconds below; the second component is the
    remainder modulo 60, so it lies between 0 and 59. *)
Theorem formatDuration_ranges (ms : Z) :
  0 ≤ ms < 2 ^ 53 →
  formatDuration ms =
    (if bool_decide (3600000 ≤ ms)
     then pretty (ms `div` 3600000) +:+ "h " +:+ pretty ((ms `div` 60000) `mod` 60) +:+ "m"
     else if bool_decide (60000 ≤ ms)
     then pretty (ms `div` 60000) +:+ "m " +:+ pretty ((ms `div` 1000) `mod` 60) +:+ "s"
     else pretty (ms `div` 1000) +:+ "s") ∧
  0 ≤ (ms `div` 60000) `mod` 60 < 60 ∧
  0 ≤ (ms `div` 1000) `mod` 60 < 60.
Proof.
  intros [Hms _]. split; [|split; apply Z.mod_pos_bound; lia].
  unfold formatDuration.
  assert ((ms `div` 1000) `div` 60 = ms `div` 60000) as Hmin
    by (rewrite Z.div_div by lia; done).
  assert (((ms `div` 1000) `div` 60) `div` 60 = ms `div` 3600000) as Hhour
    by (rewrite !Z.div_div by lia; done).
  rewrite Hhour, Hmin.
  rewrite !Z.rem_mod_nonneg by (try lia; apply Z.div_pos; lia).
  assert (0 < ms `div` 3600000 ↔ 3600000 ≤ ms) as Hh.
  { split; intros Hx.
    - destruct (decide (3600000 ≤ ms)); [done|].
      rewrite Z.div_small in Hx by lia. lia.
    - apply Z.div_str_pos. lia. }
  assert (0 < ms `div` 60000 ↔ 60000 ≤ ms) as Hm.
  { split; intros Hx.
    - destruct (decide (60000 ≤ ms)); [done|].
      rewrite Z.div_small in Hx by lia. lia.
    - apply Z.div_str_pos. lia. }
  repeat case_bool_decide; try done; lia.
Qed.
End DurationFacts.

Section NestingFacts.
Import Lib.
Local Arguments String.append !_ _ /.

Lemma string_app_assoc (a b c : string) : (a +:+ b) +:+ c = a +:+ (b +:+ c).
Proof. induction a as [|x a IH]; simpl; [done|]. by rewrite IH. Qed.

Lemma string_app_nil_r (a : string) : a +:+ EmptyString = a.
Proof. induction a as [|x a IH]; simpl; [done|]. by rewrite IH. Qed.

Lemma string_app_not_longer (a b : string) : a +:+ b = a → b = EmptyString.
Proof.
  induction a as [|x a IH]; simpl; [done|]. intros [= Heq]. by apply IH.
Qed.

(** The prefix that a directory reservation compares with. *)
Lemma dir_prefix_extends (D : string) :
  ∃ tail, (if endsWith D "/" then D else D +:+ "/") = D +:+ tail.
Proof.
  destruct (endsWith D "/").
  - exists EmptyString. by rewrite string_app_nil_r.
  - by exists "/".
Qed.

(** X3: nesting composes.  When a directory reservation covers the path
    of a second reservation, it covers every target that the second one
    covers. *)
Theorem reservation_nesting_transitive (P : string) (r1 r2 : FileReservation) :
  isDir r1 = true →
  path r2 ≠ EmptyString →
  reservationMatches (path r2) r1 = true →
  reservationMatches P r2 = true →
  reservationMatches P r1 = true.
Proof.
  intros Hd1 Hne2 H12 H2.
  apply (reservationMatches_dir _ _ Hd1) in H12 as [_ H12].
  apply (reservationMatches_dir _ _ Hd1).
  destruct (isDir r2) eqn:Hd2.
  - apply (reservationMatches_dir _ _ Hd2) in H2 as [HP H2].
    split; [done|].
    destruct H2 as [-> | [rest2 ->]]; [done|].
    destruct H12 as [Heq | [rest1 Heq]].
    + right. rewrite Heq. by exists rest2.
    + destruct (dir_prefix_extends (path r2)) as [tail2 ->].
      right. exists (rest1 +:+ tail2 +:+ rest2).
      rewrite Heq at 1. by rewrite !string_app_assoc.
  - apply (reservationMatches_file _ _ Hd2) in H2 as [HP ->]. by split.
Qed.

(** X4: a directory reservation does not spill over to a sibling whose
    name merely extends the directory name, and a file reservation covers
    nothing below or beside its path. *)
Theorem reservation_stops_at_name_boundary (r : FileReservation) (c : ascii) (rest : string) :
  (isDir r = true → endsWith (path r) "/" = false → c ≠ "/"%char →
     reservationMatches (path r +:+ String c rest) r = false) ∧
  (isDir r = false → reservationMatches (path r +:+ String c rest) r = false).
Proof.
  split.
  - intros Hd Hend Hc.
    destruct (reservationMatches (path r +:+ String c rest) r) eqn:Hm; [|done].
    apply (reservationMatches_dir _ _ Hd) in Hm as [_ Hm]. rewrite Hend in Hm.
    destruct Hm as [Heq | [rest' Heq]].
    + by apply string_app_not_longer in Heq.
    + rewrite string_app_assoc in Heq. apply (inj (String.append (path r))) in Heq.
      simpl in Heq. by injection Heq as -> _.
  - intros Hd.
    destruct (reservationMatches (path r +:+ String c rest) r) eqn:Hm; [|done].
    apply (reservationMatches_file _ _ Hd) in Hm as [_ Heq].
    by apply string_app_not_longer in Heq.
Qed.
End NestingFacts.

(* ===================================================================== *)
(** * Properties of the reservation handlers and of enforcement *)
(* ===================================================================== *)

Section ListFacts.
Context {A : Type} (P : A → Prop) `{!∀ x, Decision (P x)}.

Lemma filter_all (l : list A) : Forall P l → filter P l = l.
Proof.
  induction 1 as [|x l Hx Hl IH]; [done|].
  rewrite filter_cons_True by done. by rewrite IH.
Qed.

Lemma filter_none (l : list A) : Forall (λ x, ¬ P x) l → filter P l = [].
Proof.
  induction 1 as [|x l Hx Hl IH]; [done|].
  by rewrite filter_cons_False.
Qed.
End ListFacts.

Section ReserveFacts.
Import Lib Reservations ReservationSpec.
Variable isAbsolute : string → bool.
Variable resolve : string → string → string.
Variable normalize : string → string.
Variable sep : string.
Variable relative : string → string → option string.

Local Abbreviation norm dir input :=
  (normalizeReservationPath isAbsolute resolve normalize sep input dir).
Local Abbreviation shownAs dir input :=
  (displayOf isAbsolute relative dir (norm dir input).1 (norm dir input).2).
Local Abbreviation untouched dir patterns :=
  (λ r, Forall (λ input, ¬ sameEntry r (norm dir input)) patterns).

Lemma sameEntry_unique now why (n : string * bool) (r : FileReservation) (i : string * bool) :
  r = reservationOf now why i → sameEntry r n → r = reservationOf now why n.
Proof. intros -> [Hp Hd]. simpl in *. destruct i, n; simpl in *. by subst. Qed.

Lemma reserve_fold now dir who why (patterns : list string)
    (rs : list FileReservation) (shown : list string) (events : list FeedEvent) :
  ∃ news,
    foldl (reserveOne isAbsolute resolve normalize sep relative now dir who why)
          (rs, shown, events) patterns =
      (filter (untouched dir patterns) rs ++ news,
       shown ++ ((λ input, shownAs dir input) <$> patterns),
       events ++ ((λ input, ReserveEvent who (shownAs dir input) why) <$> patterns)) ∧
    NoDup news ∧
    (∀ r, r ∈ news ↔
          ∃ input, input ∈ patterns ∧ r = reservationOf now why (norm dir input)).
Proof.
  induction patterns as [|x l IH] using rev_ind.
  - exists []. simpl. rewrite !app_nil_r. split_and!.
    + f_equal. f_equal. symmetry. apply filter_all, Forall_forall. intros. constructor.
    + constructor.
    + intros r. split; [by intros ?%elem_of_nil|]. by intros (? & ?%elem_of_nil & _).
  - destruct IH as (news & Hfold & Hnodup & Hnews).
    exists (filter (λ r, ¬ sameEntry r (norm dir x)) news ++
            [reservationOf now why (norm dir x)]).
    rewrite foldl_snoc, Hfold. unfold reserveOne at 1. cbn [fst snd].
    split_and!.
    + f_equal; [f_equal|].
      * rewrite filter_app, <- !(assoc (++)). f_equal.
        rewrite list_filter_filter. apply list_filter_iff. intros r.
        rewrite Forall_app, Forall_singleton. tauto.
      * by rewrite fmap_app, (assoc (++)).
      * by rewrite fmap_app, (assoc (++)).
    + apply NoDup_app. split_and!.
      * by apply NoDup_filter.
      * intros r [Hr _]%list_elem_of_filter ->%list_elem_of_singleton.
        by apply Hr.
      * apply NoDup_singleton.
    + intros r. rewrite elem_of_app, list_elem_of_filter, list_elem_of_singleton, Hnews.
      split.
      * intros [[_ (i & Hi & ->)] | ->].
        -- exists i. split; [|done]. apply elem_of_app. by left.
        -- exists x. split; [|done]. apply elem_of_app. right. by apply list_elem_of_singleton.
      * intros (i & [Hi | ->%list_elem_of_singleton]%elem_of_app & ->); [|by right].
        destruct (decide (sameEntry (reservationOf now why (norm dir i)) (norm dir x)))
          as [Hsame|Hdiff].
        -- right. by eapply sameEntry_unique.
        -- left. split; [done|]. by exists i.
Qed.

(** [executeReserve] for a registered agent and at least one pattern is
    the loop over the patterns. *)
Lemma executeReserve_loop now dir (state : HandlerState) (patterns : list string)
    (why : option string) :
  registered state = true →
  patterns ≠ [] →
  executeReserve isAbsolute resolve normalize sep relative now dir state patterns why =
    let '(rs, shown, events) :=
      foldl (reserveOne isAbsolute resolve normalize sep relative now dir
               (agentName state) why)
            (reservations state, [], []) patterns in
    (Reserved shown why,
     {| registered := true; agentName := agentName state; reservations := rs |},
     events).
Proof.
  intros Hreg Hne. unfold executeReserve. rewrite Hreg. cbn [negb].
  by rewrite bool_decide_eq_false_2 by (by destruct patterns).
Qed.

(** X5: [executeReserve] keeps one reservation per normalised pattern.
    For a registered agent and a non-empty list of patterns, the new
    reservation list is the old one without the entries that have the path
    and the directory flag of some pattern, in their order, followed by
    entries without repetition that are exactly the new entries of the
    patterns; one path is displayed and one feed event is logged per
    pattern, in the order of the patterns. *)
Theorem executeReserve_dedup now dir (state : HandlerState) (patterns : list string)
    (why : option string) :
  registered state = true →
  patterns ≠ [] →
  ∃ news,
    executeReserve isAbsolute resolve normalize sep relative now dir state patterns why =
      (Reserved ((λ input, shownAs dir input) <$> patterns) why,
       {| registered := true; agentName := agentName state;
          reservations := filter (untouched dir patterns) (reservations state) ++ news |},
       (λ input, ReserveEvent (agentName state) (shownAs dir input) why) <$> patterns) ∧
    NoDup news ∧
    (∀ r, r ∈ news ↔
          ∃ input, input ∈ patterns ∧ r = reservationOf now why (norm dir input)).
Proof.
  intros Hreg Hne. rewrite executeReserve_loop by done.
  destruct (reserve_fold now dir (agentName state) why patterns (reservations state) [] [])
    as (news & Hfold & Hnodup & Hnews).
  exists news. by rewrite Hfold.
Qed.

(** X6: releasing what was just reserved.  After [executeReserve] on a
    list of patterns, [executeRelease] on the same list leaves the
    reservations that the agent held before and that have neither the path
    and flag of a pattern; when no earlier reservation had such a key the
    agent is back to the list it had.  Releasing everything leaves no
    reservation and displays one path per reservation held. *)
Theorem release_after_reserve now dir (state : HandlerState) (patterns : list string)
    (why : option string) :
  registered state = true →
  patterns ≠ [] →
  let reserved :=
    (executeReserve isAbsolute resolve normalize sep relative now dir state patterns why).1.2 in
  let released :=
    executeRelease isAbsolute resolve normalize sep relative dir reserved
      (ReleasePaths patterns) in
  let releasedAll :=
    executeRelease isAbsolute resolve normalize sep relative dir reserved ReleaseAll in
  reservations released.1.2 = filter (untouched dir patterns) (reservations state) ∧
  (Forall (untouched dir patterns) (reservations state) →
   reservations released.1.2 = reservations state) ∧
  reservations releasedAll.1.2 = [] ∧
  (∃ shown, releasedAll.1.1 = Released shown ∧
            length shown = length (reservations reserved)).
Proof.
  intros Hreg Hne.
  rewrite executeReserve_loop by done.
  destruct (reserve_fold now dir (agentName state) why patterns (reservations state) [] [])
    as (news & -> & Hnodup & Hnews).
  cbn [fst snd app]. unfold executeRelease. cbn [registered negb reservations fst snd].
  assert (∀ r, ¬ Exists (sameEntry r) ((λ p, norm dir p) <$> patterns) ↔
               untouched dir patterns r) as Hmatch.
  { intros r. rewrite Exists_fmap. split.
    - apply not_Exists_Forall. intros; apply _.
    - apply Forall_not_Exists. }
  rewrite (list_filter_iff _ (untouched dir patterns)) by exact Hmatch.
  assert (filter (untouched dir patterns)
            (filter (untouched dir patterns) (reservations state) ++ news) =
          filter (untouched dir patterns) (reservations state)) as Hkept.
  { rewrite filter_app, list_filter_filter.
    rewrite (list_filter_iff _ (untouched dir patterns)) by (intros; simpl; tauto).
    rewrite (filter_none _ news); [apply app_nil_r|].
    apply Forall_forall. intros r (i & Hi & ->)%Hnews Hall.
    rewrite Forall_forall in Hall. by apply (Hall i Hi). }
  split_and!.
  - exact Hkept.
  - intros Hall. rewrite Hkept. by apply filter_all.
  - done.
  - eexists. split; [done|]. by rewrite length_fmap.
Qed.
End ReserveFacts.

Section EnforcementFacts.
Import Lib Reservations.
Variable isAbsolute : string → bool.
Variable resolve : string → string → string.
Variable normalize : string → string.
Variable basename : string → string.

(** The conflicts found are the matching reservations of the peers. *)
Lemma getConflicts_elem (filePath : string) (agents : list Peer) (processCwd : string)
    (c : ReservationConflict) :
  c ∈ getConflictsWithOtherAgents isAbsolute resolve normalize filePath agents processCwd ↔
  ∃ peer rs res,
    peer ∈ agents ∧ peer_reservations peer = Some rs ∧ res ∈ rs ∧
    reservationMatches (normalizeFsPath isAbsolute resolve normalize filePath processCwd) res
      = true ∧
    c = {| conflict_path := normalizeFsPath isAbsolute resolve normalize filePath processCwd;
           conflict_agent := name peer; reservationPath := path res;
           conflict_isDir := isDir res; conflict_reason := reason res;
           registration := peer |}.
Proof.
  unfold getConflictsWithOtherAgents. cbv zeta. rewrite list_elem_of_bind. split.
  - intros (peer & Hc & Hpeer).
    destruct (peer_reservations peer) as [rs|] eqn:Hrs; [|by apply elem_of_nil in Hc].
    apply list_elem_of_bind in Hc as (res & Hc & Hres).
    destruct (reservationMatches _ res) eqn:Hm; [|by apply elem_of_nil in Hc].
    apply list_elem_of_singleton in Hc. by exists peer, rs, res.
  - intros (peer & rs & res & Hpeer & Hrs & Hres & Hm & ->).
    exists peer. split; [|done]. rewrite Hrs. apply list_elem_of_bind.
    exists res. split; [|done]. rewrite Hm. by apply list_elem_of_singleton.
Qed.

(** X7: what the [tool_call] hook blocks.  A tool call is blocked exactly
    when the tool is [edit] or [write], its path is present and not empty,
    and some reservation published by some active peer matches the
    normalised path; every other tool, reads included, goes through
    whatever is reserved. *)
Theorem onToolCall_blocks_iff (toolName : string) (inputPath : option string)
    (agents : list Peer) (processCwd : string) :
  is_Some (onToolCall isAbsolute resolve normalize basename toolName inputPath agents
             processCwd) ↔
  (toolName = "edit" ∨ toolName = "write") ∧
  ∃ p, inputPath = Some p ∧ p ≠ EmptyString ∧
       ∃ peer rs res,
         peer ∈ agents ∧ peer_reservations peer = Some rs ∧ res ∈ rs ∧
         reservationMatches (normalizeFsPath isAbsolute resolve normalize p processCwd) res
           = true.
Proof.
  unfold onToolCall.
  destruct (decide (toolName = "edit" ∨ toolName = "write")) as [Htool|Htool].
  - assert (bool_decide (toolName = "edit") || bool_decide (toolName = "write") = true)
      as -> by (apply orb_true_iff; rewrite !bool_decide_eq_true; done).
    simpl. destruct inputPath as [p|].
    + case_bool_decide as Hp.
      * split; [by intros [? ?]|]. intros (_ & p' & [= <-] & Hne & _). done.
      * destruct (getConflictsWithOtherAgents _ _ _ p agents processCwd) as [|c cs] eqn:Hc.
        -- split; [by intros [? ?]|].
           intros (_ & p' & [= <-] & _ & peer & rs & res & Hpeer & Hrs & Hres & Hm).
           assert ({| conflict_path := normalizeFsPath isAbsolute resolve normalize p processCwd;
                      conflict_agent := name peer; reservationPath := path res;
                      conflict_isDir := isDir res; conflict_reason := reason res;
                      registration := peer |} ∈
                   getConflictsWithOtherAgents isAbsolute resolve normalize p agents processCwd)
             as Hin by (apply getConflicts_elem; by exists peer, rs, res).
           rewrite Hc in Hin. by apply elem_of_nil in Hin.
        -- split; [|by eexists]. intros _. split; [done|]. exists p. split_and!; [done..|].
           assert (c ∈ getConflictsWithOtherAgents isAbsolute resolve normalize p agents processCwd)
             as Hin by (rewrite Hc; apply list_elem_of_here).
           apply getConflicts_elem in Hin as (peer & rs & res & ? & ? & ? & ? & _).
           by exists peer, rs, res.
    + split; [by intros [? ?]|]. by intros (_ & p' & ? & _).
  - assert (bool_decide (toolName = "edit") || bool_decide (toolName = "write") = false)
      as ->.
    { apply orb_false_iff. rewrite !bool_decide_eq_false. tauto. }
    simpl. split; [by intros [? ?]|]. by intros [? _].
Qed.
End EnforcementFacts.

Section PresenceFacts.
Import Swarm SwarmSpec Presence.
Context `{Enumerate} `{!EnumerateSpec}.

(** X8: [agentHasTask] answers whether the agent is named by some claim of
    the claims mapping, under any spec and task id, or is the assignee of
    a crew task that is in progress. *)
Theorem agentHasTask_iff (agentName : string) (allClaims : AllClaims)
    (crewTasks : list Crew.Task) :
  agentHasTask agentName allClaims crewTasks = true ↔
  (∃ specPath taskId, owns allClaims agentName specPath taskId) ∨
  (∃ t, t ∈ crewTasks ∧ Crew.assigned_to t = Some agentName ∧
        Crew.status t = Crew.in_progress).
Proof.
  unfold agentHasTask.
  assert (existsb (λ tasks : SpecClaims,
                     existsb (λ claim, bool_decide (agent claim = agentName))
                             (entries tasks).*2)
                  (entries allClaims).*2 = true ↔
          ∃ specPath taskId, owns allClaims agentName specPath taskId) as Hclaims.
  { rewrite existsb_exists. split.
    - intros (tasks & Hin & Hex).
      apply list_elem_of_In, list_elem_of_fmap in Hin as ([s tk] & -> & Hin).
      apply elem_of_entries in Hin.
      apply existsb_exists in Hex as (c & Hc & Hag).
      apply list_elem_of_In, list_elem_of_fmap in Hc as ([t c'] & -> & Hc).
      apply elem_of_entries in Hc. apply bool_decide_eq_true in Hag.
      exists s, t, c'. unfold claimAt. rewrite Hin. simpl. done.
    - intros (s & t & c & Hat & Hag). unfold claimAt in Hat.
      destruct (allClaims !! s) as [tk|] eqn:Hs; simpl in Hat; [|done].
      exists tk. split.
      + apply list_elem_of_In, list_elem_of_fmap. exists (s, tk).
        split; [done|]. by apply elem_of_entries.
      + apply existsb_exists. exists c. split.
        * apply list_elem_of_In, list_elem_of_fmap. exists (t, c).
          split; [done|]. by apply elem_of_entries.
        * by apply bool_decide_eq_true. }
  destruct (existsb _ (entries allClaims).*2) eqn:Hex.
  - split; [|done]. intros _. left. by apply Hclaims.
  - rewrite existsb_exists. split.
    + intros (t & Hin & [Ha Hs]%andb_true_iff). right. exists t.
      apply list_elem_of_In in Hin. apply bool_decide_eq_true in Ha, Hs. done.
    + intros [Hown | (t & Hin & Ha & Hs)].
      * apply Hclaims in Hown. done.
      * exists t. split; [by apply list_elem_of_In|].
        apply andb_true_iff. by rewrite !bool_decide_eq_true.
Qed.
End PresenceFacts.

Section RegistryFacts.
Import Swarm Registry RegistrySpec.

Lemma findAlternative_spec (w : World) (baseName : string) (start len : nat) :
  match findAlternative w baseName (seq start len) with
  | Some n =>
      ∃ i, (start ≤ i < start + len)%nat ∧ n = baseName +:+ pretty i ∧
           ¬ heldByLive w n ∧
           ∀ j, (start ≤ j < i)%nat → heldByLive w (baseName +:+ pretty j)
  | None => ∀ j, (start ≤ j < start + len)%nat → heldByLive w (baseName +:+ pretty j)
  end.
Proof.
  revert start. induction len as [|len IH]; intros start; simpl; [intros; lia|].
  assert (∀ i, i = start → ¬ heldByLive w (baseName +:+ pretty start) →
     ∃ i, (start ≤ i < start + S len)%nat ∧
          baseName +:+ pretty start = baseName +:+ pretty i ∧
          ¬ heldByLive w (baseName +:+ pretty start) ∧
          ∀ j, (start ≤ j < i)%nat → heldByLive w (baseName +:+ pretty j)) as Hhere.
  { intros i -> Hfree. exists start. split_and!; [lia|lia|done|done|intros; lia]. }
  destruct (registry w !! (baseName +:+ pretty start)) as [[|reg]|] eqn:Hreg.
  - apply (Hhere start); [done|]. intros (reg & Hr & _). congruence.
  - destruct (isProcessAlive w (reg_pid reg)) eqn:Halive; simpl.
    + specialize (IH (S start)).
      assert (heldByLive w (baseName +:+ pretty start)) as Hheld by (by exists reg).
      destruct (findAlternative w baseName (seq (S start) len)) as [n|].
      * destruct IH as (i & Hi & -> & Hfree & Hbelow).
        exists i. split_and!; [lia|lia|done|done|].
        intros j Hj. destruct (decide (j = start)) as [->|]; [done|]. apply Hbelow. lia.
      * intros j Hj. destruct (decide (j = start)) as [->|]; [done|]. apply IH. lia.
    + apply (Hhere start); [done|]. intros (reg' & Hr & Hal). congruence.
  - apply (Hhere start); [done|]. intros (reg & Hr & _). congruence.
Qed.

(** X9: [findAvailableName] returns the base name when no live process of
    another agent holds it; otherwise the base name followed by the
    smallest number from 2 to 99 whose name is not held by a live process;
    and nothing when the base name and all 98 numbered names are held by
    live processes. *)
Theorem findAvailableName_smallest_free (w : World) (processPid : Z) (baseName : string) :
  match findAvailableName w processPid baseName with
  | Some n =>
      (n = baseName ∧ ¬ heldByOther w processPid baseName) ∨
      (heldByOther w processPid baseName ∧
       ∃ i, (2 ≤ i ≤ 99)%nat ∧ n = baseName +:+ pretty i ∧ ¬ heldByLive w n ∧
            ∀ j, (2 ≤ j < i)%nat → heldByLive w (baseName +:+ pretty j))
  | None =>
      heldByOther w processPid baseName ∧
      ∀ j, (2 ≤ j ≤ 99)%nat → heldByLive w (baseName +:+ pretty j)
  end.
Proof.
  unfold findAvailableName.
  destruct (registry w !! baseName) as [[|existing]|] eqn:Hreg.
  - left. split; [done|]. intros (reg & Hr & _). congruence.
  - destruct (isProcessAlive w (reg_pid existing)) eqn:Halive; cbn [negb orb].
    + case_bool_decide as Hpid.
      * left. split; [done|]. intros (reg & Hr & _ & Hne). congruence.
      * assert (heldByOther w processPid baseName) as Hother by (by exists existing).
        pose proof (findAlternative_spec w baseName 2 98) as Halt.
        destruct (findAlternative w baseName (seq 2 98)) as [n|]; simpl.
        -- right. split; [done|]. destruct Halt as (i & Hi & -> & Hfree & Hbelow).
           exists i. split_and!; [lia|lia|done|done|done].
        -- split; [done|]. intros j Hj. apply Halt. lia.
    + left. split; [done|]. intros (reg & Hr & Hal & _). congruence.
  - left. split; [done|]. intros (reg & Hr & _). congruence.
Qed.
End RegistryFacts.

Section RenameFacts.
Import Swarm Registry RegistrySpec.

End RenameFacts.

(* ===================================================================== *)
(** * Further properties of the swarm operations of store.ts *)
(* ===================================================================== *)

Section SwarmMore.
Import Swarm SwarmSpec SwarmShape.
Context `{Enumerate} `{!EnumerateSpec}.

Ltac run_swarm :=
  unfold claimTask, unclaimTask, completeTask, getClaims, getCompletions,
    getClaimsForSpec, getCompletionsForSpec, getAgentCurrentClaim,
    withSwarmLock, when,
    readClaimsSync, readCompletionsSync, writeClaimsSync, writeCompletionsSync,
    mbind, M_bind, mret, M_ret; simpl.

(** The result of [claimTask], read off the cleaned claims. *)
Lemma claimTask_result w now sp tk ag se p why d :
  (claimTask w now sp tk ag se p why d).1 =
  match findAgentClaim (liveAll w (storedClaims d)) ag with
  | Some existing => AlreadyHaveClaim existing
  | None =>
      match readClaim (liveAll w (storedClaims d)) sp tk with
      | Some found => AlreadyClaimed found
      | None => ClaimSuccess now
      end
  end.
Proof.
  change (claimTask w now sp tk ag se p why d) with
    ((let '(claims, removed) := cleanupStaleClaims w (storedClaims d) in
      match findAgentClaim claims ag with
      | Some existing =>
          when (bool_decide (removed > 0)) (writeClaimsSync claims);;
          mret (AlreadyHaveClaim existing)
      | None =>
          match readClaim claims sp tk with
          | Some existingClaim =>
              when (bool_decide (removed > 0)) (writeClaimsSync claims);;
              mret (AlreadyClaimed existingClaim)
          | None =>
              let claims1 := match claims !! sp with
                             | None => <[sp := ∅]> claims
                             | Some _ => claims
                             end in
              writeClaimsSync
                (<[sp := setProperty (default ∅ (claims1 !! sp)) tk
                                     (newClaimOf now ag se p why)]> claims1);;
              mret (ClaimSuccess now)
          end
      end) d).
  destruct (cleanupStaleClaims_spec w (storedClaims d)) as (Hlive & _).
  pose proof (λ res, failing_path (R:=ClaimResult) w d res) as Hfail. simpl in Hfail.
  destruct (cleanupStaleClaims w (storedClaims d)) as [claims removed].
  simpl in Hlive, Hfail. subst claims.
  destruct (findAgentClaim (liveAll w (storedClaims d)) ag) as [e|].
  - by destruct (Hfail (AlreadyHaveClaim e)) as (-> & _).
  - destruct (readClaim (liveAll w (storedClaims d)) sp tk) as [found|].
    + by destruct (Hfail (AlreadyClaimed found)) as (-> & _).
    + by run_swarm.
Qed.

Lemma liveAt_again w claims s t :
  (liveAt w claims s t ≫= λ c, if isClaimStale w c then None else Some c) =
  liveAt w claims s t.
Proof.
  unfold liveAt. destruct (claimAt claims s t) as [c|]; simpl; [|done].
  destruct (isClaimStale w c) eqn:Hc; simpl; [done|]. by rewrite Hc.
Qed.

Lemma noEmptySpec_liveAll w (claims : AllClaims) : noEmptySpec (liveAll w claims).
Proof.
  intros s tk. unfold liveAll. rewrite lookup_omap.
  destruct (claims !! s) as [tk0|]; simpl; [|done].
  case_bool_decide; [done|]. by intros [= <-].
Qed.

(** A spec is kept by the cleanup exactly when it has a live claim. *)
Lemma liveAll_is_Some w (claims : AllClaims) (s : string) :
  is_Some (liveAll w claims !! s) ↔ ∃ t c, liveAt w claims s t = Some c.
Proof.
  split.
  - intros [tasks Hs]. pose proof (noEmptySpec_liveAll w claims s tasks Hs) as Hne.
    destruct (map_choose _ Hne) as (t & c & Ht). exists t, c.
    rewrite <- claimAt_liveAll. unfold claimAt. by rewrite Hs.
  - intros (t & c & Hat). rewrite <- claimAt_liveAll in Hat. unfold claimAt in Hat.
    destruct (liveAll w claims !! s); [by eexists|done].
Qed.

(** What the read of a slot finds among the live claims. *)
Lemma readClaim_liveAll w (claims : AllClaims) (s t : string) :
  (inherited t = false →
     readClaim (liveAll w claims) s t = Own <$> liveAt w claims s t) ∧
  (∀ c, readClaim (liveAll w claims) s t = Some (Own c) ↔ liveAt w claims s t = Some c) ∧
  (∀ name, readClaim (liveAll w claims) s t = Some (Member name) ↔
     name = t ∧ inherited t = true ∧ liveAt w claims s t = None ∧
     ∃ t' c, liveAt w claims s t' = Some c).
Proof.
  split_and!.
  - intros Ht. by rewrite readClaim_plain, claimAt_liveAll.
  - intros c. by rewrite readClaim_Own, claimAt_liveAll.
  - intros name. by rewrite readClaim_Member, claimAt_liveAll, liveAll_is_Some.
Qed.

(** X10: the three outcomes of [claimTask] and their precedence, for a
    spec path that is no member name.  The call answers
    [already_have_claim] exactly when the caller holds a claim that is not
    stale, whatever the state of the slot asked for; otherwise
    [already_claimed] exactly when the read of the slot finds something,
    which it then carries; otherwise it succeeds, also on a slot whose
    stored claim is stale, and the slot then holds the caller's new entry,
    unless the task id is [__proto__].  For a task id that is no member
    name the read finds exactly the claim of the slot that is not stale;
    at a member name it also finds the inherited member when the slot has
    no such claim but some task of the spec has one. *)
Theorem claimTask_decision w now sp tk ag se p why d :
  inherited sp = false →
  let out := claimTask w now sp tk ag se p why d in
  let held := ∃ s t, owns (liveAll w (storedClaims d)) ag s t in
  let slot := readClaim (liveAll w (storedClaims d)) sp tk in
  ((∃ e, out.1 = AlreadyHaveClaim e) ↔ held) ∧
  (∀ found, out.1 = AlreadyClaimed found ↔ ¬ held ∧ slot = Some found) ∧
  (out.1 = ClaimSuccess now ↔ ¬ held ∧ slot = None) ∧
  (inherited tk = false → slot = Own <$> liveAt w (storedClaims d) sp tk) ∧
  (∀ name, slot = Some (Member name) ↔
     name = tk ∧ inherited tk = true ∧ liveAt w (storedClaims d) sp tk = None ∧
     ∃ t c, liveAt w (storedClaims d) sp t = Some c) ∧
  (out.1 = ClaimSuccess now → tk ≠ "__proto__" →
   claimAt (storedClaims out.2) sp tk = Some (newClaimOf now ag se p why)).
Proof.
  intros _. cbv zeta.
  destruct (claimTask_spec w now sp tk ag se p why d) as [_ Hspec].
  destruct (readClaim_liveAll w (storedClaims d) sp tk) as (Hplain & _ & Hmember).
  rewrite claimTask_result in *.
  destruct (findAgentClaim (liveAll w (storedClaims d)) ag) as [[s1 t1]|] eqn:Hfind.
  - assert (∃ s t, owns (liveAll w (storedClaims d)) ag s t) as Hheld
      by (exists s1, t1; by apply findAgentClaim_Some).
    split_and!; [split; eauto| |split; [done|tauto]|done|done|done].
    intros c. split; [done|tauto].
  - assert (¬ ∃ s t, owns (liveAll w (storedClaims d)) ag s t) as Hnot.
    { intros (s & t & Hown). by apply (findAgentClaim_None _ _ Hfind s t). }
    destruct (readClaim (liveAll w (storedClaims d)) sp tk) as [found|] eqn:Hat.
    + split_and!;
        [split; [by intros [? ?]|done]| |split; [done|by intros [_ ?]]|done|done|done].
      intros c'. split; [by intros [= <-]|by intros [_ [= <-]]].
    + destruct Hspec as (_ & _ & _ & Hclaims).
      split_and!; [split; [by intros [? ?]|done]| |done|done|done|].
      * intros c'. split; [done|by intros [_ ?]].
      * intros _ Hp. rewrite Hclaims. rewrite bool_decide_eq_true_2 by done.
        by rewrite (bool_decide_eq_false_2 _ Hp).
Qed.

(** X11: [unclaimTask], for a spec path that is no member name.  The call
    succeeds exactly when the read of the slot finds a stored claim of
    the caller; it answers [not_your_claim], with the [agent] field of
    what the read has found, exactly when that is something else, and
    [not_claimed] exactly when the read finds nothing.  For a task id that
    is no member name the read finds exactly the claim of the slot that is
    not stale.  A success empties the slot; in every case every other
    slot keeps its claim when it is not stale and loses it otherwise, and
    [completions.json] is not touched. *)
Theorem unclaimTask_semantics w sp tk ag d :
  inherited sp = false →
  let out := unclaimTask w sp tk ag d in
  let slot := readClaim (liveAll w (storedClaims d)) sp tk in
  (out.1 = UnclaimSuccess ↔
     ∃ c, liveAt w (storedClaims d) sp tk = Some c ∧ agent c = ag) ∧
  (∀ owner, out.1 = UnclaimNotYourClaim owner ↔
     ∃ found, slot = Some found ∧ agentOf found = owner ∧ owner ≠ Some ag) ∧
  (out.1 = UnclaimNotClaimed ↔ slot = None) ∧
  (inherited tk = false → slot = Own <$> liveAt w (storedClaims d) sp tk) ∧
  (out.1 = UnclaimSuccess → claimAt (storedClaims out.2) sp tk = None) ∧
  (∀ s t, ¬ (s = sp ∧ t = tk) →
          claimAt (storedClaims out.2) s t = liveAt w (storedClaims d) s t) ∧
  completionsFile out.2 = completionsFile d.
Proof.
  intros _. cbv zeta.
  destruct (unclaimTask_spec w sp tk ag d) as [Hcomp Hspec].
  destruct (readClaim_liveAll w (storedClaims d) sp tk) as (Hplain & Hown & _).
  destruct (unclaimTask w sp tk ag d) as [[| |owner] d']; simpl in *.
  - destruct Hspec as ((c & Hat & Hag) & Hclaims).
    pose proof (proj2 (Hown c) Hat) as Hslot.
    split_and!; [split; eauto| |split; [done|congruence]|done| | |done].
    + intros owner. split; [done|]. intros (found & Hf & Hagf & Hne).
      rewrite Hslot in Hf. injection Hf as <-. simpl in Hagf. congruence.
    + intros _. rewrite Hclaims. by rewrite bool_decide_eq_true_2.
    + intros s t Hst. rewrite Hclaims. by rewrite bool_decide_eq_false_2.
  - destruct Hspec as (Hat & Hclaims).
    split_and!; [split; [done|]| |done|done|done|done|done].
    + intros (c & Hat' & _). apply Hown in Hat'. congruence.
    + intros owner. split; [done|]. intros (found & Hf & _). congruence.
  - destruct Hspec as ((found & Hat & Hag & Hne) & Hclaims).
    split_and!; [split; [done|]| |split; [done|congruence]|done|done|done|done].
    + intros (c' & Hat' & Hag'). apply Hown in Hat'.
      rewrite Hat' in Hat. injection Hat as <-. simpl in Hag. congruence.
    + intros owner'. split.
      * intros [= <-]. eauto.
      * intros (found' & Hat' & Hag' & _). congruence.
Qed.

(** X12: claim, then unclaim.  For a spec path that is no member name and
    a task id other than [__proto__], when [claimTask] succeeds and the
    caller's new claim is not stale, [unclaimTask] by the same agent on
    the same slot succeeds, and the claims stored afterwards are, slot by
    slot, the claims stored before the claim that were not stale: the
    pair of calls only cleans up. *)
Theorem claim_then_unclaim w now sp tk ag se p why d :
  inherited sp = false →
  tk ≠ "__proto__" →
  let claimed := claimTask w now sp tk ag se p why d in
  let unclaimed := unclaimTask w sp tk ag claimed.2 in
  claimed.1 = ClaimSuccess now →
  isClaimStale w (newClaimOf now ag se p why) = false →
  unclaimed.1 = UnclaimSuccess ∧
  (∀ s t, claimAt (storedClaims unclaimed.2) s t = liveAt w (storedClaims d) s t) ∧
  completionsFile unclaimed.2 = completionsFile d.
Proof.
  intros _ Hp. cbv zeta. intros Hres Hfresh.
  destruct (claimTask_spec w now sp tk ag se p why d) as [Hcomp1 Hspec1].
  rewrite Hres in Hspec1. destruct Hspec1 as (_ & _ & Hfree & Hclaims1).
  apply readClaim_None in Hfree. rewrite claimAt_liveAll in Hfree.
  rewrite (bool_decide_eq_false_2 _ Hp) in Hclaims1.
  set (d1 := (claimTask w now sp tk ag se p why d).2) in *.
  assert (liveAt w (storedClaims d1) sp tk = Some (newClaimOf now ag se p why)) as Hmine.
  { apply liveAt_Some. split; [|done]. rewrite Hclaims1. by rewrite bool_decide_eq_true_2. }
  assert (∀ s t, ¬ (s = sp ∧ t = tk) →
                 liveAt w (storedClaims d1) s t = liveAt w (storedClaims d) s t) as Hother.
  { intros s t Hst. unfold liveAt at 1. rewrite Hclaims1.
    rewrite bool_decide_eq_false_2 by done. apply liveAt_again. }
  destruct (unclaimTask_spec w sp tk ag d1) as [Hcomp2 Hspec2].
  destruct (readClaim_liveAll w (storedClaims d1) sp tk) as (_ & Hown & _).
  apply Hown in Hmine.
  destruct (unclaimTask w sp tk ag d1) as [[| |owner] d2]; simpl in *.
  - destruct Hspec2 as (_ & Hclaims2). split_and!; [done| |congruence].
    intros s t. rewrite Hclaims2. case_bool_decide as Hst.
    + destruct Hst as [-> ->]. done.
    + by apply Hother.
  - destruct Hspec2 as (Hnone & _). congruence.
  - destruct Hspec2 as ((found & Hat & Hag & Hne) & _).
    rewrite Hmine in Hat. injection Hat as <-. done.
Qed.










(** X16: an agent is free again after a completion.  In a state reached
    from an empty base directory, once [completeTask] has succeeded for an
    agent, that agent holds no claim at all, so its next [claimTask],
    under any observation of processes and registry, is never answered
    [already_have_claim]: for a spec path that is no member name it is
    told what the read of the slot finds, and succeeds when that is
    nothing; for a task id that is no member name either, the read finds
    exactly the claim of the slot that is not stale. *)
Theorem free_after_completion w now sp tk ag remark d :
  let completed := completeTask w now sp tk ag remark d in
  reachable d →
  completed.1 = CompleteSuccess now →
  (∀ s t, ¬ owns (storedClaims completed.2) ag s t) ∧
  ∀ w' now' sp' tk' se p why,
    inherited sp' = false →
    (claimTask w' now' sp' tk' ag se p why completed.2).1 =
      match readClaim (liveAll w' (storedClaims completed.2)) sp' tk' with
      | Some found => AlreadyClaimed found
      | None => ClaimSuccess now'
      end ∧
    (inherited tk' = false →
     readClaim (liveAll w' (storedClaims completed.2)) sp' tk' =
       Own <$> liveAt w' (storedClaims completed.2) sp' tk').
Proof.
  cbv zeta. intros Hreach Hres.
  pose proof (completeTask_spec w now sp tk ag remark d) as Hspec.
  cbv zeta in Hspec. rewrite Hres in Hspec. destruct Hspec as (_ & _ & (c0 & Hat0 & Hag0) & Hclaims & _).
  set (d1 := (completeTask w now sp tk ag remark d).2) in *.
  assert (∀ s t, ¬ owns (storedClaims d1) ag s t) as Hfree.
  { intros s t (c & Hat & Hag). rewrite Hclaims in Hat.
    case_bool_decide as Hst; [done|].
    apply Hst, (reachable_single d Hreach ag).
    - exists c. split; [|done]. by eapply liveAt_sub.
    - exists c0. split; [|done]. by eapply liveAt_sub. }
  split; [done|].
  intros w' now' sp' tk' se p why _.
  split; [|apply readClaim_liveAll].
  rewrite claimTask_result.
  destruct (findAgentClaim (liveAll w' (storedClaims d1)) ag) as [[s t]|] eqn:Hfind; [|done].
  apply findAgentClaim_Some, owns_liveAll in Hfind as (c & Hat & _ & Hag).
  exfalso. apply (Hfree s t). by exists c.
Qed.

Lemma noEmptySpec_assign {A : Type} (m : gmap string (gmap string A)) (s t : string) (x : A) :
  t ≠ "__proto__" →
  noEmptySpec m →
  let m1 := match m !! s with None => <[s := ∅]> m | Some _ => m end in
  noEmptySpec (<[s := setProperty (default ∅ (m1 !! s)) t x]> m1).
Proof.
  intros Hp Hm m1 s' tk. unfold setProperty.
  rewrite (bool_decide_eq_false_2 _ Hp). simpl.
  destruct (decide (s' = s)) as [->|Hs].
  - rewrite lookup_insert_eq. intros [= <-]. apply insert_non_empty.
  - rewrite lookup_insert_ne by done. subst m1.
    destruct (m !! s); [apply Hm|]. rewrite lookup_insert_ne by done. apply Hm.
Qed.

Lemma noEmptySpec_removeClaim (claims : AllClaims) (s t : string) :
  noEmptySpec claims → noEmptySpec (removeClaim claims s t).
Proof.
  intros Hm s' tk. unfold removeClaim. case_bool_decide as Hlen.
  - destruct (decide (s' = s)) as [->|Hs]; [by rewrite lookup_delete_eq|].
    rewrite lookup_delete_ne, lookup_insert_ne by done. apply Hm.
  - destruct (decide (s' = s)) as [->|Hs].
    + rewrite lookup_insert_eq. intros [= <-]. by rewrite <- keys_empty_iff.
    + rewrite lookup_insert_ne by done. apply Hm.
Qed.

Lemma failing_path_shape {R : Type} (w : World) (d : Disk) (res : R) :
  let cleaned := cleanupStaleClaims w (storedClaims d) in
  let out := (when (bool_decide (cleaned.2 > 0)) (writeClaimsSync cleaned.1) ≫=
                λ _, mret res) d in
  noEmptySpec (storedClaims d) →
  noEmptySpec (storedClaims out.2) ∧ storedCompletions out.2 = storedCompletions d.
Proof.
  simpl. destruct (cleanupStaleClaims_spec w (storedClaims d)) as (Hlive & _).
  intros Hd. run_swarm. case_bool_decide; simpl; [|done].
  split; [|done]. unfold storedClaims at 1. simpl. rewrite Hlive.
  apply noEmptySpec_liveAll.
Qed.

Lemma perform_noEmptySpec (call : Call) (d : Disk) :
  taskOf call ≠ "__proto__" →
  noEmptySpec (storedClaims d) ∧ noEmptySpec (storedCompletions d) →
  noEmptySpec (storedClaims (perform call d)) ∧
  noEmptySpec (storedCompletions (perform call d)).
Proof.
  intros Hp [Hcl Hco].
  destruct call as [w now sp tk ag se p why | w sp tk ag | w now sp tk ag remark];
    unfold perform; simpl in Hp.
  - change (claimTask w now sp tk ag se p why d) with
      ((let '(claims, removed) := cleanupStaleClaims w (storedClaims d) in
        match findAgentClaim claims ag with
        | Some existing =>
            when (bool_decide (removed > 0)) (writeClaimsSync claims);;
            mret (AlreadyHaveClaim existing)
        | None =>
            match readClaim claims sp tk with
            | Some existingClaim =>
                when (bool_decide (removed > 0)) (writeClaimsSync claims);;
                mret (AlreadyClaimed existingClaim)
            | None =>
                let claims1 := match claims !! sp with
                               | None => <[sp := ∅]> claims
                               | Some _ => claims
                               end in
                writeClaimsSync
                  (<[sp := setProperty (default ∅ (claims1 !! sp)) tk
                                       (newClaimOf now ag se p why)]> claims1);;
                mret (ClaimSuccess now)
            end
        end) d).
    destruct (cleanupStaleClaims_spec w (storedClaims d)) as (Hlive & _).
    pose proof (λ res, failing_path_shape (R:=ClaimResult) w d res) as Hfail.
    simpl in Hfail.
    destruct (cleanupStaleClaims w (storedClaims d)) as [claims removed].
    simpl in Hlive, Hfail. subst claims.
    destruct (findAgentClaim (liveAll w (storedClaims d)) ag) as [e|].
    { destruct (Hfail (AlreadyHaveClaim e) Hcl) as [? ->]. done. }
    destruct (readClaim (liveAll w (storedClaims d)) sp tk) as [c|].
    { destruct (Hfail (AlreadyClaimed c) Hcl) as [? ->]. done. }
    run_swarm. split; [|done]. unfold storedClaims at 1. simpl.
    apply (noEmptySpec_assign (liveAll w (storedClaims d))); [done|].
    apply noEmptySpec_liveAll.
  - change (unclaimTask w sp tk ag d) with
      ((let '(claims, removed) := cleanupStaleClaims w (storedClaims d) in
        match readClaim claims sp tk with
        | None =>
            when (bool_decide (removed > 0)) (writeClaimsSync claims);;
            mret UnclaimNotClaimed
        | Some claim =>
            if negb (bool_decide (agentOf claim = Some ag)) then
              when (bool_decide (removed > 0)) (writeClaimsSync claims);;
              mret (UnclaimNotYourClaim (agentOf claim))
            else
              writeClaimsSync (removeClaim claims sp tk);;
              mret UnclaimSuccess
        end) d).
    destruct (cleanupStaleClaims_spec w (storedClaims d)) as (Hlive & _).
    pose proof (λ res, failing_path_shape (R:=UnclaimResult) w d res) as Hfail.
    simpl in Hfail.
    destruct (cleanupStaleClaims w (storedClaims d)) as [claims removed].
    simpl in Hlive, Hfail. subst claims.
    destruct (readClaim (liveAll w (storedClaims d)) sp tk) as [c|].
    + destruct (bool_decide (agentOf c = Some ag)); simpl.
      * run_swarm. split; [|done]. unfold storedClaims at 1. simpl.
        apply noEmptySpec_removeClaim, noEmptySpec_liveAll.
      * destruct (Hfail (UnclaimNotYourClaim (agentOf c)) Hcl) as [? ->]. done.
    + destruct (Hfail UnclaimNotClaimed Hcl) as [? ->]. done.
  - change (completeTask w now sp tk ag remark d) with
      ((let '(claims, removed) := cleanupStaleClaims w (storedClaims d) in
        match readCompletion (storedCompletions d) sp tk with
        | Some existingCompletion =>
            when (bool_decide (removed > 0)) (writeClaimsSync claims);;
            mret (AlreadyCompleted existingCompletion)
        | None =>
            match readClaim claims sp tk with
            | None =>
                when (bool_decide (removed > 0)) (writeClaimsSync claims);;
                mret CompleteNotClaimed
            | Some claim =>
                if negb (bool_decide (agentOf claim = Some ag)) then
                  when (bool_decide (removed > 0)) (writeClaimsSync claims);;
                  mret (CompleteNotYourClaim (agentOf claim))
                else
                  let completions1 :=
                    match storedCompletions d !! sp with
                    | None => <[sp := ∅]> (storedCompletions d)
                    | Some _ => storedCompletions d
                    end in
                  writeCompletionsSync
                    (<[sp := setProperty (default ∅ (completions1 !! sp)) tk
                                         (newCompletionOf now ag remark)]> completions1);;
                  writeClaimsSync (removeClaim claims sp tk);;
                  mret (CompleteSuccess now)
            end
        end) d).
    destruct (cleanupStaleClaims_spec w (storedClaims d)) as (Hlive & _).
    pose proof (λ res, failing_path_shape (R:=CompleteResult) w d res) as Hfail.
    simpl in Hfail.
    destruct (cleanupStaleClaims w (storedClaims d)) as [claims removed].
    simpl in Hlive, Hfail. subst claims.
    destruct (readCompletion (storedCompletions d) sp tk) as [comp|].
    { destruct (Hfail (AlreadyCompleted comp) Hcl) as [? ->]. done. }
    destruct (readClaim (liveAll w (storedClaims d)) sp tk) as [c|].
    + destruct (bool_decide (agentOf c = Some ag)); simpl.
      * run_swarm. split.
        -- unfold storedClaims at 1. simpl.
           apply noEmptySpec_removeClaim, noEmptySpec_liveAll.
        -- unfold storedCompletions at 1. simpl.
           by apply (noEmptySpec_assign (storedCompletions d)).
      * destruct (Hfail (CompleteNotYourClaim (agentOf c)) Hcl) as [? ->]. done.
    + destruct (Hfail CompleteNotClaimed Hcl) as [? ->]. done.
Qed.

Lemma performAll_snoc (calls : list Call) (call : Call) (d : Disk) :
  performAll (calls ++ [call]) d = perform call (performAll calls d).
Proof. unfold performAll. by rewrite foldl_app. Qed.

(** The key [__proto__] does not come into the files. *)
Lemma perform_noProtoKey (call : Call) (d : Disk) :
  noProtoKey (storedClaims d) ∧ noProtoKey (storedCompletions d) →
  noProtoKey (storedClaims (perform call d)) ∧
  noProtoKey (storedCompletions (perform call d)).
Proof.
  intros [Hcl Hco].
  assert (∀ w s, liveAt w (storedClaims d) s "__proto__" = None) as Hlive.
  { intros w s. destruct (liveAt w (storedClaims d) s "__proto__") as [c|] eqn:Hc; [|done].
    apply liveAt_sub in Hc. specialize (Hcl s). unfold claimAt in Hc. congruence. }
  assert (∀ (A : Type) (s sp tk : string) (x y : option A),
            y = None →
            (if bool_decide (s = sp ∧ "__proto__" = tk) &&
                negb (bool_decide (tk = "__proto__")) then x else y) = None) as Hslot.
  { intros A s sp tk x y ->. destruct (decide (tk = "__proto__")) as [Hp|Hp].
    - rewrite (bool_decide_eq_true_2 _ Hp). by rewrite andb_false_r.
    - rewrite (bool_decide_eq_false_2 (s = sp ∧ "__proto__" = tk)); [done|].
      intros [_ ?]. congruence. }
  destruct call as [w now sp tk ag se p why | w sp tk ag | w now sp tk ag remark];
    cbn [perform].
  - destruct (claimTask_spec w now sp tk ag se p why d) as [Hfile Hspec].
    split; [|unfold storedCompletions; rewrite Hfile; apply Hco].
    intros s. fold (claimAt (storedClaims (claimTask w now sp tk ag se p why d).2)
                      s "__proto__").
    destruct (claimTask w now sp tk ag se p why d) as [[stamp|found|[s1 t1]] d'];
      cbn [fst snd] in *.
    + destruct Hspec as (_ & _ & _ & ->). by apply Hslot.
    + destruct Hspec as (_ & _ & ->). apply Hlive.
    + destruct Hspec as (_ & ->). apply Hlive.
  - destruct (unclaimTask_spec w sp tk ag d) as [Hfile Hspec].
    split; [|unfold storedCompletions; rewrite Hfile; apply Hco].
    intros s. fold (claimAt (storedClaims (unclaimTask w sp tk ag d).2) s "__proto__").
    destruct (unclaimTask w sp tk ag d) as [[| |owner] d']; cbn [fst snd] in *.
    + destruct Hspec as (_ & ->).
      destruct (bool_decide (s = sp ∧ "__proto__" = tk)); [done|apply Hlive].
    + destruct Hspec as (_ & ->). apply Hlive.
    + destruct Hspec as (_ & ->). apply Hlive.
  - pose proof (completeTask_spec w now sp tk ag remark d) as Hspec.
    destruct (completeTask w now sp tk ag remark d) as [[stamp| |owner|found] d'];
      cbn [fst snd] in *.
    + destruct Hspec as (_ & _ & _ & Hclaims & Hcompl & _). split; intros s.
      * fold (claimAt (storedClaims d') s "__proto__"). rewrite Hclaims.
        destruct (bool_decide (s = sp ∧ "__proto__" = tk)); [done|apply Hlive].
      * fold (completionAt (storedCompletions d') s "__proto__"). rewrite Hcompl.
        apply Hslot, Hco.
    + destruct Hspec as (_ & _ & Hfile & Hclaims & _).
      split; [|unfold storedCompletions; rewrite Hfile; apply Hco].
      intros s. fold (claimAt (storedClaims d') s "__proto__"). rewrite Hclaims.
      apply Hlive.
    + destruct Hspec as (_ & _ & Hfile & Hclaims & _).
      split; [|unfold storedCompletions; rewrite Hfile; apply Hco].
      intros s. fold (claimAt (storedClaims d') s "__proto__"). rewrite Hclaims.
      apply Hlive.
    + destruct Hspec as (_ & Hfile & Hclaims & _).
      split; [|unfold storedCompletions; rewrite Hfile; apply Hco].
      intros s. fold (claimAt (storedClaims d') s "__proto__"). rewrite Hclaims.
      apply Hlive.
Qed.

(** X17: what the calls never store.  In every state reached from an
    empty base directory through [claimTask], [unclaimTask] and
    [completeTask] calls whose spec path is no member name, no mapping of
    [claims.json] or [completions.json] has the key [__proto__].  When
    moreover no call has the task id [__proto__], the two files hold no
    spec whose mapping of tasks is empty: a spec that loses its last
    claim is deleted with it. *)
Theorem no_empty_spec_stored (calls : list Call) :
  Forall plainSpec calls →
  let d := performAll calls freshDisk in
  (noProtoKey (storedClaims d) ∧ noProtoKey (storedCompletions d)) ∧
  (Forall storingCall calls →
   noEmptySpec (storedClaims d) ∧ noEmptySpec (storedCompletions d)).
Proof.
  intros _. cbv zeta. induction calls as [|call calls IH] using rev_ind.
  - split; [split; intros s; unfold storedClaims, storedCompletions; simpl;
            by rewrite lookup_empty|].
    intros _. split; intros s tk; unfold storedClaims, storedCompletions; simpl;
      by rewrite lookup_empty.
  - destruct IH as [Hproto Hempty]. rewrite performAll_snoc. split.
    + by apply perform_noProtoKey.
    + intros Hcalls. apply Forall_app in Hcalls as [Hcalls Hcall].
      apply Forall_cons_1 in Hcall as [Hcall _].
      apply perform_noEmptySpec; [exact Hcall|]. by apply Hempty.
Qed.
End SwarmMore.

(* ===================================================================== *)
(** * Further properties of the crew store and its handlers *)
(* ===================================================================== *)

Section LifecycleFacts.
Import Crew CrewShape.






End LifecycleFacts.


Section DecimalFacts.
Import Crew.
Local Arguments String.append !_ _ /.






End DecimalFacts.

Section KeysFacts.
Context `{Enumerate} `{!EnumerateSpec}.

End KeysFacts.

Section CreationFacts.
Import Crew CrewShape.
Context `{Enumerate} `{!EnumerateSpec}.






End CreationFacts.


Section StartFacts.
Import Crew CrewShape.
Context `{Enumerate} `{!EnumerateSpec} `{TaskSort} `{!TaskSortSpec}.



End StartFacts.


Section WaveFacts.
Import Crew CrewShape.
Context `{Enumerate} `{TaskSort}.

Lemma onlyBlocks_refl (d : CrewDir) : onlyBlocks d d.
Proof. split; [done|]. intros k. by left. Qed.

Lemma onlyBlocks_trans (d1 d2 d3 : CrewDir) :
  onlyBlocks d1 d2 → onlyBlocks d2 d3 → onlyBlocks d1 d3.
Proof.
  intros [Hp12 H12] [Hp23 H23]. split; [congruence|]. intros k.
  destruct (H12 k) as [Heq|(t & t' & Ht & Hst & Ht' & Hst')];
    destruct (H23 k) as [Heq'|(u & u' & Hu & Hsu & Hu' & Hsu')].
  - left. congruence.
  - right. exists u, u'. split_and!; congruence.
  - right. exists t, t'. split_and!; congruence.
  - rewrite Ht' in Hu. injection Hu as <-. congruence.
Qed.

Lemma onlyBlocks_blockTask (now : string) (d : CrewDir) (taskId why : string) (t : Task) :
  getTask d taskId = Some t → status t = in_progress →
  onlyBlocks d (blockTask now d taskId why).2.
Proof.
  intros Ht Hst. unfold onlyBlocks, blockTask. rewrite Ht.
  unfold updateTask, getTask in *. cbn. rewrite Ht. cbn.
  split; [done|]. intros k. destruct (decide (k = taskId)) as [->|Hk].
  - right. eexists t, _. split_and!; [done|done|apply lookup_insert_eq|done].
  - left. by rewrite lookup_insert_ne.
Qed.

Lemma onlyBlocks_status (d d' : CrewDir) (k : string) (st : TaskStatus) :
  onlyBlocks d d' → st ≠ in_progress →
  status <$> getTask d k = Some st → status <$> getTask d' k = Some st.
Proof.
  intros [_ Hd] Hne Hst. destruct (Hd k) as [->|(t & t' & Ht & Hip & _)]; [done|].
  rewrite Ht in Hst. simpl in Hst. congruence.
Qed.

Lemma processResults_spec (now : string) (auto : bool)
    (pairs : list (AgentResult * Task)) (d : CrewDir) (acc : WaveLists) :
  let out := processResults now auto pairs d acc in
  ∃ s f b,
    succeeded out.1 = succeeded acc ++ s ∧
    failed out.1 = failed acc ++ f ∧
    blockedIds out.1 = blockedIds acc ++ b ∧
    s ++ f ++ b ≡ₚ (λ p, id p.2) <$> pairs ∧
    (auto = false → out.2 = d) ∧
    onlyBlocks d out.2 ∧
    (∀ k, k ∈ s → status <$> getTask out.2 k = Some done) ∧
    (∀ k, k ∈ b → status <$> getTask out.2 k = Some blocked).
Proof.
  cbv zeta. revert d acc. induction pairs as [|[r t] pairs IH]; intros d acc.
  - exists [], [], []. simpl. rewrite !app_nil_r.
    split_and!; try done; [apply onlyBlocks_refl|..]; by intros ? ?%elem_of_nil.
  - cbn [processResults].
    destruct (bool_decide (exitCode r = 0)).
    + destruct (decide (status <$> getTask d (id t) = Some done)) as [Hdone|Hnd].
      * rewrite (bool_decide_eq_true_2 _ Hdone).
        destruct (IH d {| succeeded := succeeded acc ++ [id t]; failed := failed acc;
                          blockedIds := blockedIds acc |})
          as (s & f & b & Hs & Hf & Hb & Hperm & Hauto & Hmono & Hsd & Hbd).
        cbn in Hs, Hf, Hb. exists (id t :: s), f, b.
        split_and!; try done.
        -- by rewrite Hs, <- (assoc (++)).
        -- cbn. by rewrite Hperm.
        -- intros k [->|?]%elem_of_cons; [|by apply Hsd].
           by eapply onlyBlocks_status.
      * rewrite (bool_decide_eq_false_2 _ Hnd).
        destruct (decide (status <$> getTask d (id t) = Some blocked)) as [Hbl|Hnb].
        -- rewrite (bool_decide_eq_true_2 _ Hbl).
           destruct (IH d {| succeeded := succeeded acc; failed := failed acc;
                             blockedIds := blockedIds acc ++ [id t] |})
             as (s & f & b & Hs & Hf & Hb & Hperm & Hauto & Hmono & Hsd & Hbd).
           cbn in Hs, Hf, Hb. exists s, f, (id t :: b).
           split_and!; try done.
           ++ by rewrite Hb, <- (assoc (++)).
           ++ cbn. rewrite <- Hperm. by rewrite !Permutation_middle.
           ++ intros k [->|?]%elem_of_cons; [|by apply Hbd].
              by eapply onlyBlocks_status.
        -- rewrite (bool_decide_eq_false_2 _ Hnb).
           destruct (IH d {| succeeded := succeeded acc; failed := failed acc ++ [id t];
                             blockedIds := blockedIds acc |})
             as (s & f & b & Hs & Hf & Hb & Hperm & Hauto & Hmono & Hsd & Hbd).
           cbn in Hs, Hf, Hb. exists s, (id t :: f), b.
           split_and!; try done.
           ++ by rewrite Hf, <- (assoc (++)).
           ++ cbn. rewrite <- Hperm. by rewrite !Permutation_middle.
    + destruct auto; cbn [andb].
      * destruct (decide (status <$> getTask d (id t) = Some in_progress)) as [Hip|Hnip].
        -- rewrite (bool_decide_eq_true_2 _ Hip).
           match goal with |- context [processResults _ _ _ ?d1 ?acc1] =>
             destruct (IH d1 acc1)
               as (s & f & b & Hs & Hf & Hb & Hperm & Hauto & Hmono & Hsd & Hbd);
             set (d1' := d1) in * end.
           cbn in Hs, Hf, Hb.
           destruct (getTask d (id t)) as [t0|] eqn:Ht0; [|done].
           injection Hip as Hip.
           assert (onlyBlocks d d1') as Hstep by (by eapply onlyBlocks_blockTask).
           exists s, f, (id t :: b).
           split_and!; try done.
           ++ by rewrite Hb, <- (assoc (++)).
           ++ cbn. rewrite <- Hperm. by rewrite !Permutation_middle.
           ++ by eapply onlyBlocks_trans.
           ++ intros k [->|?]%elem_of_cons; [|by apply Hbd].
              eapply onlyBlocks_status; [done|done|].
              destruct (blockTask_any_status now d (id t)
                          ("Worker failed: " +:+ default "Unknown error" (error r)) t0 Ht0)
                as (u & _ & Hu & _ & _ & _ & _ & Hget & _).
              subst d1'. rewrite Hget. simpl. by rewrite Hu.
        -- rewrite (bool_decide_eq_false_2 _ Hnip).
           destruct (IH d {| succeeded := succeeded acc; failed := failed acc ++ [id t];
                             blockedIds := blockedIds acc |})
             as (s & f & b & Hs & Hf & Hb & Hperm & Hauto & Hmono & Hsd & Hbd).
           cbn in Hs, Hf, Hb. exists s, (id t :: f), b.
           split_and!; try done.
           ++ by rewrite Hf, <- (assoc (++)).
           ++ cbn. rewrite <- Hperm. by rewrite !Permutation_middle.
      * destruct (IH d {| succeeded := succeeded acc; failed := failed acc ++ [id t];
                          blockedIds := blockedIds acc |})
          as (s & f & b & Hs & Hf & Hb & Hperm & Hauto & Hmono & Hsd & Hbd).
        cbn in Hs, Hf, Hb. exists s, (id t :: f), b.
        split_and!; try done.
        -- by rewrite Hf, <- (assoc (++)).
        -- cbn. rewrite <- Hperm. by rewrite !Permutation_middle.
Qed.

End WaveFacts.


Section ExecuteMore.
Import Crew CrewShape.
Context `{Enumerate} `{TaskSort}.
Variable spawnAgents : list Task → Z → CrewDir → list AgentResult * CrewDir.

Lemma filter_length_all {A : Type} (P : A → Prop) `{!∀ x, Decision (P x)} (l : list A) :
  length (filter P l) = length l ↔ Forall P l.
Proof.
  induction l as [|x l IH]; [by split|].
  destruct (decide (P x)) as [Hx|Hx].
  - rewrite filter_cons_True by done. simpl. rewrite Forall_cons. split.
    + intros Hlen. split; [done|]. apply IH. lia.
    + intros [_ Hall]. f_equal. by apply IH.
  - rewrite filter_cons_False by done. simpl. rewrite Forall_cons. split; [|tauto].
    intros Hlen. pose proof (length_filter P l). lia.
Qed.

Lemma filter_length_pos {A : Type} (P : A → Prop) `{!∀ x, Decision (P x)} (l : list A) :
  (0 < length (filter P l))%nat ↔ Exists P l.
Proof.
  rewrite Exists_exists. split.
  - destruct (filter P l) as [|x k] eqn:Hf; simpl; [lia|]. intros _.
    assert (x ∈ filter P l) as Hin by (rewrite Hf; left).
    apply list_elem_of_filter in Hin as [? ?]. by exists x.
  - intros (x & Hin & Hx).
    assert (x ∈ filter P l) as Hf by (by apply list_elem_of_filter).
    destruct (filter P l); [by apply elem_of_nil in Hf|simpl; lia].
Qed.

Lemma slice0_prefix {A : Type} (l : list A) (n : Z) :
  slice0 l n `prefix_of` l ∧ (0 ≤ n → Z.of_nat (length (slice0 l n)) ≤ n).
Proof.
  unfold slice0. case_bool_decide.
  - split; [|lia]. eexists. symmetry. apply take_drop.
  - split; [eexists; symmetry; apply take_drop|]. rewrite length_take. lia.
Qed.

(** X25: what a call of [work] leaves alone.  Without plan, without the
    worker agent, or without ready task, [work] changes neither the
    project directory nor the autonomous state and appends no entry; the
    reason it gives for an idle project is, in this order, that all tasks
    are done, that some are in progress, that some are blocked, that
    dependencies are unmet.  Otherwise the tasks handed to workers are the
    first ready tasks, at most [concurrency] of them when that number is
    not negative; and outside autonomous mode the wave number reported is
    1, the autonomous state is untouched, no entry is appended and the
    directory is the one the workers leave. *)
Theorem execute_frame (now : string) (params : WorkParams) (dir : string)
    (hasWorker : bool) (configWorkers : Z) (d : CrewDir) (s : AutonomousState) :
  let out := execute spawnAgents now params dir hasWorker configWorkers d s in
  let concurrency := default configWorkers (concurrencyOverride params) in
  match out.1.1.1 with
  | WorkNoPlan => getPlan d = None ∧ out = (WorkNoPlan, d, s, [])
  | WorkNoWorker =>
      is_Some (getPlan d) ∧ hasWorker = false ∧ out = (WorkNoWorker, d, s, [])
  | WorkNoReady why inProgressIds blockedNow =>
      is_Some (getPlan d) ∧ hasWorker = true ∧ getReadyTasks d = [] ∧
      out.1.1.2 = d ∧ out.1.2 = s ∧ out.2 = [] ∧
      why = (if decide (Forall (λ t, status t = done) (getTasks d)) then AllTasksDone
             else if decide (Exists (λ t, status t = in_progress) (getTasks d))
                  then TasksInProgress
             else if decide (Exists (λ t, status t = blocked) (getTasks d))
                  then TasksBlocked
             else UnmetDependencies)
  | WorkWave wave attempted _ _ _ nextReady was_autonomous =>
      is_Some (getPlan d) ∧ hasWorker = true ∧ getReadyTasks d ≠ [] ∧
      attempted `prefix_of` (id <$> getReadyTasks d) ∧
      (0 ≤ concurrency → Z.of_nat (length attempted) ≤ concurrency) ∧
      was_autonomous = autonomous params ∧
      nextReady = id <$> getReadyTasks out.1.1.2 ∧
      (autonomous params = false →
       wave = 1 ∧ out.1.2 = s ∧ out.2 = [] ∧
       out.1.1.2 =
         (spawnAgents (slice0 (getReadyTasks d) concurrency) concurrency d).2)
  end.
Proof.
  cbv zeta. unfold execute.
  destruct (getPlan d) as [plan|] eqn:Hplan; [|done].
  destruct hasWorker; cbn [negb]; [|split_and!; by eauto].
  destruct (decide (length (getReadyTasks d) = 0%nat)) as [Hlen|Hlen].
  - rewrite (bool_decide_eq_true_2 _ Hlen). cbn [fst snd].
    apply length_zero_iff_nil in Hlen.
    split_and!; try done; try (by eexists).
    destruct (decide (Forall (λ t, status t = done) (getTasks d))) as [Hall|Hall].
    { rewrite bool_decide_eq_true_2; [done|]. by apply filter_length_all. }
    rewrite bool_decide_eq_false_2 by (by rewrite filter_length_all).
    destruct (decide (Exists (λ t, status t = in_progress) (getTasks d))) as [Hip|Hip].
    { rewrite bool_decide_eq_true_2; [done|]. by apply filter_length_pos. }
    rewrite bool_decide_eq_false_2 by (by rewrite filter_length_pos).
    destruct (decide (Exists (λ t, status t = blocked) (getTasks d))) as [Hbl|Hbl].
    { rewrite bool_decide_eq_true_2; [done|]. by apply filter_length_pos. }
    by rewrite bool_decide_eq_false_2 by (by rewrite filter_length_pos).
  - rewrite (bool_decide_eq_false_2 _ Hlen).
    assert (getReadyTasks d ≠ []) as Hready by (by intros ?%length_zero_iff_nil).
    set (concurrency := default configWorkers (concurrencyOverride params)).
    set (tasksToRun := slice0 (getReadyTasks d) concurrency).
    destruct (slice0_prefix (getReadyTasks d) concurrency) as [Hprefix Hbound].
    fold tasksToRun in Hprefix, Hbound.
    assert (id <$> tasksToRun `prefix_of` id <$> getReadyTasks d) as Hids.
    { destruct Hprefix as [rest ->]. rewrite fmap_app. by eexists. }
    destruct (autonomous params) eqn:Hauto; cbn [andb].
    + destruct (negb (active s) || negb (bool_decide (cwd s = Some dir)));
        destruct (spawnAgents tasksToRun concurrency d) as [results d1];
        destruct (processResults now true (zip results tasksToRun) d1 _) as [lists d2];
        destruct (waveEpilogue now plan d2 _ tasksToRun lists _) as [s2 log2];
        cbn [fst snd]; split_and!; try done; try (by eexists);
        try (by rewrite length_fmap).
    + pose proof (processResults_spec now false
                    (zip (spawnAgents tasksToRun concurrency d).1 tasksToRun)
                    (spawnAgents tasksToRun concurrency d).2
                    {| succeeded := []; failed := []; blockedIds := [] |})
        as (_ & _ & _ & _ & _ & _ & _ & Hsame & _).
      specialize (Hsame eq_refl).
      destruct (spawnAgents tasksToRun concurrency d) as [results d1].
      cbn [fst snd] in Hsame.
      destruct (processResults now false (zip results tasksToRun) d1 _) as [lists d2].
      cbn [fst snd] in *. subst d2.
      split_and!; try done; try (by eexists); try (by rewrite length_fmap).
Qed.
End ExecuteMore.

Section HookFacts.
Import Crew CrewShape.
Context `{Enumerate} `{TaskSort}.

(** X26: the [agent_end] hook settles.  The run is still active after the
    hook exactly when it was active, the wave number is below [maxWaves]
    and some task is ready; the hook then changes nothing and sends the
    continuation steer.  In every other case the run is inactive
    afterwards: an inactive run is left as it is, without any effect, and
    an active one is stopped at the time of the hook with a stop reason
    recorded; and once the run is inactive every later [agent_end] does
    nothing.  Without user interface a stop notifies nobody. *)
Theorem onAgentEnd_settles (now : string) (maxWaves : Z) (hasUI : bool)
    (d : CrewDir) (s : AutonomousState) :
  let out := onAgentEnd now maxWaves hasUI d s in
  (active out.1 = true ↔
     active s = true ∧ waveNumber s < maxWaves ∧ getReadyTasks d ≠ []) ∧
  (active out.1 = true →
   out = (s, [SteerContinue (waveNumber s) (length (getReadyTasks d))])) ∧
  (active s = false → out = (s, [])) ∧
  (active s = true → active out.1 = false →
   stoppedAt out.1 = Some now ∧ is_Some (stopReason out.1) ∧
   waveNumber out.1 = waveNumber s ∧ waveHistory out.1 = waveHistory s) ∧
  (active out.1 = false →
   ∀ later maxWaves' hasUI' d', onAgentEnd later maxWaves' hasUI' d' out.1 = (out.1, [])) ∧
  (hasUI = false → active out.1 = false → out.2 = []).
Proof.
  cbv zeta. destruct (active s) eqn:Hact.
  - destruct (decide (waveNumber s >= maxWaves)) as [Hmax|Hmax].
    + assert (onAgentEnd now maxWaves hasUI d s =
              (stopAutonomous now StopManual s,
               if hasUI then [NotifyMaxWaves maxWaves] else [])) as ->.
      { unfold onAgentEnd. rewrite Hact. cbn [negb]. by rewrite bool_decide_eq_true_2. }
      cbn [fst snd]. split_and!.
      * cbn. split; [done|]. intros (_ & ? & _). lia.
      * by cbn.
      * done.
      * intros _ _. cbn. eauto.
      * intros _ later maxWaves' hasUI' d'. by unfold onAgentEnd.
      * by intros -> _.
    + destruct (decide (length (getReadyTasks d) = 0%nat)) as [Hlen|Hlen].
      * assert (∃ why notes, onAgentEnd now maxWaves hasUI d s =
                  (stopAutonomous now why s, if hasUI then notes else [])) as
          (why & notes & ->).
        { unfold onAgentEnd. rewrite Hact. cbn [negb].
          rewrite (bool_decide_eq_false_2 _ Hmax), (bool_decide_eq_true_2 _ Hlen).
          destruct (forallb _ (getTasks d)); by eexists _, _. }
        apply length_zero_iff_nil in Hlen.
        cbn [fst snd]. split_and!.
        -- cbn. split; [done|]. by intros (_ & _ & ?).
        -- by cbn.
        -- done.
        -- intros _ _. cbn. eauto.
        -- intros _ later maxWaves' hasUI' d'. by unfold onAgentEnd.
        -- by intros -> _.
      * assert (onAgentEnd now maxWaves hasUI d s =
                (s, [SteerContinue (waveNumber s) (length (getReadyTasks d))])) as ->.
        { unfold onAgentEnd. rewrite Hact. cbn [negb].
          by rewrite (bool_decide_eq_false_2 _ Hmax), (bool_decide_eq_false_2 _ Hlen). }
        cbn [fst snd]. rewrite Hact. split_and!; try done.
        split; [|done]. intros _. split_and!; [done|lia|].
        by intros ?%length_zero_iff_nil.
  - assert (onAgentEnd now maxWaves hasUI d s = (s, [])) as ->
      by (unfold onAgentEnd; by rewrite Hact).
    cbn [fst snd]. rewrite Hact. split_and!; try done.
    + split; [done|]. by intros [? _].
    + intros _ later maxWaves' hasUI' d'. unfold onAgentEnd. by rewrite Hact.
Qed.
End HookFacts.

Section StateFacts.
Import Crew CrewShape.

Lemma restore_entryData (saved current : AutonomousState) :
  restoreAutonomousState (entryData saved) current = saved.
Proof. by destruct saved. Qed.

Lemma restoreFromSession_app (l k : list Entry) (s : AutonomousState) :
  restoreFromSession (l ++ k) s = restoreFromSession k (restoreFromSession l s).
Proof. unfold restoreFromSession. apply foldl_app. Qed.
End StateFacts.

Section RestoreFacts.
Import Crew CrewShape.
Context `{Enumerate} `{TaskSort}.
Variable spawnAgents : list Task → Z → CrewDir → list AgentResult * CrewDir.

Lemma waveEpilogue_log (now : string) (plan : Plan) (d : CrewDir) (wave : Z)
    (tasksToRun : list Task) (lists : WaveLists) (s : AutonomousState) :
  ∃ e, (waveEpilogue now plan d wave tasksToRun lists s).2 =
         [CrewState (waveEpilogue now plan d wave tasksToRun lists s).1; e] ∧
       ∀ saved, e ≠ CrewState saved.
Proof.
  unfold waveEpilogue.
  destruct (forallb _ (getTasks d)); [by eexists|].
  destruct (_ || _); by eexists.
Qed.

(** X28: what a restarted session restores.  After an autonomous call of
    [work] that ran a wave, the [session_start] loop over the session
    entries, whatever entries came before and whatever the state object
    holds, rebuilds exactly the state that [work] left.  The [agent_end]
    hook appends no entry: when it stops the run after that call, a
    restart restores the state of before the stop, where the run is
    active whenever [work] left it active. *)
Theorem session_restores_last_wave (now later : string) (params : WorkParams)
    (dir : string) (configWorkers maxWaves : Z) (hasUI : bool) (d : CrewDir)
    (s current : AutonomousState) (earlier : list Entry) :
  is_Some (getPlan d) →
  getReadyTasks d ≠ [] →
  autonomous params = true →
  let out := execute spawnAgents now params dir true configWorkers d s in
  let hook := onAgentEnd later maxWaves hasUI out.1.1.2 out.1.2 in
  restoreFromSession (earlier ++ out.2) current = out.1.2 ∧
  (active out.1.2 = true → active hook.1 = false →
   restoreFromSession (earlier ++ out.2) hook.1 ≠ hook.1).
Proof.
  intros [plan Hplan] Hready Hauto. cbv zeta.
  destruct (execute_autonomous spawnAgents now params dir configWorkers d s plan
              Hplan Hready Hauto) as [Hstate Hlog].
  cbv zeta in Hstate, Hlog.
  match type of Hstate with _ = (waveEpilogue ?a ?b ?c ?d0 ?e ?f ?g).1 =>
    destruct (waveEpilogue_log a b c d0 e f g) as (entry & Hep & Hentry);
    set (epilogue := waveEpilogue a b c d0 e f g) in * end.
  assert (∀ anyState, restoreFromSession (earlier ++
            (execute spawnAgents now params dir true configWorkers d s).2) anyState =
          (execute spawnAgents now params dir true configWorkers d s).1.2) as Hrestore.
  { intros anyState. rewrite Hlog, Hep, Hstate, !restoreFromSession_app.
    unfold restoreFromSession at 1. cbn [foldl]. rewrite restore_entryData.
    destruct entry; try done. by destruct (Hentry s0). }
  split; [apply Hrestore|].
  intros Hactive Hstopped. rewrite Hrestore. intros Heq. congruence.
Qed.
End RestoreFacts.


Section ResetFacts.
Import Crew CrewShape.
Context `{Enumerate} `{!EnumerateSpec} `{TaskSort} `{!TaskSortSpec}.
Variable now : string.













End ResetFacts.


(* ===================================================================== *)
(** * The further properties on sample runs *)
(* ===================================================================== *)

Section MoreRuns.
Import Swarm SwarmSpec SwarmShape SwarmExamples Crew CrewSpec CrewShape PathExamples
  MoreExamples.
#[local] Existing Instance listingOrder.
#[local] Existing Instance numericOrder.

(** X1 on a name with a hyphen and a digit. *)
Lemma valid_name_is_plain_witness : (1 ≤ String.length "swift-fox2" ≤ 50)%nat.
Proof.
  destruct (valid_name_is_plain "swift-fox2") as [Hlen _]; [reflexivity|exact Hlen].
Defined.

(** X2 on one hour, two minutes and five seconds. *)
Lemma formatDuration_ranges_witness : Lib.formatDuration 3725000 = "1h 2m".
Proof.
  destruct (formatDuration_ranges 3725000) as [Hfmt _]; [lia|].
  rewrite Hfmt. vm_compute. reflexivity.
Defined.

(** X3 on [/proj/src], [/proj/src/auth] and a file below. *)
Lemma reservation_nesting_transitive_witness :
  Lib.reservationMatches "/proj/src/auth/login.ts"
    {| Lib.path := "/proj/src"; Lib.isDir := true; Lib.reason := None;
       Lib.since := "2024-05-01T10:00:00.000Z" |} = true.
Proof.
  apply (reservation_nesting_transitive "/proj/src/auth/login.ts" _
           {| Lib.path := "/proj/src/auth"; Lib.isDir := true; Lib.reason := None;
              Lib.since := "2024-05-01T10:00:00.000Z" |});
    [reflexivity | discriminate | vm_compute; reflexivity | vm_compute; reflexivity].
Defined.

(** X5 on a run: Alice reserves [src/] twice in one call. *)
Lemma executeReserve_dedup_witness :
  ∃ news,
    NoDup news ∧
    Reservations.reservations
      (Reservations.executeReserve posixIsAbsolute posixResolve posixNormalize "/"
         plainRelative "2024-05-01T10:00:00.000Z" "/proj" aliceState ["src/"; "src/"]
         None).1.2 = news.
Proof.
  destruct (executeReserve_dedup posixIsAbsolute posixResolve posixNormalize "/"
              plainRelative "2024-05-01T10:00:00.000Z" "/proj" aliceState
              ["src/"; "src/"] None) as (news & Heq & Hnodup & _);
    [reflexivity | discriminate |].
  exists news. split; [exact Hnodup|]. rewrite Heq. reflexivity.
Defined.

(** X6 on a run: Alice reserves [src/] and releases it. *)
Lemma release_after_reserve_witness :
  Reservations.reservations
    (Reservations.executeRelease posixIsAbsolute posixResolve posixNormalize "/"
       plainRelative "/proj"
       (Reservations.executeReserve posixIsAbsolute posixResolve posixNormalize "/"
          plainRelative "2024-05-01T10:00:00.000Z" "/proj" aliceState ["src/"] None).1.2
       (Reservations.ReleasePaths ["src/"])).1.2 = [].
Proof.
  pose proof (release_after_reserve posixIsAbsolute posixResolve posixNormalize "/"
                plainRelative "2024-05-01T10:00:00.000Z" "/proj" aliceState ["src/"] None)
    as Hround.
  cbv zeta in Hround. destruct Hround as (_ & Hback & _); [reflexivity | discriminate |].
  apply Hback. constructor.
Defined.

(** X8 on a run: Alice holds [TASK-1]. *)
Lemma agentHasTask_iff_witness :
  Presence.agentHasTask "Alice" (storedClaims afterClaim) [] = true.
Proof.
  apply (@agentHasTask_iff listingOrder listingOrder_spec). left.
  exists specX, "TASK-1", aliceClaim. split; vm_compute; reflexivity.
Defined.

(** X10 on a run: Bob asks for the task that Alice holds. *)
Lemma claimTask_decision_witness :
  (¬ ∃ s t, owns (liveAll bothAlive (storedClaims afterClaim)) "Bob" s t) ∧
  readClaim (liveAll bothAlive (storedClaims afterClaim)) specX "TASK-1" =
    Some (Own aliceClaim).
Proof.
  pose proof (@claimTask_decision listingOrder listingOrder_spec bothAlive
                "2024-05-01T12:00:00.000Z" specX "TASK-1" "Bob" "sess-b" 200 None
                afterClaim) as Hd.
  cbv zeta in Hd. destruct Hd as (_ & Hclaimed & _); [vm_compute; reflexivity|].
  apply (Hclaimed (Own aliceClaim)). vm_compute. reflexivity.
Defined.

(** X11 on a run: Bob tries to release the task that Alice holds. *)
Lemma unclaimTask_semantics_witness :
  ∃ found,
    readClaim (liveAll bothAlive (storedClaims afterClaim)) specX "TASK-1" = Some found ∧
    agentOf found = Some "Alice" ∧ Some "Alice" ≠ Some "Bob".
Proof.
  pose proof (@unclaimTask_semantics listingOrder listingOrder_spec bothAlive
                specX "TASK-1" "Bob" afterClaim) as Hd.
  cbv zeta in Hd. destruct Hd as (_ & Hother & _); [vm_compute; reflexivity|].
  apply (Hother (Some "Alice")). vm_compute. reflexivity.
Defined.

(** X12 on a run: Alice claims [TASK-1] and gives it back. *)
Lemma claim_then_unclaim_witness :
  (unclaimTask bothAlive specX "TASK-1" "Alice" afterClaim).1 = UnclaimSuccess.
Proof.
  pose proof (@claim_then_unclaim listingOrder listingOrder_spec bothAlive
                "2024-05-01T10:00:00.000Z" specX "TASK-1" "Alice" "sess-a" 100 None
                freshDisk) as Hd.
  cbv zeta in Hd. destruct Hd as (Hres & _);
    [vm_compute; reflexivity | discriminate | vm_compute; reflexivity
    | vm_compute; reflexivity | exact Hres].
Defined.




(** X16 on a run: Alice completes [TASK-1] and claims [TASK-2]. *)
Lemma free_after_completion_witness :
  (claimTask bothAlive "2024-05-01T12:00:00.000Z" specX "TASK-2" "Alice" "sess-a" 100
     None afterCompletion).1 = ClaimSuccess "2024-05-01T12:00:00.000Z".
Proof.
  pose proof (@free_after_completion listingOrder listingOrder_spec bothAlive
                "2024-05-01T11:00:00.000Z" specX "TASK-1" "Alice" (Some "done")
                afterClaim) as Hd.
  cbv zeta in Hd. destruct Hd as [_ Hnext];
    [apply reachable_step, reachable_fresh | vm_compute; reflexivity |].
  destruct (Hnext bothAlive "2024-05-01T12:00:00.000Z" specX "TASK-2" "sess-a" 100 None)
    as [Hres _]; [vm_compute; reflexivity|].
  change afterCompletion with
    (Swarm.completeTask bothAlive "2024-05-01T11:00:00.000Z" specX "TASK-1" "Alice"
       (Some "done") afterClaim).2.
  rewrite Hres. vm_compute. reflexivity.
Defined.

(** X17 on a run: the files after Alice's claim and completion. *)
Lemma no_empty_spec_stored_witness :
  noEmptySpec (storedClaims afterCompletion) ∧
  noEmptySpec (storedCompletions afterCompletion).
Proof.
  apply (@no_empty_spec_stored listingOrder listingOrder_spec
           [aliceClaims; aliceCompletes]).
  - apply Forall_cons_2; [vm_compute; reflexivity|].
    apply Forall_cons_2; [vm_compute; reflexivity|]. apply Forall_nil_2.
  - apply Forall_cons_2; [discriminate|].
    apply Forall_cons_2; [discriminate|]. apply Forall_nil_2.
Defined.







(** X28 on a run: the first autonomous wave of the sample project. *)
Lemma session_restores_last_wave_witness :
  let out := execute completeAll "2024-05-01T10:06:00.000Z" autonomousParams "/proj"
               true 1 sampleDir initialAutonomousState in
  restoreFromSession out.2 initialAutonomousState = out.1.2.
Proof.
  pose proof (@session_restores_last_wave listingOrder numericOrder completeAll
                "2024-05-01T10:06:00.000Z" "2024-05-01T10:07:00.000Z" autonomousParams
                "/proj" 1 2 true sampleDir initialAutonomousState
                initialAutonomousState []) as Hd.
  cbv zeta in Hd. destruct Hd as [Hrestore _];
    [eexists; reflexivity | vm_compute; discriminate | reflexivity |].
  exact Hrestore.
Defined.
End MoreRuns.
